(** * JetStream clustering core: a shallow embedding of
      [server/jetstream_cluster.go] and the properties checked against it.

    The development follows the layout of the Go file:
    - [Wire]      the binary framing of replicated stream messages
                  ([encodeStreamMsg], [decodeStreamMsg]);
    - [Meta]      the meta controller's assignment map and the functions
                  that apply committed entries and snapshots to it;
    - [Placement] peer selection for a new raft group;
    - [Publish]   the clustered publish path of a stream leader;
    - [Catchup]   snapshot processing on a follower and the catch-up
                  sender of a leader;
    - [Requests]  what the meta leader proposes or answers for an API
                  request;
    - [Updates]   the decoders of replicated consumer updates;
    - [Leadership] the create response of a new stream or consumer leader.

    [WireFacts], [MetaFacts], [PublishFacts] and [CatchupFacts] hold
    further properties of the first modules.

    Go values are modelled as follows.  [uint64], [int64] and [int] are [Z]
    with the wrap-around of each conversion written out; [[]byte] is a list
    of bytes, and so is a [string] that travels in a frame (a Go string is
    a byte sequence), while the names that key the assignment map are
    [string]s; Go maps are [gmap]s; pointers to assignment records are
    replaced by the records themselves, the map being the only place they
    are stored.  Collaborators that live in other files (the account
    registry, the JSON and S2 decoders, the consensus node, the log store,
    the random generator) are parameters of the functions that call
    them. *)

From Stdlib Require Import ZArith Lia List Bool Permutation Sorted.
From coqutil Require Import Byte Word.LittleEndianList.
From stdpp Require Import gmap strings list fin_maps.

Local Open Scope Z_scope.

(** ** Shared Go-level notions *)

(** A Go [string]: an immutable sequence of bytes. *)
Definition gostring := list byte.

(** [len(b)] as a Go [int]. *)
Definition len {A} (b : list A) : Z := Z.of_nat (length b).

(** [b[:n]] and [b[n:]] for [0 <= n <= len(b)]. *)
Definition slice_to {A} (n : Z) (b : list A) : list A := take (Z.to_nat n) b.
Definition slice_from {A} (n : Z) (b : list A) : list A := drop (Z.to_nat n) b.

(** Conversions between the fixed-width integer types. *)
Definition uint16 (n : Z) : Z := n mod 2 ^ 16.
Definition uint32 (n : Z) : Z := n mod 2 ^ 32.
Definition uint64 (n : Z) : Z := n mod 2 ^ 64.
Definition int64 (n : Z) : Z :=
  let u := n mod 2 ^ 64 in if u <? 2 ^ 63 then u else u - 2 ^ 64.

(** The entry opcodes ([entryOp], an [iota] enumeration). *)
Inductive entryOp :=
| assignStreamOp | assignConsumerOp | removeStreamOp | removeConsumerOp
| streamMsgOp | purgeStreamOp | deleteMsgOp
| updateDeliveredOp | updateAcksOp | updateFullStateOp.

Definition entryOp_tag (op : entryOp) : Z :=
  match op with
  | assignStreamOp => 0 | assignConsumerOp => 1
  | removeStreamOp => 2 | removeConsumerOp => 3
  | streamMsgOp => 4 | purgeStreamOp => 5 | deleteMsgOp => 6
  | updateDeliveredOp => 7 | updateAcksOp => 8 | updateFullStateOp => 9
  end.

Definition entryOp_of_tag (t : Z) : option entryOp :=
  match t with
  | 0 => Some assignStreamOp | 1 => Some assignConsumerOp
  | 2 => Some removeStreamOp | 3 => Some removeConsumerOp
  | 4 => Some streamMsgOp | 5 => Some purgeStreamOp | 6 => Some deleteMsgOp
  | 7 => Some updateDeliveredOp | 8 => Some updateAcksOp
  | 9 => Some updateFullStateOp
  | _ => None
  end.

(** * Wire: the STREAM_MSG framing *)

Module Wire.

(** [binary.LittleEndian]: [Uint16/32/64] read [n] bytes, least significant
    first; [PutUint16/32/64] write them.  A read past the end of the slice
    panics in Go; every read below is guarded by a length check, and the
    model reads a missing byte as zero. *)
Fixpoint le_get (n : nat) (b : list byte) : Z :=
  match n, b with
  | S n', x :: b' => Z.lor (byte.unsigned x) (Z.shiftl (le_get n' b') 8)
  | _, _ => 0
  end.

Fixpoint le_put (n : nat) (v : Z) : list byte :=
  match n with
  | O => []
  | S n' => byte.of_Z v :: le_put n' (Z.shiftr v 8)
  end.

Definition Uint16 := le_get 2.
Definition Uint32 := le_get 4.
Definition Uint64 := le_get 8.

(** [make([]byte, n)]: [n] zero bytes. *)
Definition make (n : Z) : list byte := repeat Byte.x00 (Z.to_nat n).

(** [copy(dst[wi:], src)]: overwrites [dst] from index [wi] with as many
    bytes of [src] as fit. *)
Definition copy_at (wi : Z) (src dst : list byte) : list byte :=
  let w := Z.to_nat wi in
  take w dst ++ take (length dst - w) src ++ drop (w + length src) dst.

(** [le.PutUintN(buf[wi:], v)]. *)
Definition PutUint16 (wi : Z) (buf : list byte) (v : Z) := copy_at wi (le_put 2 v) buf.
Definition PutUint32 (wi : Z) (buf : list byte) (v : Z) := copy_at wi (le_put 4 v) buf.
Definition PutUint64 (wi : Z) (buf : list byte) (v : Z) := copy_at wi (le_put 8 v) buf.

Inductive error := errBadStreamMsg.

Inductive result (A : Type) :=
| Ok (a : A)
| Err (e : error).
Arguments Ok {A} a.
Arguments Err {A} e.

(** The six values [decodeStreamMsg] returns beside its error. *)
Record StreamMsg := mkStreamMsg {
  subject : gostring;
  reply : gostring;
  hdr : list byte;
  msg : list byte;
  lseq : Z;   (* uint64 *)
  ts : Z      (* int64 *)
}.

Definition decodeStreamMsg (buf : list byte) : result StreamMsg :=
  if len buf <? 26 then Err errBadStreamMsg else
  let lseq := Uint64 buf in
  let buf := slice_from 8 buf in
  let ts := int64 (Uint64 buf) in
  let buf := slice_from 8 buf in
  let sl := Uint16 buf in
  let buf := slice_from 2 buf in
  if len buf <? sl then Err errBadStreamMsg else
  let subject := slice_to sl buf in
  let buf := slice_from sl buf in
  if len buf <? 2 then Err errBadStreamMsg else
  let rl := Uint16 buf in
  let buf := slice_from 2 buf in
  if len buf <? rl then Err errBadStreamMsg else
  let reply := slice_to rl buf in
  let buf := slice_from rl buf in
  if len buf <? 2 then Err errBadStreamMsg else
  let hl := Uint16 buf in
  let buf := slice_from 2 buf in
  if len buf <? hl then Err errBadStreamMsg else
  let hdr := slice_to hl buf in
  let buf := slice_from hl buf in
  if len buf <? 4 then Err errBadStreamMsg else
  let ml := Uint32 buf in
  let buf := slice_from 4 buf in
  if len buf <? ml then Err errBadStreamMsg else
  let msg := slice_to ml buf in
  Ok (mkStreamMsg subject reply hdr msg lseq ts).

Definition encodeStreamMsg (subject reply : gostring) (hdr msg : list byte)
    (lseq ts : Z) : list byte :=
  let elen := 1 + 8 + 8 + len subject + len reply + len hdr + len msg in
  let elen := elen + (2 + 2 + 2 + 4) in
  let buf := make elen in
  let buf := copy_at 0 [byte.of_Z (entryOp_tag streamMsgOp)] buf in
  let wi := 1 in
  let buf := PutUint64 wi buf lseq in
  let wi := wi + 8 in
  let buf := PutUint64 wi buf (uint64 ts) in
  let wi := wi + 8 in
  let buf := PutUint16 wi buf (uint16 (len subject)) in
  let wi := wi + 2 in
  let buf := copy_at wi subject buf in
  let wi := wi + len subject in
  let buf := PutUint16 wi buf (uint16 (len reply)) in
  let wi := wi + 2 in
  let buf := copy_at wi reply buf in
  let wi := wi + len reply in
  let buf := PutUint16 wi buf (uint16 (len hdr)) in
  let wi := wi + 2 in
  let '(buf, wi) :=
    if 0 <? len hdr then (copy_at wi hdr buf, wi + len hdr) else (buf, wi) in
  let buf := PutUint32 wi buf (uint32 (len msg)) in
  let wi := wi + 4 in
  let '(buf, wi) :=
    if 0 <? len msg then (copy_at wi msg buf, wi + len msg) else (buf, wi) in
  slice_to wi buf.

(** The frame as the format describes it: the fields one after the other. *)
Definition frame (subject reply : gostring) (hdr msg : list byte)
    (lseq ts : Z) : list byte :=
  le_put 8 lseq ++ le_put 8 (uint64 ts)
  ++ le_put 2 (uint16 (len subject)) ++ subject
  ++ le_put 2 (uint16 (len reply)) ++ reply
  ++ le_put 2 (uint16 (len hdr)) ++ hdr
  ++ le_put 4 (uint32 (len msg)) ++ msg.

(** What makes a buffer a bad frame, in the words of the format: it is
    shorter than the 26 bytes of the fixed-size fields, or one of the section
    lengths it declares exceeds the room left for the variable sections
    after the sections before it. *)
Definition bad_frame (buf : list byte) : Prop :=
  len buf < 26 \/
  let room := len buf - 26 in
  let sl := Uint16 (slice_from 16 buf) in
  room < sl \/
  let rl := Uint16 (slice_from (18 + sl) buf) in
  room - sl < rl \/
  let hl := Uint16 (slice_from (20 + sl + rl) buf) in
  room - sl - rl < hl \/
  let ml := Uint32 (slice_from (22 + sl + rl + hl) buf) in
  room - sl - rl - hl < ml.

Example encode_small :
  encodeStreamMsg [Byte.x66] [] [] [Byte.x68; Byte.x69] 7 (-1)
  = [Byte.x04] ++ frame [Byte.x66] [] [] [Byte.x68; Byte.x69] 7 (-1).
Proof. vm_compute. reflexivity. Qed.

Example decode_small :
  decodeStreamMsg (frame [Byte.x66] [] [] [Byte.x68; Byte.x69] 7 (-1))
  = Ok (mkStreamMsg [Byte.x66] [] [] [Byte.x68; Byte.x69] 7 (-1)).
Proof. vm_compute. reflexivity. Qed.

(** *** Little-endian fields *)

Lemma le_put_split n v : le_put n v = le_split n v.
Proof. revert v; induction n as [|n IH]; intros v; simpl; [|rewrite IH]; reflexivity. Qed.

Lemma length_le_put n v : length (le_put n v) = n.
Proof. rewrite le_put_split. apply length_le_split. Qed.

Lemma le_get_app n a rest : length a = n -> le_get n (a ++ rest) = le_combine a.
Proof.
  revert a; induction n as [|n IH]; intros [|x a] Hl; simpl in *; try discriminate.
  - reflexivity.
  - rewrite IH by congruence. reflexivity.
Qed.

Lemma le_get_put n v rest :
  le_get n (le_put n v ++ rest) = v mod 2 ^ (Z.of_nat n * 8).
Proof.
  rewrite le_get_app by apply length_le_put.
  rewrite le_put_split. apply le_combine_split.
Qed.

Lemma le_get_nonneg n b : 0 <= le_get n b.
Proof.
  revert b; induction n as [|n IH]; intros [|x b]; simpl; try lia.
  apply Z.lor_nonneg. split.
  - apply byte.unsigned_range.
  - apply Z.shiftl_nonneg, IH.
Qed.

(** *** Slices *)

Lemma len_app {A} (a b : list A) : len (a ++ b) = len a + len b.
Proof. unfold len. rewrite length_app. lia. Qed.

Lemma len_nonneg {A} (a : list A) : 0 <= len a.
Proof. unfold len. lia. Qed.

Lemma len_le_put n v : len (le_put n v) = Z.of_nat n.
Proof. unfold len. now rewrite length_le_put. Qed.

Lemma slice_from_app {A} (a b : list A) n : n = len a -> slice_from n (a ++ b) = b.
Proof.
  intros ->. unfold slice_from, len. rewrite Nat2Z.id.
  rewrite drop_app_length. reflexivity.
Qed.

Lemma slice_to_app {A} (a b : list A) n : n = len a -> slice_to n (a ++ b) = a.
Proof.
  intros ->. unfold slice_to, len. rewrite Nat2Z.id.
  rewrite take_app_length. reflexivity.
Qed.

Lemma len_slice_from {A} (b : list A) n :
  0 <= n <= len b -> len (slice_from n b) = len b - n.
Proof. unfold len, slice_from. rewrite length_drop. lia. Qed.

Lemma slice_from_slice_from {A} (b : list A) n m :
  0 <= n -> 0 <= m -> slice_from m (slice_from n b) = slice_from (n + m) b.
Proof.
  intros Hn Hm. unfold slice_from. rewrite drop_drop. f_equal. lia.
Qed.

(** *** The encoder writes the frame *)

Lemma drop_repeat {A} (x : A) n k : drop n (repeat x k) = repeat x (k - n).
Proof.
  revert n; induction k as [|k IH]; intros [|n]; simpl; try reflexivity.
  apply IH.
Qed.

Lemma copy_at_fill (pre src : list byte) (k : nat) wi :
  wi = len pre -> (length src <= k)%nat ->
  copy_at wi src (pre ++ repeat Byte.x00 k)
  = (pre ++ src) ++ repeat Byte.x00 (k - length src).
Proof.
  intros -> Hk. unfold copy_at, len. rewrite Nat2Z.id.
  rewrite take_app_length, length_app, repeat_length.
  replace (length pre + k - length pre)%nat with k by lia.
  rewrite take_ge by lia.
  rewrite drop_app_add', drop_repeat by reflexivity.
  now rewrite <- app_assoc.
Qed.

Lemma guarded_copy_fill (pre src : list byte) (k : nat) wi :
  wi = len pre -> (length src <= k)%nat ->
  (if 0 <? len src
   then (copy_at wi src (pre ++ repeat Byte.x00 k), wi + len src)
   else (pre ++ repeat Byte.x00 k, wi))
  = ((pre ++ src) ++ repeat Byte.x00 (k - length src), len (pre ++ src)).
Proof.
  intros Hwi Hk. destruct src as [|x src].
  - simpl. rewrite app_nil_r, Nat.sub_0_r. now subst.
  - replace (0 <? len (x :: src)) with true
      by (symmetry; apply Z.ltb_lt; unfold len; simpl; lia).
    rewrite copy_at_fill by assumption. rewrite len_app. now subst.
Qed.

Ltac len_side :=
  repeat rewrite ?len_app, ?len_le_put, ?length_app, ?length_le_put;
  unfold len; simpl length; lia.

Lemma encodeStreamMsg_frame subject reply hdr msg lseq ts :
  encodeStreamMsg subject reply hdr msg lseq ts
  = byte.of_Z (entryOp_tag streamMsgOp) :: frame subject reply hdr msg lseq ts.
Proof.
  unfold encodeStreamMsg, PutUint64, PutUint32, PutUint16, make.
  cbv zeta.
  match goal with |- context [repeat Byte.x00 ?k] =>
    change (repeat Byte.x00 k) with ([] ++ repeat Byte.x00 k) end.
  do 8 (erewrite copy_at_fill; [| len_side ..]).
  erewrite guarded_copy_fill; [| len_side ..].
  erewrite copy_at_fill; [| len_side ..].
  erewrite guarded_copy_fill; [| len_side ..].
  rewrite slice_to_app by len_side.
  unfold frame. simpl. now rewrite <- !app_assoc.
Qed.

(** *** Decoding a frame *)

Lemma uint16_small n : 0 <= n <= 65535 -> uint16 n = n.
Proof. intros. unfold uint16. apply Z.mod_small. lia. Qed.

Lemma uint32_small n : 0 <= n < 2 ^ 32 -> uint32 n = n.
Proof. intros. unfold uint32. apply Z.mod_small. lia. Qed.

Lemma int64_uint64 t : - 2 ^ 63 <= t < 2 ^ 63 -> int64 (uint64 t mod 2 ^ 64) = t.
Proof.
  intros Ht. unfold int64, uint64. rewrite !Z.mod_mod by lia.
  destruct (Z.ltb_spec (t mod 2 ^ 64) (2 ^ 63)) as [Hlt|Hge].
  - destruct (Z.neg_nonneg_cases t) as [Hn|Hp].
    + rewrite <- (Z.mod_add t 1) in Hlt by lia.
      rewrite Z.mod_small in Hlt by lia. lia.
    + apply Z.mod_small. lia.
  - destruct (Z.neg_nonneg_cases t) as [Hn|Hp].
    + rewrite <- (Z.mod_add t 1) by lia. rewrite Z.mod_small by lia. lia.
    + rewrite Z.mod_small in Hge by lia. lia.
Qed.

(** Bytes after the frame are ignored: [msg] is [buf[:ml]]. *)
Lemma decodeStreamMsg_frame s r h m l t rest :
  len s <= 65535 -> len r <= 65535 -> len h <= 65535 -> len m < 2 ^ 32 ->
  0 <= l < 2 ^ 64 -> - 2 ^ 63 <= t < 2 ^ 63 ->
  decodeStreamMsg (frame s r h m l t ++ rest) = Ok (mkStreamMsg s r h m l t).
Proof.
  intros Hs Hr Hh Hm Hl Ht.
  pose proof (len_nonneg s). pose proof (len_nonneg r).
  pose proof (len_nonneg h). pose proof (len_nonneg m).
  unfold decodeStreamMsg.
  replace (len (frame s r h m l t ++ rest) <? 26) with false
    by (symmetry; apply Z.ltb_ge; unfold frame; len_side).
  cbv zeta. unfold frame, Uint64, Uint32, Uint16.
  rewrite <- !app_assoc.
  rewrite !uint16_small, uint32_small by lia.
  repeat
    (repeat (rewrite (slice_from_app (le_put _ _))
               by (rewrite len_le_put; reflexivity));
     rewrite ?le_get_put;
     change (2 ^ (Z.of_nat 2 * 8)) with (2 ^ 16);
     change (2 ^ (Z.of_nat 4 * 8)) with (2 ^ 32);
     change (2 ^ (Z.of_nat 8 * 8)) with (2 ^ 64);
     rewrite ?(Z.mod_small (len _)) by lia;
     match goal with
     | |- context [len ?b <? ?n] =>
         replace (len b <? n) with false
           by (symmetry; apply Z.ltb_ge; len_side)
     end;
     rewrite ?slice_from_app, ?slice_to_app by reflexivity).
  rewrite (Z.mod_small l) by lia. rewrite int64_uint64 by lia.
  reflexivity.
Qed.

Lemma len_slice_from_max {A} (b : list A) n :
  0 <= n -> len (slice_from n b) = Z.max 0 (len b - n).
Proof. unfold len, slice_from. rewrite length_drop. lia. Qed.

Lemma decodeStreamMsg_error_iff buf :
  decodeStreamMsg buf = Err errBadStreamMsg <-> bad_frame buf.
Proof.
  unfold decodeStreamMsg, bad_frame, Uint16, Uint32.
  destruct (Z.ltb_spec (len buf) 26) as [Hshort|Hlen]; [tauto|].
  cbv zeta.
  rewrite (slice_from_slice_from buf 8 8) by lia. change (8 + 8) with 16.
  set (sl := le_get 2 (slice_from 16 buf)).
  assert (0 <= sl) by apply le_get_nonneg.
  rewrite (slice_from_slice_from buf 16 2) by lia. change (16 + 2) with 18.
  rewrite (slice_from_slice_from buf 18 sl) by lia.
  set (rl := le_get 2 (slice_from (18 + sl) buf)).
  assert (0 <= rl) by apply le_get_nonneg.
  rewrite (slice_from_slice_from buf (18 + sl) 2) by lia.
  rewrite (slice_from_slice_from buf (18 + sl + 2) rl) by lia.
  replace (18 + sl + 2 + rl) with (20 + sl + rl) by lia.
  set (hl := le_get 2 (slice_from (20 + sl + rl) buf)).
  assert (0 <= hl) by apply le_get_nonneg.
  rewrite (slice_from_slice_from buf (20 + sl + rl) 2) by lia.
  rewrite (slice_from_slice_from buf (20 + sl + rl + 2) hl) by lia.
  replace (20 + sl + rl + 2 + hl) with (22 + sl + rl + hl) by lia.
  set (ml := le_get 4 (slice_from (22 + sl + rl + hl) buf)).
  assert (0 <= ml) by apply le_get_nonneg.
  rewrite (slice_from_slice_from buf (22 + sl + rl + hl) 4) by lia.
  rewrite !len_slice_from_max by lia.
  repeat match goal with
  | |- context [?a <? ?b] => destruct (Z.ltb_spec a b)
  end; split; intros Hx; try discriminate; try lia; try reflexivity.
Qed.

(** C5, as the code has it.  [decodeStreamMsg] returns [errBadStreamMsg]
    exactly when the buffer is shorter than the 26 bytes of the fixed-size
    fields (8 + 8 + 2 + 2 + 2 + 4) or a section length it declares exceeds
    the room left for the variable sections.  The minimal frame, all
    sections empty, has exactly 26 bytes and decodes; the same frame cut to
    25 bytes is refused. *)
Theorem decodeStreamMsg_bad_exactly :
  (forall buf, decodeStreamMsg buf = Err errBadStreamMsg <-> bad_frame buf)
  /\ frame [] [] [] [] 0 0 = repeat Byte.x00 26
  /\ decodeStreamMsg (repeat Byte.x00 26) = Ok (mkStreamMsg [] [] [] [] 0 0)
  /\ decodeStreamMsg (repeat Byte.x00 25) = Err errBadStreamMsg.
Proof.
  split; [exact decodeStreamMsg_error_iff|].
  repeat split; vm_compute; reflexivity.
Qed.

(** C5 as stated fails: a buffer of exactly 25 bytes whose declared section
    lengths are all zero is at the claimed minimum and overruns nothing,
    and is refused all the same. *)
Lemma decodeStreamMsg_25_bytes_refused :
  let buf := repeat Byte.x00 25 in
  len buf = 25
  /\ Uint16 (slice_from 16 buf) = 0
  /\ Uint16 (slice_from 18 buf) = 0
  /\ Uint16 (slice_from 20 buf) = 0
  /\ decodeStreamMsg buf = Err errBadStreamMsg.
Proof. repeat split; vm_compute; reflexivity. Qed.

(** C6.  Decoding what [encodeStreamMsg] wrote, after its leading opcode
    byte, gives back the six values, whenever the three short sections fit
    a [uint16] length and the message a [uint32] one ([lseq] is a [uint64]
    and [ts] an [int64]). *)
Theorem encode_decode_roundtrip subject reply hdr msg lseq ts :
  len subject <= 65535 -> len reply <= 65535 -> len hdr <= 65535 ->
  len msg < 2 ^ 32 ->
  0 <= lseq < 2 ^ 64 -> - 2 ^ 63 <= ts < 2 ^ 63 ->
  decodeStreamMsg (slice_from 1 (encodeStreamMsg subject reply hdr msg lseq ts))
  = Ok (mkStreamMsg subject reply hdr msg lseq ts).
Proof.
  intros Hs Hr Hh Hm Hl Ht.
  rewrite encodeStreamMsg_frame.
  change (slice_from 1 (?x :: ?f)) with f.
  rewrite <- (app_nil_r (frame _ _ _ _ _ _)).
  now apply decodeStreamMsg_frame.
Qed.

Lemma encode_decode_roundtrip_witness :
  decodeStreamMsg
    (slice_from 1
       (encodeStreamMsg [Byte.x66; Byte.x6f; Byte.x6f] [Byte.x72] []
          [Byte.x68; Byte.x69] 41 (-5)))
  = Ok (mkStreamMsg [Byte.x66; Byte.x6f; Byte.x6f] [Byte.x72] []
          [Byte.x68; Byte.x69] 41 (-5)).
Proof.
  apply encode_decode_roundtrip; unfold len; simpl; lia.
Defined.

End Wire.

(** * Meta: the assignment map of the meta controller *)

Module Meta.

Local Open Scope string_scope.
Local Open Scope list_scope.

(** The replicated records.  Only the fields the functions below read are
    kept; pointer fields ([*ClientInfo], [*StreamConfig], [*raftGroup]) are
    taken to be set, as they are on every assignment the meta leader
    proposes.  The runtime-only fields [responded] and [err] are written by
    the create paths of the stream and consumer replicators and are not
    part of the map's structure. *)
Record ClientInfo := mkClientInfo { Account : string }.

Record StreamConfig := mkStreamConfig { Name : string; Replicas : Z }.

(** A consensus node, as far as the predicates here consult it. *)
Record RaftNode := mkRaftNode { Leader : bool }.

Record raftGroup := mkRaftGroup {
  rg_Name : string;
  Peers : list string;
  node : option RaftNode
}.

Record consumerAssignment := mkCA {
  ca_Client : ClientInfo;
  ca_Name : string;
  ca_Stream : string;
  ca_Group : raftGroup;
  ca_Reply : string
}.

Record streamAssignment := mkSA {
  sa_Client : ClientInfo;
  sa_Config : StreamConfig;
  sa_Group : raftGroup;
  sa_Sync : string;
  sa_Reply : string;
  consumers : gmap string consumerAssignment
}.

Record writeableStreamAssignment := mkWSA {
  w_Client : ClientInfo;
  w_Config : StreamConfig;
  w_Group : raftGroup;
  w_Sync : string;
  w_Consumers : list consumerAssignment
}.

(** [Account], as far as [LookupAccount]'s callers read it. *)
Record AccountT := mkAccount { acc_Name : string }.

(** What the functions do outside the map: the calls into the stream and
    consumer replicators and the error log, in the order they happen. *)
Inductive effect :=
| Errorf (what : string) (payload : list byte)
| ClusterCreateStream (sa : streamAssignment)
| ClusterDeleteStream (sa : streamAssignment) (wasLeader : bool)
| ClusterCreateConsumer (ca : consumerAssignment)
| ClusterDeleteConsumer (ca : consumerAssignment) (wasLeader : bool).

(** [jetStream] with its [jetStreamCluster]: the assignment map
    ACC -> STREAM -> assignment, the id of the meta node, and the effects
    so far. *)
Record jetStream := mkJS {
  streams : gmap string (gmap string streamAssignment);
  ourID : string;
  effects : list effect
}.

Definition with_streams (js : jetStream)
    (m : gmap string (gmap string streamAssignment)) : jetStream :=
  mkJS m (ourID js) (effects js).

Definition emit (js : jetStream) (e : effect) : jetStream :=
  mkJS (streams js) (ourID js) (effects js ++ [e]).

(** [rg.isMember(id)]. *)
Definition isMember (rg : raftGroup) (id : string) : bool :=
  existsb (String.eqb id) (Peers rg).

(** What [rg.node.Leader()] answers on a group that has its handle.
    [createRaftGroup] installs the handle on the members of a group of
    several peers.  On a group without handle the Go call is a call on a
    nil interface and panics: [nilNode] below says where the predicates
    get there, the [_call] versions run them with the panic, and the
    answer [false] given here stands only where the call is not made or
    the handle is there. *)
Definition node_Leader (rg : raftGroup) : bool :=
  match node rg with
  | Some n => Leader n
  | None => false
  end.

(** The inner loop shared by [isStreamLeader] and [isConsumerLeader]:
    some peer is us, and the group has one peer or its node leads. *)
Definition leads (rg : raftGroup) (id : string) : bool :=
  existsb (fun peer =>
    String.eqb peer id && ((len (Peers rg) =? 1)%Z || node_Leader rg)) (Peers rg).

(** [js.streamAssignment(account, stream)]. *)
Definition lookupSA (js : jetStream) (account stream : string)
    : option streamAssignment :=
  match streams js !! account with
  | Some as_ => as_ !! stream
  | None => None
  end.

Definition isStreamLeader (js : jetStream) (account stream : string) : bool :=
  match lookupSA js account stream with
  | None => false
  | Some sa => leads (sa_Group sa) (ourID js)
  end.

(** [isConsumerLeader] on a clustered server ([cc != nil]).  The loop ranges
    over every consumer of the stream; [consumer] is not read. *)
Definition isConsumerLeader (js : jetStream) (account stream consumer : string)
    : bool :=
  match lookupSA js account stream with
  | None => false
  | Some sa =>
      existsb (fun kv => leads (ca_Group (snd kv)) (ourID js))
              (map_to_list (consumers sa))
  end.

(** The receiver may be nil: non-clustered mode always answers [true]. *)
Definition cc_isConsumerLeader (cc : option jetStream)
    (account stream consumer : string) : bool :=
  match cc with
  | None => true
  | Some js => isConsumerLeader js account stream consumer
  end.

(** *** The predicates as they run

    The loops of [isStreamLeader] and [isConsumerLeader] with the
    nil-pointer panic of [rg.node.Leader()]: [None] is the panic.  The
    loop over the peers asks the node at the first peer that is this
    server, unless the group has a single peer; it returns at the first
    [true] and goes on after a [false]. *)
Fixpoint peersLoop (rg : raftGroup) (id : string) (peers : list string)
    : option bool :=
  match peers with
  | [] => Some false
  | peer :: peers =>
      if String.eqb peer id then
        if (len (Peers rg) =? 1)%Z then Some true
        else
          match node rg with
          | None => None (* rg.node.Leader() on a nil handle *)
          | Some n => if Leader n then Some true else peersLoop rg id peers
          end
      else peersLoop rg id peers
  end.

(** The loop over the consumers of a stream, in the order the map is
    ranged over. *)
Fixpoint consumersLoop (id : string) (cas : list (string * consumerAssignment))
    : option bool :=
  match cas with
  | [] => Some false
  | kv :: cas =>
      let rg := ca_Group (snd kv) in
      match peersLoop rg id (Peers rg) with
      | None => None
      | Some true => Some true
      | Some false => consumersLoop id cas
      end
  end.

Definition isStreamLeader_call (js : jetStream) (account stream : string)
    : option bool :=
  match lookupSA js account stream with
  | None => Some false
  | Some sa => peersLoop (sa_Group sa) (ourID js) (Peers (sa_Group sa))
  end.

Definition isConsumerLeader_call (js : jetStream)
    (account stream consumer : string) : option bool :=
  match lookupSA js account stream with
  | None => Some false
  | Some sa => consumersLoop (ourID js) (map_to_list (consumers sa))
  end.

(** Where the loop over the peers of [rg] calls [Leader()] on a nil
    handle: this server is a peer, the group has several, and there is no
    handle. *)
Definition nilNode (rg : raftGroup) (id : string) : bool :=
  isMember rg id && negb (len (Peers rg) =? 1)%Z
  && match node rg with None => true | Some _ => false end.

(** The handle is there where [isStreamLeader] will ask for it; and where
    [isConsumerLeader] may ask for it, whatever the order in which it
    ranges over the consumers. *)
Definition streamNodeReady (js : jetStream) (account stream : string) : bool :=
  match lookupSA js account stream with
  | None => true
  | Some sa => negb (nilNode (sa_Group sa) (ourID js))
  end.

Definition consumerNodesReady (js : jetStream) (account stream : string) : bool :=
  match lookupSA js account stream with
  | None => true
  | Some sa =>
      forallb (fun kv => negb (nilNode (ca_Group (snd kv)) (ourID js)))
              (map_to_list (consumers sa))
  end.

Section Apply.

(** Collaborators that live outside this file: the server's account
    registry, which resolves an account by its name, and the decoders
    ([json.Unmarshal], and [s2.Decode] before it for a snapshot). *)
Context (LookupAccount : string -> option AccountT).
Context (decodeStreamAssignment : list byte -> option streamAssignment).
Context (decodeConsumerAssignment : list byte -> option consumerAssignment).
Context (decodeMetaSnapshot : list byte -> option (list writeableStreamAssignment)).

Definition processStreamAssignment (js : jetStream) (sa : streamAssignment)
    : jetStream :=
  match LookupAccount (Account (sa_Client sa)) with
  | None => js
  | Some acc =>
      let stream := Name (sa_Config sa) in
      let accStreams := streams js !! acc_Name acc in
      match accStreams ≫= (fun as_ => as_ !! stream) with
      | Some _ => js
      | None =>
          let accStreams := <[stream := sa]> (default ∅ accStreams) in
          let js := with_streams js (<[acc_Name acc := accStreams]> (streams js)) in
          if isMember (sa_Group sa) (ourID js)
          then emit js (ClusterCreateStream sa)
          else js
      end
  end.

(** [processStreamRemoval] where its leadership check returns.  The check
    comes first: where it panics ([isStreamLeader_call] is [None]) the
    function is left before anything is removed. *)
Definition processStreamRemoval (js : jetStream) (sa : streamAssignment)
    : jetStream :=
  let account := Account (sa_Client sa) in
  let stream := Name (sa_Config sa) in
  let wasLeader := isStreamLeader js account stream in
  match streams js !! account with
  | Some accStreams =>
      match accStreams !! stream with
      | Some _ =>
          let accStreams := delete stream accStreams in
          let m := if decide (size accStreams = 0%nat)
                   then delete account (streams js)
                   else <[account := accStreams]> (streams js) in
          emit (with_streams js m) (ClusterDeleteStream sa wasLeader)
      | None => js
      end
  | None => js
  end.

Definition processConsumerAssignment (js : jetStream) (ca : consumerAssignment)
    : jetStream :=
  let account := Account (ca_Client ca) in
  match streams js !! account with
  | Some accStreams =>
      match accStreams !! ca_Stream ca with
      | Some sa =>
          let sa := mkSA (sa_Client sa) (sa_Config sa) (sa_Group sa) (sa_Sync sa)
                         (sa_Reply sa) (<[ca_Name ca := ca]> (consumers sa)) in
          let js := with_streams js
                      (<[account := <[ca_Stream ca := sa]> accStreams]> (streams js)) in
          if isMember (ca_Group ca) (ourID js)
          then emit js (ClusterCreateConsumer ca)
          else js
      | None => js
      end
  | None => js
  end.

(** [processConsumerRemoval] where its leadership check returns; the
    check comes first here too. *)
Definition processConsumerRemoval (js : jetStream) (ca : consumerAssignment)
    : jetStream :=
  let account := Account (ca_Client ca) in
  let wasLeader := isConsumerLeader js account (ca_Stream ca) (ca_Name ca) in
  let m :=
    match streams js !! account with
    | Some accStreams =>
        match accStreams !! ca_Stream ca with
        | Some sa =>
            let sa := mkSA (sa_Client sa) (sa_Config sa) (sa_Group sa) (sa_Sync sa)
                           (sa_Reply sa) (delete (ca_Name ca) (consumers sa)) in
            <[account := <[ca_Stream ca := sa]> accStreams]> (streams js)
        | None => streams js
        end
    | None => streams js
    end in
  emit (with_streams js m) (ClusterDeleteConsumer ca wasLeader).

(** The map [applyMetaSnapshot] builds from the decoded snapshot, "our new
    version here outside of js". *)
Definition snapshotAssignment (wsa : writeableStreamAssignment) : streamAssignment :=
  mkSA (w_Client wsa) (w_Config wsa) (w_Group wsa) (w_Sync wsa) ""
       (foldl (fun m ca => <[ca_Name ca := ca]> m) ∅ (w_Consumers wsa)).

Definition snapshotStreams (wsas : list writeableStreamAssignment)
    : gmap string (gmap string streamAssignment) :=
  foldl (fun streams wsa =>
           let account := Account (w_Client wsa) in
           let as_ := default ∅ (streams !! account) in
           <[account := <[Name (w_Config wsa) := snapshotAssignment wsa]> as_]> streams)
        ∅ wsas.

(** "Walk through the old list to generate the delete list": the removed
    assignments and, for those that stay, their new versions.  Go ranges
    over its maps in no fixed order; the model takes the order of
    [map_to_list]. *)
Definition walkOld (old new : gmap string (gmap string streamAssignment))
    : list streamAssignment * list streamAssignment :=
  foldl (fun acc '(account, asa) =>
           let nasa := default ∅ (new !! account) in
           foldl (fun '(saDel, saChk) '(sn, sa) =>
                    match nasa !! sn with
                    | None => (saDel ++ [sa], saChk)
                    | Some nsa => (saDel, saChk ++ [nsa])
                    end)
                 acc (map_to_list asa))
        ([], []) (map_to_list old).

(** "Walk through the new list to generate the add list." *)
Definition walkNew (old new : gmap string (gmap string streamAssignment))
    : list streamAssignment :=
  foldl (fun saAdd '(account, nasa) =>
           let asa := default ∅ (old !! account) in
           foldl (fun saAdd '(sn, sa) =>
                    match asa !! sn with
                    | None => saAdd ++ [sa]
                    | Some _ => saAdd
                    end)
                 saAdd (map_to_list nasa))
        [] (map_to_list new).

(** "Now walk the ones to check and process consumers": the loop ranges
    over the consumers of the old assignment [osa]. *)
Definition walkChk (js : jetStream) (saChk : list streamAssignment)
    : list consumerAssignment * list consumerAssignment :=
  foldl (fun acc sa =>
           match lookupSA js (Account (sa_Client sa)) (Name (sa_Config sa)) with
           | Some osa =>
               foldl (fun '(caAdd, caDel) '(_, ca) =>
                        match consumers sa !! ca_Name ca with
                        | None => (caAdd, caDel ++ [ca])
                        | Some _ => (caAdd ++ [ca], caDel)
                        end)
                     acc (map_to_list (consumers osa))
           | None => acc
           end)
        ([], []) saChk.

Inductive error := errDecode.

Definition applyMetaSnapshot (js : jetStream) (buf : list byte)
    : jetStream * option error :=
  match decodeMetaSnapshot buf with
  | None => (js, Some errDecode)
  | Some wsas =>
      let streams' := snapshotStreams wsas in
      let '(saDel, saChk) := walkOld (streams js) streams' in
      let saAdd := walkNew (streams js) streams' in
      let '(caAdd, caDel) := walkChk js saChk in
      (* Do removals first. *)
      let js := foldl processStreamRemoval js saDel in
      (* Now do add for the streams. Also add in all consumers. *)
      let js := foldl (fun js sa =>
                         foldl processConsumerAssignment
                               (processStreamAssignment js sa)
                               (map snd (map_to_list (consumers sa))))
                      js saAdd in
      (* Now do the deltas for existing stream's consumers. *)
      let js := foldl processConsumerRemoval js caDel in
      let js := foldl processConsumerAssignment js caAdd in
      (js, None)
  end.

Inductive EntryType := EntryNormal | EntrySnapshot.

Record Entry := mkEntry { Type_ : EntryType; Data : list byte }.

(** How a call of [applyMetaEntries] ends: it ran through the batch, it
    left through one of its [return]s, or it panicked. *)
Inductive outcome := Finished | Returned | Panicked.

Definition decodeFailure (js : jetStream) (what : string) (payload : list byte)
    : jetStream * outcome :=
  (emit js (Errorf what payload), Returned).

Fixpoint applyMetaEntries (js : jetStream) (entries : list Entry)
    : jetStream * outcome :=
  match entries with
  | [] => (js, Finished)
  | e :: entries =>
      match Type_ e with
      | EntrySnapshot => applyMetaEntries (fst (applyMetaSnapshot js (Data e))) entries
      | EntryNormal =>
          match Data e with
          | [] => (js, Panicked) (* buf[0]: index out of range *)
          | op :: payload =>
              match entryOp_of_tag (byte.unsigned op) with
              | Some assignStreamOp =>
                  match decodeStreamAssignment payload with
                  | None => decodeFailure js "stream assignment" payload
                  | Some sa => applyMetaEntries (processStreamAssignment js sa) entries
                  end
              | Some removeStreamOp =>
                  match decodeStreamAssignment payload with
                  | None => decodeFailure js "stream assignment" payload
                  | Some sa => applyMetaEntries (processStreamRemoval js sa) entries
                  end
              | Some assignConsumerOp =>
                  match decodeConsumerAssignment payload with
                  | None => decodeFailure js "consumer assigment" payload
                  | Some ca => applyMetaEntries (processConsumerAssignment js ca) entries
                  end
              | Some removeConsumerOp =>
                  match decodeConsumerAssignment payload with
                  | None => decodeFailure js "consumer assigment" payload
                  | Some ca => applyMetaEntries (processConsumerRemoval js ca) entries
                  end
              | _ => (js, Panicked) (* Unknown meta entry op type *)
              end
          end
      end
  end.


(** *** Assignment of a stream *)

(** The registry resolves an account by its name. *)
Hypothesis LookupAccount_Name :
  forall n acc, LookupAccount n = Some acc -> acc_Name acc = n.

Lemma lookupSA_with_streams js m account stream :
  lookupSA (with_streams js m) account stream
  = m !! account ≫= (fun as_ => as_ !! stream).
Proof. unfold lookupSA. simpl. destruct (m !! account); reflexivity. Qed.

Lemma lookupSA_emit js e account stream :
  lookupSA (emit js e) account stream = lookupSA js account stream.
Proof. reflexivity. Qed.

Lemma lookupSA_bind js account stream :
  lookupSA js account stream = streams js !! account ≫= (fun as_ => as_ !! stream).
Proof. unfold lookupSA. destruct (streams js !! account); reflexivity. Qed.

Lemma processStreamAssignment_lookup js sa a s :
  lookupSA (processStreamAssignment js sa) a s
  = match LookupAccount (Account (sa_Client sa)) with
    | None => lookupSA js a s
    | Some _ =>
        match lookupSA js (Account (sa_Client sa)) (Name (sa_Config sa)) with
        | Some _ => lookupSA js a s
        | None =>
            if decide (a = Account (sa_Client sa) /\ s = Name (sa_Config sa))
            then Some sa else lookupSA js a s
        end
    end.
Proof.
  unfold processStreamAssignment.
  destruct (LookupAccount (Account (sa_Client sa))) as [acc|] eqn:Hacc; [|reflexivity].
  apply LookupAccount_Name in Hacc. rewrite Hacc.
  rewrite <- lookupSA_bind.
  destruct (lookupSA js (Account (sa_Client sa)) (Name (sa_Config sa))) eqn:Hl;
    [reflexivity|].
  cbv zeta.
  assert (forall js', lookupSA (if isMember (sa_Group sa) (ourID js')
                                then emit js' (ClusterCreateStream sa) else js') a s
                      = lookupSA js' a s) as Hemit
    by (intros js'; destruct (isMember _ _); reflexivity).
  rewrite Hemit, lookupSA_with_streams. clear Hemit.
  destruct (decide (a = Account (sa_Client sa) /\ s = Name (sa_Config sa)))
    as [[-> ->]|Hne].
  - rewrite lookup_insert_eq. simpl. apply lookup_insert_eq.
  - destruct (decide (a = Account (sa_Client sa))) as [->|Ha].
    + rewrite lookup_insert_eq. simpl.
      rewrite lookup_insert_ne by (intros <-; apply Hne; split; reflexivity).
      rewrite lookupSA_bind.
      destruct (streams js !! Account (sa_Client sa)); [reflexivity|].
      simpl. apply lookup_empty.
    + rewrite lookup_insert_ne by congruence. now rewrite lookupSA_bind.
Qed.

(** C9, as the code has it.  An assignment for an (account, stream) that the
    map already holds changes nothing: the entry stays as it is.  When the
    map holds none and the server resolves the assignment's account, the
    assignment is inserted under (account, stream) and every other entry
    stays; when the account does not resolve, nothing is inserted. *)
Theorem processStreamAssignment_no_overwrite js sa :
  let account := Account (sa_Client sa) in
  let stream := Name (sa_Config sa) in
  (is_Some (lookupSA js account stream) -> processStreamAssignment js sa = js)
  /\ (lookupSA js account stream = None ->
      is_Some (LookupAccount account) ->
      lookupSA (processStreamAssignment js sa) account stream = Some sa
      /\ forall a s, (a, s) <> (account, stream) ->
           lookupSA (processStreamAssignment js sa) a s = lookupSA js a s)
  /\ (LookupAccount account = None -> processStreamAssignment js sa = js).
Proof.
  cbv zeta. split; [|split].
  - intros [osa Hosa]. unfold processStreamAssignment.
    destruct (LookupAccount (Account (sa_Client sa))) as [acc|] eqn:Hacc; [|reflexivity].
    apply LookupAccount_Name in Hacc. rewrite Hacc.
    rewrite <- lookupSA_bind, Hosa. reflexivity.
  - intros Hnone [acc Hacc]. split.
    + rewrite processStreamAssignment_lookup, Hacc, Hnone.
      rewrite decide_True by (split; reflexivity). reflexivity.
    + intros a s Hne. rewrite processStreamAssignment_lookup, Hacc, Hnone.
      rewrite decide_False; [reflexivity|].
      intros [-> ->]. now apply Hne.
  - intros Hacc. unfold processStreamAssignment. now rewrite Hacc.
Qed.

(** *** Applying a batch of entries *)




(** A snapshot entry whose blob does not decode is passed over without a
    log line, and the batch goes on. *)
Lemma applyMetaEntries_bad_snapshot js blob post :
  decodeMetaSnapshot blob = None ->
  applyMetaEntries js (mkEntry EntrySnapshot blob :: post)
  = applyMetaEntries js post.
Proof. intros Hd. simpl. unfold applyMetaSnapshot. now rewrite Hd. Qed.

End Apply.

(** *** Fixtures: a three-peer server with stand-ins for the collaborators *)

Definition allAccounts (n : string) : option AccountT := Some (mkAccount n).
Definition noAccounts (n : string) : option AccountT := None.

Definition groupOf (name : string) : raftGroup := mkRaftGroup name ["n1"] None.

Definition mkConsumer (stream name : string) : consumerAssignment :=
  mkCA (mkClientInfo "$G") name stream (groupOf ("C-" ++ name)%string) "".

Definition mkStream (name : string) (cas : list consumerAssignment)
    : streamAssignment :=
  mkSA (mkClientInfo "$G") (mkStreamConfig name 1) (groupOf ("S-" ++ name)%string)
       "" "" (list_to_map (map (fun ca => (ca_Name ca, ca)) cas)).

Definition mkWritable (name : string) (cas : list consumerAssignment)
    : writeableStreamAssignment :=
  mkWSA (mkClientInfo "$G") (mkStreamConfig name 1) (groupOf ("S-" ++ name)%string)
        "" cas.

(** A stand-in for [json.Unmarshal]: the payload is the stream's name, and
    the empty payload is not an assignment. *)
Definition nameOf (payload : list byte) : string :=
  String.string_of_list_ascii (map Ascii.ascii_of_byte payload).

Definition stubDecodeSA (payload : list byte) : option streamAssignment :=
  match payload with
  | [] => None
  | _ => Some (mkStream (nameOf payload) [])
  end.

Definition stubDecodeCA (payload : list byte) : option consumerAssignment :=
  match payload with
  | [] => None
  | _ => Some (mkConsumer "S1" (nameOf payload))
  end.

Definition stubDecodeSnapshot (wsas : list writeableStreamAssignment)
    (blob : list byte) : option (list writeableStreamAssignment) :=
  match blob with
  | [] => None
  | _ => Some wsas
  end.

Definition freshServer : jetStream := mkJS ∅ "n1" [].

Definition serverWith (sas : list streamAssignment) : jetStream :=
  mkJS {[ "$G" := list_to_map (map (fun sa => (Name (sa_Config sa), sa)) sas) ]}
       "n2" [].

Definition assignEntry (name : list byte) : Entry :=
  mkEntry EntryNormal (byte.of_Z (entryOp_tag assignStreamOp) :: name).

Definition entry_S1 : Entry := assignEntry [Byte.x53; Byte.x31].
Definition entry_S2 : Entry := assignEntry [Byte.x53; Byte.x32].
Definition entry_bad : Entry := assignEntry [].

Example apply_two_assignments :
  let js := fst (applyMetaEntries allAccounts stubDecodeSA stubDecodeCA
                   (stubDecodeSnapshot []) freshServer [entry_S1; entry_S2]) in
  lookupSA js "$G" "S1" = Some (mkStream "S1" [])
  /\ lookupSA js "$G" "S2" = Some (mkStream "S2" []).
Proof. vm_compute. split; reflexivity. Qed.

Lemma allAccounts_Name n acc : allAccounts n = Some acc -> acc_Name acc = n.
Proof. intros [= <-]. reflexivity. Qed.

Lemma processStreamAssignment_no_overwrite_witness :
  let held := serverWith [mkStream "S1" [mkConsumer "S1" "C1"]] in
  let sa := mkStream "S1" [] in
  processStreamAssignment allAccounts held sa = held
  /\ lookupSA (processStreamAssignment allAccounts freshServer sa) "$G" "S1" = Some sa
  /\ processStreamAssignment noAccounts freshServer sa = freshServer.
Proof.
  intros held sa.
  pose proof (processStreamAssignment_no_overwrite allAccounts allAccounts_Name) as Hall.
  split; [|split].
  - apply (proj1 (Hall held sa)). eexists. reflexivity.
  - apply (proj1 (proj2 (Hall freshServer sa))); [reflexivity|].
    eexists. reflexivity.
  - reflexivity.
Defined.

(** C9 as stated fails where the server does not know the account: the map
    holds no entry for ($G, S1), and the assignment is not inserted. *)
Lemma processStreamAssignment_unknown_account :
  let sa := mkStream "S1" [] in
  lookupSA freshServer "$G" "S1" = None
  /\ lookupSA (processStreamAssignment noAccounts freshServer sa) "$G" "S1" = None.
Proof. split; reflexivity. Qed.




(** *** The snapshot of scenario 5 *)

(** The peer holds S1 with consumer S1C1 and S2 with S2C1; the snapshot has
    S1 with S1C2 and S3 with S3C1. *)
Definition local5 : jetStream :=
  serverWith [mkStream "S1" [mkConsumer "S1" "S1C1"];
              mkStream "S2" [mkConsumer "S2" "S2C1"]].

Definition snap5 : list writeableStreamAssignment :=
  [mkWritable "S1" [mkConsumer "S1" "S1C2"];
   mkWritable "S3" [mkConsumer "S3" "S3C1"]].

Definition consumerOf (m : gmap string (gmap string streamAssignment))
    (account stream consumer : string) : option consumerAssignment :=
  match m !! account with
  | Some as_ =>
      match as_ !! stream with
      | Some sa => consumers sa !! consumer
      | None => None
      end
  | None => None
  end.

(** C1 on scenario 5.  S2 and S1C1 are removed and S3 with S3C1 is added,
    but S1C2, new under a stream the peer already holds, is not: the loop
    over the streams to check ranges over the old consumers only.  The map
    after the call differs from the decoded one. *)
Theorem applyMetaSnapshot_misses_new_consumer :
  let js := fst (applyMetaSnapshot allAccounts (stubDecodeSnapshot snap5)
                   local5 [Byte.x01]) in
  snapshotStreams snap5
  = {[ "$G" := {[ "S1" := mkStream "S1" [mkConsumer "S1" "S1C2"];
                  "S3" := mkStream "S3" [mkConsumer "S3" "S3C1"] ]} ]}
  /\ streams js
     = {[ "$G" := {[ "S1" := mkStream "S1" [];
                     "S3" := mkStream "S3" [mkConsumer "S3" "S3C1"] ]} ]}
  /\ consumerOf (snapshotStreams snap5) "$G" "S1" "S1C2"
     = Some (mkConsumer "S1" "S1C2")
  /\ consumerOf (streams js) "$G" "S1" "S1C2" = None
  /\ streams js <> snapshotStreams snap5.
Proof.
  repeat split; try (vm_compute; reflexivity).
  intros Heq.
  apply (f_equal (fun m => consumerOf m "$G" "S1" "S1C2")) in Heq.
  vm_compute in Heq. discriminate.
Qed.

(** The smallest case: the peer holds S1 without consumers, the snapshot
    has S1 with consumer C1, and C1 is not added. *)
Example applyMetaSnapshot_smallest_case :
  let snap := [mkWritable "S1" [mkConsumer "S1" "C1"]] in
  let js := fst (applyMetaSnapshot allAccounts (stubDecodeSnapshot snap)
                   (serverWith [mkStream "S1" []]) [Byte.x01]) in
  consumerOf (snapshotStreams snap) "$G" "S1" "C1" = Some (mkConsumer "S1" "C1")
  /\ consumerOf (streams js) "$G" "S1" "C1" = None.
Proof. split; vm_compute; reflexivity. Qed.

(** On a server that holds nothing, every stream of the snapshot is new and
    is added with all its consumers: the map does become the decoded
    one. *)
Example applyMetaSnapshot_on_fresh_server :
  streams (fst (applyMetaSnapshot allAccounts (stubDecodeSnapshot snap5)
                  freshServer [Byte.x01]))
  = snapshotStreams snap5.
Proof. vm_compute. reflexivity. Qed.

(** *** Leadership predicates *)

Lemma leads_spec rg id :
  leads rg id = true <->
  In id (Peers rg) /\ (len (Peers rg) = 1%Z \/ node_Leader rg = true).
Proof.
  unfold leads. rewrite existsb_exists. split.
  - intros (peer & Hin & Hb). apply andb_true_iff in Hb as [He Hl].
    apply String.eqb_eq in He. subst peer. split; [assumption|].
    apply orb_true_iff in Hl as [Hl|Hl]; [left; now apply Z.eqb_eq | now right].
  - intros (Hin & Hl). exists id. split; [assumption|].
    apply andb_true_iff. split; [apply String.eqb_refl|].
    apply orb_true_iff.
    destruct Hl as [Hl|Hl]; [left; now apply Z.eqb_eq | now right].
Qed.

(** The answer of [isConsumerLeader]: it does not depend on [consumer] (on
    a nil receiver every answer is [true]), and on a clustered server it is
    [true] exactly when some consumer of the stream has a group that lists
    this server as a peer and either has a single peer or has a node that
    reports leadership. *)
Lemma isConsumerLeader_answer account stream c1 c2 :
  (forall cc, cc_isConsumerLeader cc account stream c1
              = cc_isConsumerLeader cc account stream c2)
  /\ (forall js,
        isConsumerLeader js account stream c1 = true <->
        exists sa name ca,
          lookupSA js account stream = Some sa
          /\ consumers sa !! name = Some ca
          /\ In (ourID js) (Peers (ca_Group ca))
          /\ (len (Peers (ca_Group ca)) = 1%Z
              \/ node_Leader (ca_Group ca) = true)).
Proof.
  split; [intros [js|]; reflexivity|].
  intros js. unfold isConsumerLeader.
  destruct (lookupSA js account stream) as [sa|].
  - rewrite existsb_exists. split.
    + intros ([name ca] & Hin & Hl). exists sa, name, ca.
      apply list_elem_of_In, elem_of_map_to_list in Hin.
      apply leads_spec in Hl. tauto.
    + intros (sa' & name & ca & Heq & Hc & Hl). injection Heq as <-.
      exists (name, ca). split.
      * now apply list_elem_of_In, elem_of_map_to_list.
      * apply leads_spec. exact Hl.
  - split; [discriminate|]. intros (sa & name & ca & Heq & _). discriminate.
Qed.

(** *** The calls and their answers *)

Lemma peersLoop_answer rg id : forall peers,
  nilNode rg id = false ->
  (forall peer, In peer peers -> In peer (Peers rg)) ->
  peersLoop rg id peers
  = Some (existsb (fun peer =>
            String.eqb peer id && ((len (Peers rg) =? 1)%Z || node_Leader rg))
            peers).
Proof.
  intros peers Hnil. induction peers as [|peer peers IH]; intros Hsub;
    [reflexivity|].
  cbn [peersLoop existsb].
  assert (forall p, In p peers -> In p (Peers rg)) as Hsub'
    by (intros p Hp; apply Hsub; now right).
  destruct (String.eqb peer id) eqn:He; [|now rewrite IH].
  apply String.eqb_eq in He. subst peer.
  destruct (len (Peers rg) =? 1)%Z eqn:Hone; [reflexivity|].
  assert (isMember rg id = true) as Hmem.
  { unfold isMember. apply existsb_exists. exists id.
    split; [apply Hsub; now left | apply String.eqb_refl]. }
  unfold nilNode in Hnil. rewrite Hmem, Hone in Hnil. unfold node_Leader in *.
  destruct (node rg) as [n|]; [|discriminate].
  destruct (Leader n); [reflexivity|]. now rewrite IH.
Qed.

Lemma peersLoop_panics rg id : forall peers,
  existsb (String.eqb id) peers = true ->
  (len (Peers rg) =? 1)%Z = false -> node rg = None ->
  peersLoop rg id peers = None.
Proof.
  intros peers Hin Hone Hnode. induction peers as [|peer peers IH];
    [discriminate|].
  cbn [peersLoop existsb] in *. rewrite (String.eqb_sym peer id).
  destruct (String.eqb id peer); [now rewrite Hone, Hnode|]. now apply IH.
Qed.

(** The stream check panics exactly where [streamNodeReady] says the handle
    is missing, and answers as [isStreamLeader] everywhere else. *)
Lemma isStreamLeader_call_spec js account stream :
  (streamNodeReady js account stream = true ->
   isStreamLeader_call js account stream
   = Some (isStreamLeader js account stream))
  /\ (streamNodeReady js account stream = false ->
      isStreamLeader_call js account stream = None).
Proof.
  unfold streamNodeReady, isStreamLeader_call, isStreamLeader.
  destruct (lookupSA js account stream) as [sa|]; [|split; [reflexivity|discriminate]].
  split; intros Hready.
  - apply negb_true_iff in Hready.
    apply peersLoop_answer; [exact Hready | intros p Hp; exact Hp].
  - apply negb_false_iff in Hready. unfold nilNode in Hready.
    apply andb_true_iff in Hready as [Hready Hnode].
    apply andb_true_iff in Hready as [Hmem Hone].
    apply negb_true_iff in Hone.
    apply peersLoop_panics; [exact Hmem | exact Hone|].
    now destruct (node (sa_Group sa)).
Qed.

Lemma consumersLoop_answer id : forall cas,
  forallb (fun kv => negb (nilNode (ca_Group (snd kv)) id)) cas = true ->
  consumersLoop id cas
  = Some (existsb (fun kv => leads (ca_Group (snd kv)) id) cas).
Proof.
  induction cas as [|kv cas IH]; intros Hready; [reflexivity|].
  cbn [forallb] in Hready. apply andb_true_iff in Hready as [Hkv Hready].
  apply negb_true_iff in Hkv.
  cbn [consumersLoop existsb]. cbv zeta.
  rewrite (peersLoop_answer _ _ _ Hkv) by (intros p Hp; exact Hp). fold (leads (ca_Group kv.2) id).
  destruct (leads (ca_Group kv.2) id); [reflexivity|]. now apply IH.
Qed.

(** With the handles there, the consumer check returns, whatever the order
    of the consumers, and answers as [isConsumerLeader]. *)
Lemma isConsumerLeader_call_ready js account stream consumer :
  consumerNodesReady js account stream = true ->
  isConsumerLeader_call js account stream consumer
  = Some (isConsumerLeader js account stream consumer).
Proof.
  unfold consumerNodesReady, isConsumerLeader_call, isConsumerLeader.
  destruct (lookupSA js account stream) as [sa|]; [|reflexivity].
  apply consumersLoop_answer.
Qed.

(** A durable consumer created a second time.  The group has three peers,
    this server among them.  The first assignment has had its handle
    installed by [createRaftGroup]; the second comes from the decoder,
    which has no handle to give, and [processClusterCreateConsumer] finds
    the consumer running and returns before it installs one. *)
Definition trio (name : string) (n : option RaftNode) : raftGroup :=
  mkRaftGroup name ["n1"; "n2"; "n3"] n.

Definition durable (n : option RaftNode) : consumerAssignment :=
  mkCA (mkClientInfo "$G") "D" "S1" (trio "C-R3F-d" n) "".

Definition durableServer : jetStream :=
  mkJS {[ "$G" :=
            {[ "S1" := mkSA (mkClientInfo "$G") (mkStreamConfig "S1" 3)
                         (trio "S-R3F-s" (Some (mkRaftNode true))) "" ""
                         {[ "D" := durable (Some (mkRaftNode false)) ]} ]} ]}
       "n1" [].

(** C10.  After a durable consumer is assigned a second time the stored
    assignment has a group of several peers that lists this server and has
    no node handle.  No consumer of the stream leads, so the answer the
    claim gives is [false]; before the second assignment the call returns
    it, afterwards it ends in the nil-pointer panic of
    [rg.node.Leader()], for every [consumer] argument. *)
Theorem isConsumerLeader_nil_node :
  let again := processConsumerAssignment durableServer (durable None) in
  isConsumerLeader_call durableServer "$G" "S1" "D" = Some false
  /\ consumers <$> lookupSA again "$G" "S1" = Some {[ "D" := durable None ]}
  /\ nilNode (ca_Group (durable None)) (ourID again) = true
  /\ isConsumerLeader_call again "$G" "S1" "D" = None
  /\ isConsumerLeader_call again "$G" "S1" "E" = None.
Proof. repeat split; vm_compute; reflexivity. Qed.

End Meta.

(** * Placement: choosing the peers of a new raft group *)

Module Placement.

(** A meta peer as [cc.meta.Peers()] lists it. *)
Record Peer := mkPeer { ID : string }.

(** [nodes[i], nodes[j] = nodes[j], nodes[i]]. *)
Definition swap (i j : nat) (nodes : list string) : list string :=
  match nodes !! i, nodes !! j with
  | Some x, Some y => <[i := y]> (<[j := x]> nodes)
  | _, _ => nodes (* index out of range *)
  end.

(** [rand.Shuffle(n, swap)]: for [i] from [n - 1] down to 1, swap [i] with
    a drawn [j] in [[0, i]].  [pick i] is the generator's draw at step
    [i]. *)
Fixpoint Shuffle (pick : nat -> nat) (n : nat) (nodes : list string)
    : list string :=
  match n with
  | O => nodes
  | S i =>
      match i with
      | O => nodes
      | S _ => Shuffle pick i (swap i (pick i mod (i + 1)) nodes)
      end
  end.

Section Select.

(** [s.getRouteByHash([]byte(id)) != nil], the transport's answer at the
    time of the call, and the shuffle's draws. *)
Context (hasRoute : string -> bool) (pick : nat -> nat).

(** "Make sure they are active". *)
Definition active (ourID : string) (p : Peer) : bool :=
  String.eqb (ID p) ourID || hasRoute (ID p).

Definition selectPeerGroup (peers : list Peer) (ourID : string) (r : Z)
    : list string :=
  let nodes := map ID (filter (fun p => active ourID p = true) peers) in
  if len nodes <? r then []
  else slice_to r (Shuffle pick (length nodes) nodes).

End Select.

Example select_two_of_three :
  selectPeerGroup (fun id => String.eqb id "b") (fun i => 0%nat)
    [mkPeer "a"; mkPeer "b"; mkPeer "c"; mkPeer "d"] "d" 2
  = ["d"; "b"].
Proof. reflexivity. Qed.

Example select_too_few :
  selectPeerGroup (fun id => false) (fun i => 0%nat)
    [mkPeer "a"; mkPeer "b"; mkPeer "c"] "c" 2
  = [].
Proof. reflexivity. Qed.

(** *** The shuffle permutes *)

Lemma insert_cons_Permutation (l : list string) j x y :
  l !! j = Some y -> y :: <[j := x]> l ≡ₚ x :: l.
Proof.
  revert j. induction l as [|z l IH]; intros [|j] Hj; simpl in *; try discriminate.
  - injection Hj as ->. apply perm_swap.
  - etransitivity; [apply perm_swap|].
    etransitivity; [apply perm_skip, (IH j Hj)|]. apply perm_swap.
Qed.

Lemma swap_Permutation i j (l : list string) : swap i j l ≡ₚ l.
Proof.
  unfold swap.
  destruct (l !! i) as [x|] eqn:Hi; [|reflexivity].
  destruct (l !! j) as [y|] eqn:Hj; [|reflexivity].
  revert i j Hi Hj. induction l as [|z l IH]; intros [|i] [|j] Hi Hj;
    simpl in *; try discriminate.
  - injection Hi as ->. injection Hj as ->. reflexivity.
  - injection Hi as ->. now apply insert_cons_Permutation.
  - injection Hj as ->. now apply insert_cons_Permutation.
  - apply perm_skip. now apply IH.
Qed.

Lemma Shuffle_Permutation pick n (l : list string) : Shuffle pick n l ≡ₚ l.
Proof.
  revert l. induction n as [|i IH]; intros l; simpl; [reflexivity|].
  destruct i as [|i]; [reflexivity|].
  rewrite IH. apply swap_Permutation.
Qed.

(** C8.  For [r >= 1] and a peer list that names each peer once,
    [selectPeerGroup] answers with exactly [r] distinct ids, each the id of
    a meta peer that is this server or has a route, when at least [r] peers
    are reachable; and with the empty result when fewer are. *)
Theorem selectPeerGroup_spec hasRoute pick peers ourID r :
  1 <= r ->
  NoDup (map ID peers) ->
  let reachable := filter (fun p => active hasRoute ourID p = true) peers in
  let group := selectPeerGroup hasRoute pick peers ourID r in
  (r <= len reachable ->
     len group = r
     /\ NoDup group
     /\ forall id, In id group ->
          In id (map ID peers) /\ (id = ourID \/ hasRoute id = true))
  /\ (len reachable < r -> group = []).
Proof.
  intros Hr Hnd reachable group. subst group. unfold selectPeerGroup.
  fold reachable.
  assert (len (map ID reachable) = len reachable) as Hlen
    by (unfold len; now rewrite length_map).
  rewrite Hlen.
  assert (NoDup (map ID reachable)) as Hnd'.
  { clear -Hnd. subst reachable. induction peers as [|p peers IH]; simpl.
    - constructor.
    - apply NoDup_cons in Hnd as [Hp Hnd].
      rewrite filter_cons. destruct (decide _); [|now apply IH].
      simpl. apply NoDup_cons. split; [|now apply IH].
      intros Hin. apply Hp.
      apply list_elem_of_fmap in Hin as (q & Hq & Hin).
      apply list_elem_of_fmap. exists q. split; [assumption|].
      apply list_elem_of_filter in Hin. tauto. }
  pose proof (Shuffle_Permutation pick (length (map ID reachable)) (map ID reachable))
    as Hperm.
  split.
  - intros Hge. replace (len reachable <? r) with false
      by (symmetry; apply Z.ltb_ge; lia).
    unfold slice_to. split; [|split].
    + unfold len in *. rewrite length_take, Hperm. lia.
    + eapply sublist_NoDup; [|apply sublist_take]. now rewrite Hperm.
    + intros id Hin. apply list_elem_of_In in Hin.
      apply list_elem_of_lookup in Hin as (i & Hin).
      apply lookup_take_Some in Hin as [Hin _].
      apply list_elem_of_lookup_2 in Hin. rewrite Hperm in Hin.
      apply list_elem_of_fmap in Hin as (p & -> & Hp).
      apply list_elem_of_filter in Hp as [Hact Hp]. split.
      * apply in_map. now apply list_elem_of_In.
      * unfold active in Hact. apply orb_true_iff in Hact as [He|Hroute].
        -- left. now apply String.eqb_eq.
        -- now right.
  - intros Hlt. replace (len reachable <? r) with true
      by (symmetry; apply Z.ltb_lt; lia).
    reflexivity.
Qed.

Lemma selectPeerGroup_spec_witness :
  let peers := [mkPeer "a"; mkPeer "b"; mkPeer "c"; mkPeer "d"] in
  let hasRoute := fun id => String.eqb id "b" in
  let group := selectPeerGroup hasRoute (fun i => 0%nat) peers "d" 2 in
  len group = 2
  /\ NoDup group
  /\ forall id, In id group ->
       In id (map ID peers) /\ (id = "d" \/ hasRoute id = true).
Proof.
  intros peers hasRoute group.
  assert (NoDup (map ID peers)) as Hnd by compute_done.
  apply (proj1 (selectPeerGroup_spec hasRoute (fun i => 0%nat) peers "d" 2
                  ltac:(lia) Hnd)).
  vm_compute. discriminate.
Defined.

End Placement.

(** * Publish: the clustered publish path of a stream leader *)

Module Publish.

(** The fields of [Stream] that [processClusteredInboundMsg] reads and
    writes.  [lseq] and [nlseq] are [uint64]. *)
Record Stream := mkStream {
  config_Name : string;
  config_NoAck : bool;
  isLeader : bool;
  lseq : Z;
  nlseq : Z
}.

Record ApiError := mkApiError { Code : Z; Description : string }.

(** [JSPubAckResponse] before [json.Marshal]. *)
Record JSPubAckResponse := mkPubAck {
  PubAck_Stream : string;
  Error : option ApiError
}.

(** What reaches the send queue: the reply subject and the response. *)
Record jsPubMsg := mkPubMsg { pm_subj : gostring; pm_msg : JSPubAckResponse }.

(** The state after the call and what the call did: the entry it proposed,
    the response it prepared, what it put on the send queue, and the error
    it returns. *)
Record outcome := mkOutcome {
  mset' : Stream;
  proposed : list byte;
  response : option JSPubAckResponse;
  queued : list jsPubMsg;
  err : option string
}.

Section Inbound.

(** [mset.node.Propose], answering [nil] or an error with its text, and
    [time.Now().UnixNano()]. *)
Context (Propose : list byte -> option string) (now : Z).

Definition processClusteredInboundMsg (mset : Stream)
    (subject reply : gostring) (hdr msg : list byte) : outcome :=
  (* For possible error response. *)
  let canRespond := negb (config_NoAck mset) && (0 <? len reply) && isLeader mset in
  (* Check if we need to set initial value here *)
  let nlseq0 := if nlseq mset <? lseq mset then lseq mset else nlseq mset in
  let em := Wire.encodeStreamMsg subject reply hdr msg nlseq0 now in
  match Propose em with
  | Some e =>
      let response :=
        if canRespond
        then Some (mkPubAck (config_Name mset) (Some (mkApiError 503 e)))
        else None in
      let mset := mkStream (config_Name mset) (config_NoAck mset) (isLeader mset)
                           (lseq mset) nlseq0 in
      (* If we errored out respond here. *)
      let queued := match response with
                    | Some r => [mkPubMsg reply r]
                    | None => []
                    end in
      mkOutcome mset em response queued (Some e)
  | None =>
      let mset := mkStream (config_Name mset) (config_NoAck mset) (isLeader mset)
                           (lseq mset) (uint64 (nlseq0 + 1)) in
      mkOutcome mset em None [] None
  end.

(** C3, as the code has it.  With [snapped] the larger of [lseq] and
    [nlseq], below the last [uint64]: the proposed entry is the STREAM_MSG
    frame with sequence [snapped]; [nlseq] ends as [snapped + 1] exactly
    when the propose succeeded and as [snapped] when it failed; a failure
    prepares the 503 response when the stream acks, the message has a reply
    subject and this server leads the stream, and no response otherwise;
    and [lseq <= nlseq] on return. *)
Theorem processClusteredInboundMsg_nlseq mset subject reply hdr msg :
  0 <= lseq mset -> 0 <= nlseq mset ->
  Z.max (lseq mset) (nlseq mset) < 2 ^ 64 - 1 ->
  let snapped := Z.max (lseq mset) (nlseq mset) in
  let canRespond :=
    negb (config_NoAck mset) && (0 <? len reply) && isLeader mset in
  let r := processClusteredInboundMsg mset subject reply hdr msg in
  proposed r = Wire.encodeStreamMsg subject reply hdr msg snapped now
  /\ err r = Propose (proposed r)
  /\ lseq (mset' r) = lseq mset
  /\ (nlseq (mset' r) = snapped + 1 <-> err r = None)
  /\ (nlseq (mset' r) = snapped <-> err r <> None)
  /\ (forall e, err r = Some e ->
        response r = if canRespond
                     then Some (mkPubAck (config_Name mset)
                                  (Some (mkApiError 503 e)))
                     else None)
  /\ (err r = None -> response r = None)
  /\ lseq (mset' r) <= nlseq (mset' r).
Proof.
  intros Hl Hn Hmax snapped canRespond r.
  assert ((if nlseq mset <? lseq mset then lseq mset else nlseq mset) = snapped)
    as Hsnap by (subst snapped; destruct (Z.ltb_spec (nlseq mset) (lseq mset)); lia).
  assert (uint64 (snapped + 1) = snapped + 1) as Hinc
    by (unfold uint64; apply Z.mod_small; lia).
  subst r. unfold processClusteredInboundMsg. rewrite Hsnap.
  destruct (Propose _) as [e|] eqn:HP; simpl; rewrite ?Hinc.
  - repeat split; try congruence; try lia.
    intros e' [= <-]. reflexivity.
  - repeat split; try congruence; try lia.
Qed.

End Inbound.

Definition proposeFails (_ : list byte) : option string := Some "raft: proposal failed"%string.
Definition proposeOk (_ : list byte) : option string := None.

Definition stream7 : Stream := mkStream "TEST" false true 7 3.

Lemma processClusteredInboundMsg_nlseq_witness :
  let r := processClusteredInboundMsg proposeOk 0 stream7 [Byte.x66] [Byte.x72] [] [] in
  let r' := processClusteredInboundMsg proposeFails 0 stream7 [Byte.x66] [Byte.x72] [] [] in
  (nlseq (mset' r) = 7 + 1 <-> err r = None)
  /\ nlseq (mset' r) = 8
  /\ nlseq (mset' r') = 7
  /\ lseq (mset' r') <= nlseq (mset' r').
Proof.
  intros r r'.
  pose proof (processClusteredInboundMsg_nlseq proposeOk 0 stream7
                [Byte.x66] [Byte.x72] [] [] ltac:(simpl; lia) ltac:(simpl; lia)
                ltac:(simpl; lia)) as Hok.
  pose proof (processClusteredInboundMsg_nlseq proposeFails 0 stream7
                [Byte.x66] [Byte.x72] [] [] ltac:(simpl; lia) ltac:(simpl; lia)
                ltac:(simpl; lia)) as Hfail.
  cbv zeta in Hok, Hfail.
  destruct Hok as (_ & _ & _ & Hiff & _).
  destruct Hfail as (_ & _ & _ & _ & _ & _ & _ & Hle).
  split; [exact Hiff|]. split; [reflexivity|]. split; [reflexivity|exact Hle].
Defined.

(** C3 as stated fails where nobody is to be answered: the propose fails on
    a message without a reply subject, [nlseq] stays at the snapped value,
    and no 503 response is prepared. *)
Lemma processClusteredInboundMsg_no_response :
  let r := processClusteredInboundMsg proposeFails 0 stream7 [Byte.x66] [] [] [] in
  err r = Some "raft: proposal failed"%string
  /\ nlseq (mset' r) = 7
  /\ response r = None
  /\ queued r = [].
Proof. repeat split. Qed.

End Publish.

(** * Catchup: snapshots on a follower, and the sender on the leader *)

Module Catchup.

(** [StreamState], as far as the code here reads it; the sequences are
    [uint64]. *)
Record StreamState := mkState {
  FirstSeq : Z;
  LastSeq : Z;
  Deleted : list Z
}.

Record streamSyncRequest := mkSyncRequest {
  rq_FirstSeq : Z;
  rq_LastSeq : Z
}.

(** What [LoadMsg] returns beside its error. *)
Record StoredMsg := mkStored {
  sm_subj : gostring;
  sm_hdr : list byte;
  sm_msg : list byte;
  sm_ts : Z
}.

(** Modelled from the spec: the log store collaborator ([mset.store], the
    [StreamStore] interface), whose implementations are not part of this
    file.  The operations are the four the code calls; [LoadMsg] returns
    its values together with whether it found the message.  The results of
    [Compact] and [RemoveMsg] are dropped by the callers. *)
Class StreamStore (S : Type) := {
  State : S -> StreamState;
  Compact : Z -> S -> S;
  RemoveMsg : Z -> S -> S;
  LoadMsg : S -> Z -> StoredMsg * bool
}.

(** Modelled from the spec: the store's contract.  Compacting to a
    sequence above the first one makes it the first one; a removed message
    is gone, and removing never brings a message back nor lowers the first
    sequence. *)
Class StreamStoreLaws (S : Type) `{StreamStore S} : Prop := {
  Compact_FirstSeq : forall s seq,
    0 <= seq < 2 ^ 64 -> FirstSeq (State s) < seq ->
    FirstSeq (State (Compact seq s)) = seq;
  RemoveMsg_gone : forall s seq, snd (LoadMsg (RemoveMsg seq s) seq) = false;
  RemoveMsg_stays_gone : forall s seq q,
    snd (LoadMsg s q) = false -> snd (LoadMsg (RemoveMsg seq s) q) = false;
  RemoveMsg_FirstSeq : forall s seq,
    FirstSeq (State s) <= FirstSeq (State (RemoveMsg seq s));
  State_in_range : forall s,
    0 <= FirstSeq (State s) < 2 ^ 64 /\ 0 <= LastSeq (State s) < 2 ^ 64
}.

(** [uint64] fields of a state. *)
Definition in_range (st : StreamState) : Prop :=
  0 <= FirstSeq st < 2 ^ 64 /\ 0 <= LastSeq st < 2 ^ 64.

(** Given a stream state that represents a snapshot, calculate the sync
    request based on our current state. *)
Definition calculateSyncRequest (state snap : StreamState)
    : option streamSyncRequest :=
  (* Quick check if we are already caught up. *)
  if LastSeq snap <=? LastSeq state then None
  else Some (mkSyncRequest (uint64 (LastSeq state + 1)) (LastSeq snap)).

Section Follower.

Context {S : Type} `{StreamStore S}.

(** "Adjust if FirstSeq has moved": the first half of
    [processSnapshotDeletes]. *)
Definition adjustFirstSeq (store : S) (snap : StreamState) : S :=
  if FirstSeq (State store) <? FirstSeq snap
  then Compact (FirstSeq snap) store
  else store.

(** [processSnapshotDeletes].  [state] is read once, after the
    compaction, and not again while the deletes are ranged over. *)
Definition processSnapshotDeletes (store : S) (snap : StreamState) : S :=
  let store := adjustFirstSeq store snap in
  let state := State store in
  foldl (fun store dseq =>
           if dseq <=? LastSeq state then RemoveMsg dseq store else store)
        store (Deleted snap).

(** [processSnapshot] on a decoded snapshot: the store after the deletes and
    the sync request sent to the stream's sync subject, if one is. *)
Definition processSnapshot (store : S) (snap : StreamState)
    : S * option streamSyncRequest :=
  let store := processSnapshotDeletes store snap in
  let state := State store in
  (store, calculateSyncRequest state snap).

End Follower.

(** A store for the examples: the first and last sequence and the messages
    held, by sequence. *)
Record listStore := mkListStore {
  ls_first : Z;
  ls_last : Z;
  ls_msgs : list (Z * StoredMsg)
}.

Definition noMsg : StoredMsg := mkStored [] [] [] 0.

#[export] Instance listStore_store : StreamStore listStore := {|
  State s := mkState (uint64 (ls_first s)) (uint64 (ls_last s)) [];
  Compact seq s :=
    mkListStore seq (ls_last s) (filter (fun m => seq <= fst m) (ls_msgs s));
  RemoveMsg seq s :=
    mkListStore (ls_first s) (ls_last s) (filter (fun m => fst m <> seq) (ls_msgs s));
  LoadMsg s seq :=
    match list_find (fun m => fst m = seq) (ls_msgs s) with
    | Some (_, (_, m)) => (m, true)
    | None => (noMsg, false)
    end
|}.

Definition textMsg (b : byte) : StoredMsg := mkStored [Byte.x66] [] [b] 0.

Definition store4 : listStore :=
  mkListStore 1 4 [(1, textMsg Byte.x31); (2, textMsg Byte.x32);
                   (3, textMsg Byte.x33); (4, textMsg Byte.x34)].

Example snapshot_on_store4 :
  processSnapshot store4 (mkState 2 6 [3])
  = (mkListStore 2 4 [(2, textMsg Byte.x32); (4, textMsg Byte.x34)],
     Some (mkSyncRequest 5 6)).
Proof. vm_compute. reflexivity. Qed.

(** *** The catch-up sender, [runCatchup]

    The sender is a goroutine that selects over the quit channels, the
    stall ticker and [nextBatchC], while the ack subscription runs beside
    it.  The model is the transition system of that goroutine and the ack
    handler: a state, and one step for each thing that can happen next.
    Which of the enabled steps happens is up to the scheduler, the network
    and the clock, so a run is a list of events. *)

(** 48MB for now. *)
Definition maxOut : Z := 48 * 1024 * 1024.

(** A message handed to [sendInternalMsgLocked]: the byte count placed in
    the reply subject for flow control, and the payload. *)
Record outMsg := mkOutMsg { replySize : Z; payload : list byte }.

Inductive ending := Done | Stalled | Quit.

(** Where the goroutine is: at the [select], inside the loop of
    [sendNextBatch], or returned. *)
Inductive position := AtSelect | InBatch | Returned (why : ending).

(** [seq] and [last] are [uint64].  [out] is the [int64] byte count in
    flight; [atomic.AddInt64] wraps around, and so does every update of it
    here.  [nextBatchC] counts the signals waiting: the one the channel
    buffers and the ack handlers blocked on it. *)
Record sender := mkSender {
  seq : Z;
  last : Z;
  out : Z;
  nextBatchC : nat;
  sent : list outMsg;
  at_ : position
}.

Inductive event :=
| Ack (sz : Z)   (* an ack arrives; [sz] is [ackReplySize(subject)] *)
| Tick           (* [<-timeout.C] *)
| QuitSignal     (* [<-s.quitCh] or [<-qch] *)
| NextBatch      (* [<-nextBatchC] *)
| Iterate.       (* the loop test of [sendNextBatch], and its body *)

Section Sender.

Context {S : Type} `{StreamStore S} (store : S).

(** The loop body: load, encode with [seq - 1], account, send. *)
Definition encodeAt (sq : Z) : list byte :=
  let m := fst (LoadMsg store sq) in
  Wire.encodeStreamMsg (sm_subj m) [] (sm_hdr m) (sm_msg m) (uint64 (sq - 1)) (sm_ts m).

Definition sendOne (st : sender) : sender :=
  let em := encodeAt (seq st) in
  mkSender (uint64 (seq st + 1)) (last st) (int64 (out st + len em))
           (nextBatchC st) (sent st ++ [mkOutMsg (len em) em]) InBatch.

(** The state [runCatchup] starts from: [nextBatchC] holds one signal;
    without a quit channel on the stream it returns at once. *)
Definition start (qch : bool) (sreq : streamSyncRequest) : sender :=
  mkSender (rq_FirstSeq sreq) (rq_LastSeq sreq) 0 1 []
           (if qch then AtSelect else Returned Quit).

Definition step (st : sender) (e : event) : option sender :=
  match e, at_ st with
  | Ack sz, AtSelect | Ack sz, InBatch =>
      Some (mkSender (seq st) (last st) (int64 (out st - sz))
                     (Datatypes.S (nextBatchC st)) (sent st) (at_ st))
  | Tick, AtSelect =>
      Some (mkSender (seq st) (last st) (out st) (nextBatchC st) (sent st)
                     (Returned Stalled))
  | QuitSignal, AtSelect =>
      Some (mkSender (seq st) (last st) (out st) (nextBatchC st) (sent st)
                     (Returned Quit))
  | NextBatch, AtSelect =>
      match nextBatchC st with
      | O => None
      | Datatypes.S n =>
          Some (mkSender (seq st) (last st) (out st) n (sent st)
                         (if last st <=? seq st then Returned Done else InBatch))
      end
  | Iterate, InBatch =>
      if (seq st <? last st) && (out st <=? maxOut)
      then Some (sendOne st)
      else Some (mkSender (seq st) (last st) (out st) (nextBatchC st) (sent st)
                          AtSelect)
  | _, _ => None
  end.

Fixpoint run (st : sender) (evs : list event) : option sender :=
  match evs with
  | [] => Some st
  | e :: evs =>
      match step st e with
      | Some st' => run st' evs
      | None => None
      end
  end.

(** The sequences [a, a + 1, ...], [n] of them. *)
Fixpoint seqFrom (a : Z) (n : nat) : list Z :=
  match n with
  | O => []
  | Datatypes.S n => a :: seqFrom (a + 1) n
  end.

(** The sequences of the half-open interval [[a, b)]. *)
Definition interval (a b : Z) : list Z := seqFrom a (Z.to_nat (b - a)).

Definition frameFor (sq : Z) : outMsg :=
  mkOutMsg (len (encodeAt sq)) (encodeAt sq).

(** The size of the message sent last, if any. *)
Definition lastSize (msgs : list outMsg) : Z :=
  match List.last (map Some msgs) None with
  | Some m => replySize m
  | None => 0
  end.

Definition nonnegAck (e : event) : Prop :=
  match e with
  | Ack sz => 0 <= sz
  | _ => True
  end.

(** The bytes the acks of a run took off the counter. *)
Definition ackedBytes (evs : list event) : Z :=
  foldr (fun e acc => match e with Ack sz => sz + acc | _ => acc end) 0 evs.

(** No frame of the store is so long that adding it to a counter at
    [maxOut] would pass the last [int64]. *)
Definition framesFit : Prop := forall sq, len (encodeAt sq) < 2 ^ 63 - maxOut.

End Sender.

Example catchup_two_messages :
  (run store4 (start true (mkSyncRequest 2 4))
     [NextBatch; Iterate; Iterate; Iterate; Ack 29; NextBatch])
  = Some (mkSender 4 4 (29 + 29 - 29) 0
            [frameFor store4 2; frameFor store4 3] (Returned Done)).
Proof. vm_compute. reflexivity. Qed.

(** The counter wraps as an [int64] does: acks for more bytes than the
    type holds below zero bring it to the far end. *)
Example acks_wrap_the_counter :
  out <$> run store4 (start true (mkSyncRequest 2 4)) [Ack (2 ^ 63 - 1); Ack 2]
  = Some (2 ^ 63 - 1).
Proof. vm_compute. reflexivity. Qed.

(** *** The follower's side *)

Section FollowerFacts.

Context {S : Type} `{StreamStoreLaws S}.

Lemma deletes_applied (deleted : list Z) (limit : Z) (store : S) :
  let store' :=
    foldl (fun store dseq =>
             if dseq <=? limit then RemoveMsg dseq store else store)
          store deleted in
  (forall q, snd (LoadMsg store q) = false -> snd (LoadMsg store' q) = false)
  /\ (forall dseq, In dseq deleted -> dseq <= limit ->
        snd (LoadMsg store' dseq) = false)
  /\ FirstSeq (State store) <= FirstSeq (State store').
Proof.
  revert store. induction deleted as [|d deleted IH]; intros store; simpl.
  - repeat split; [tauto | contradiction | lia].
  - set (store1 := if d <=? limit then RemoveMsg d store else store).
    destruct (IH store1) as (Hkeep & Hdel & Hfirst). repeat split.
    + intros q Hq. apply Hkeep. subst store1.
      destruct (d <=? limit); [now apply RemoveMsg_stays_gone | assumption].
    + intros dseq [<-|Hin] Hle; [|now apply Hdel].
      apply Hkeep. subst store1.
      replace (d <=? limit) with true by (symmetry; apply Z.leb_le; lia).
      apply RemoveMsg_gone.
    + etransitivity; [|exact Hfirst]. subst store1.
      destruct (d <=? limit); [apply RemoveMsg_FirstSeq | lia].
Qed.

(** C7.  On a snapshot the follower compacts its store to the snapshot's
    first sequence when that is the greater one, so that the store's first
    sequence rises to it; removes every sequence the snapshot lists as
    deleted that is no greater than the local last sequence; and sends a
    sync request exactly when the local last sequence is below the
    snapshot's, for the sequences from the local last plus one to the
    snapshot's last. *)
Theorem processSnapshot_spec (store : S) (snap : StreamState) :
  in_range snap ->
  let aligned := adjustFirstSeq store snap in
  let store' := fst (processSnapshot store snap) in
  let sreq := snd (processSnapshot store snap) in
  (FirstSeq (State store) < FirstSeq snap ->
     aligned = Compact (FirstSeq snap) store
     /\ FirstSeq (State aligned) = FirstSeq snap
     /\ FirstSeq snap <= FirstSeq (State store'))
  /\ (FirstSeq snap <= FirstSeq (State store) -> aligned = store)
  /\ (forall dseq, In dseq (Deleted snap) -> dseq <= LastSeq (State aligned) ->
        snd (LoadMsg store' dseq) = false)
  /\ (is_Some sreq <-> LastSeq (State store') < LastSeq snap)
  /\ (forall r, sreq = Some r ->
        rq_FirstSeq r = LastSeq (State store') + 1
        /\ rq_LastSeq r = LastSeq snap).
Proof.
  intros [Hfirst Hlast] aligned store' sreq.
  subst store' sreq. unfold processSnapshot, processSnapshotDeletes. simpl.
  fold aligned.
  destruct (deletes_applied (Deleted snap) (LastSeq (State aligned)) aligned)
    as (_ & Hdel & Hmono).
  set (store' := foldl _ aligned (Deleted snap)) in *.
  pose proof (State_in_range store') as [_ Hlast'].
  split; [|split; [|split; [|split]]].
  - intros Hlt.
    assert (aligned = Compact (FirstSeq snap) store) as Ha.
    { subst aligned. unfold adjustFirstSeq.
      now replace (FirstSeq (State store) <? FirstSeq snap) with true
        by (symmetry; apply Z.ltb_lt; lia). }
    split; [exact Ha|].
    assert (FirstSeq (State aligned) = FirstSeq snap) as Hf
      by (rewrite Ha; now apply Compact_FirstSeq).
    split; [exact Hf | lia].
  - intros Hge. subst aligned. unfold adjustFirstSeq.
    now replace (FirstSeq (State store) <? FirstSeq snap) with false
      by (symmetry; apply Z.ltb_ge; lia).
  - exact Hdel.
  - unfold calculateSyncRequest.
    destruct (Z.leb_spec (LastSeq snap) (LastSeq (State store'))).
    + split; [intros [r Hr]; discriminate | lia].
    + split; [lia | eauto].
  - intros r. unfold calculateSyncRequest.
    destruct (Z.leb_spec (LastSeq snap) (LastSeq (State store'))); [discriminate|].
    intros [= <-]. simpl. split; [|reflexivity].
    unfold uint64. apply Z.mod_small. lia.
Qed.

End FollowerFacts.

(** *** The sender's side *)

Section SenderFacts.

Context {S : Type} `{StreamStore S} (store : S).

Lemma seqFrom_snoc a n : seqFrom a (Datatypes.S n) = seqFrom a n ++ [a + Z.of_nat n].
Proof.
  revert a. induction n as [|n IH]; intros a.
  - simpl. f_equal. lia.
  - change (seqFrom a (Datatypes.S (Datatypes.S n)))
      with (a :: seqFrom (a + 1) (Datatypes.S n)).
    rewrite IH. simpl. do 3 f_equal. lia.
Qed.

Lemma interval_snoc a b : a <= b -> interval a (b + 1) = interval a b ++ [b].
Proof.
  intros Hab. unfold interval.
  replace (Z.to_nat (b + 1 - a)) with (Datatypes.S (Z.to_nat (b - a))) by lia.
  rewrite seqFrom_snoc. do 2 f_equal. lia.
Qed.

Lemma In_seqFrom a n s : In s (seqFrom a n) <-> a <= s < a + Z.of_nat n.
Proof.
  revert a. induction n as [|n IH]; intros a; simpl.
  - lia.
  - rewrite IH. lia.
Qed.

Lemma In_interval a b s : In s (interval a b) <-> a <= s < b.
Proof. unfold interval. rewrite In_seqFrom. lia. Qed.

Lemma seqFrom_ascending a n : StronglySorted Z.lt (seqFrom a n).
Proof.
  revert a. induction n as [|n IH]; intros a; simpl; constructor.
  - apply IH.
  - apply List.Forall_forall. intros s Hs. apply In_seqFrom in Hs. lia.
Qed.

Lemma lastSize_snoc msgs m : lastSize (msgs ++ [m]) = replySize m.
Proof.
  unfold lastSize. rewrite List.map_app.
  change (map Some [m]) with [Some m]. now rewrite List.last_last.
Qed.

(** [int64] on a number that fits, and on a sum one of whose terms has
    been wrapped before. *)
Lemma int64_small n : - 2 ^ 63 <= n < 2 ^ 63 -> int64 n = n.
Proof.
  intros Hn. unfold int64. cbv zeta.
  destruct (Z.neg_nonneg_cases n) as [Hneg|Hpos].
  - assert (n mod 2 ^ 64 = n + 2 ^ 64) as ->.
    { rewrite <- (Z.mod_add n 1) by lia. apply Z.mod_small. lia. }
    destruct (Z.ltb_spec (n + 2 ^ 64) (2 ^ 63)); lia.
  - rewrite Z.mod_small by lia.
    destruct (Z.ltb_spec n (2 ^ 63)); lia.
Qed.

Lemma int64_in_range n : - 2 ^ 63 <= int64 n < 2 ^ 63.
Proof.
  unfold int64. cbv zeta. pose proof (Z.mod_pos_bound n (2 ^ 64) ltac:(lia)).
  destruct (Z.ltb_spec (n mod 2 ^ 64) (2 ^ 63)); lia.
Qed.

(** What holds of the sender all along a run for the request
    [first .. lst], whatever the acks carry. *)
Record inv (first lst : Z) (st : sender) : Prop := mkInv {
  inv_last : last st = lst;
  inv_seq : first <= seq st <= Z.max first lst;
  inv_sent : sent st = map (frameFor store) (interval first (seq st));
  inv_done : at_ st = Returned Done -> lst <= seq st
}.

Lemma inv_start qch sreq :
  inv (rq_FirstSeq sreq) (rq_LastSeq sreq) (start qch sreq).
Proof.
  split; simpl.
  - reflexivity.
  - lia.
  - unfold interval. now rewrite Z.sub_diag.
  - destruct qch; discriminate.
Qed.

Lemma inv_step first lst st e st' :
  0 <= first -> lst < 2 ^ 64 ->
  inv first lst st -> step store st e = Some st' -> inv first lst st'.
Proof.
  intros Hfirst Hlst [Hl Hs Hsent Hdone] Hstep.
  unfold step in Hstep.
  destruct e as [sz| | | |], (at_ st) eqn:Hat; try discriminate.
  - injection Hstep as <-. split; simpl; try assumption.
  - injection Hstep as <-. split; simpl; try assumption.
  - injection Hstep as <-. split; simpl; try assumption. discriminate.
  - injection Hstep as <-. split; simpl; try assumption. discriminate.
  - destruct (nextBatchC st) as [|n]; [discriminate|].
    injection Hstep as <-. split; simpl; try assumption.
    destruct (Z.leb_spec (last st) (seq st)); [lia | discriminate].
  - destruct (Z.ltb_spec (seq st) (last st)) as [Hlt|Hge]; simpl in Hstep.
    + destruct (Z.leb_spec (out st) maxOut) as [Hle|Hgt]; simpl in Hstep.
      * injection Hstep as <-. unfold sendOne.
        assert (uint64 (seq st + 1) = seq st + 1) as ->
          by (unfold uint64; apply Z.mod_small; lia).
        split; simpl.
        -- assumption.
        -- lia.
        -- rewrite interval_snoc, map_app, Hsent by lia. reflexivity.
        -- discriminate.
      * injection Hstep as <-. split; simpl; try assumption. discriminate.
    + injection Hstep as <-. split; simpl; try assumption. discriminate.
Qed.

Lemma inv_run first lst evs : forall st st',
  0 <= first -> lst < 2 ^ 64 ->
  inv first lst st -> run store st evs = Some st' -> inv first lst st'.
Proof.
  induction evs as [|e evs IH]; intros st st' Hfirst Hlst Hinv Hrun;
    simpl in Hrun.
  - now injection Hrun as <-.
  - destruct (step store st e) as [st1|] eqn:Hstep; [|discriminate].
    apply (IH st1 st' Hfirst Hlst); [|exact Hrun].
    exact (inv_step _ _ _ _ _ Hfirst Hlst Hinv Hstep).
Qed.

(** *** The counter

    [out] stays an exact count, and within its bound, as long as it does
    not wrap: the acks so far took [acked] bytes off it, no more than an
    [int64] can go below zero, and no frame is long enough to carry it
    past the last [int64]. *)
Record counted (acked : Z) (st : sender) : Prop := mkCounted {
  out_upper : out st <= maxOut + lastSize (sent st);
  out_lower : - acked <= out st;
  last_fits : 0 <= lastSize (sent st) < 2 ^ 63 - maxOut
}.

Lemma ackedBytes_cons e evs : ackedBytes (e :: evs) = ackedBytes [e] + ackedBytes evs.
Proof. destruct e; simpl; lia. Qed.

Lemma ackedBytes_nonneg evs : Forall nonnegAck evs -> 0 <= ackedBytes evs.
Proof.
  induction 1 as [|e evs He _ IH]; [simpl; lia|].
  rewrite ackedBytes_cons. destruct e; simpl in *; lia.
Qed.

Lemma counted_start qch sreq : counted 0 (start qch sreq).
Proof. split; unfold lastSize, maxOut; simpl; lia. Qed.

Lemma counted_step acked st e st' :
  framesFit store -> nonnegAck e ->
  0 <= acked -> acked + ackedBytes [e] <= 2 ^ 63 ->
  counted acked st -> step store st e = Some st' ->
  counted (acked + ackedBytes [e]) st'.
Proof.
  intros Hfit Hack Hacked Hroom [Hup Hlow Hlast] Hstep.
  unfold step in Hstep.
  destruct e as [sz| | | |], (at_ st) eqn:Hat; try discriminate;
    simpl in Hack, Hroom.
  - injection Hstep as <-. split; simpl; rewrite ?int64_small; lia.
  - injection Hstep as <-. split; simpl; rewrite ?int64_small; lia.
  - injection Hstep as <-. split; simpl; lia.
  - injection Hstep as <-. split; simpl; lia.
  - destruct (nextBatchC st) as [|n]; [discriminate|].
    injection Hstep as <-. split; simpl; lia.
  - destruct (Z.ltb_spec (seq st) (last st)) as [Hlt|Hge]; simpl in Hstep.
    + destruct (Z.leb_spec (out st) maxOut) as [Hle|Hgt]; simpl in Hstep.
      * injection Hstep as <-. unfold sendOne.
        pose proof (Hfit (seq st)) as Hlen.
        pose proof (Wire.len_nonneg (encodeAt store (seq st))) as Hnn.
        split; cbn [out sent ackedBytes foldr]; rewrite ?lastSize_snoc;
          cbn [replySize]; rewrite ?int64_small; lia.
      * injection Hstep as <-. split; simpl; lia.
    + injection Hstep as <-. split; simpl; lia.
Qed.

Lemma counted_run evs : forall acked st st',
  framesFit store -> Forall nonnegAck evs ->
  0 <= acked -> acked + ackedBytes evs <= 2 ^ 63 ->
  counted acked st -> run store st evs = Some st' ->
  counted (acked + ackedBytes evs) st'.
Proof.
  induction evs as [|e evs IH]; intros acked st st' Hfit Hacks Hacked Hroom Hc Hrun;
    simpl in Hrun.
  - injection Hrun as <-. simpl. now rewrite Z.add_0_r.
  - destruct (step store st e) as [st1|] eqn:Hstep; [|discriminate].
    apply Forall_cons in Hacks as [Hack Hacks].
    pose proof (ackedBytes_nonneg evs Hacks) as Hrest.
    assert (0 <= ackedBytes [e]) as Hone
      by (apply ackedBytes_nonneg; constructor; [assumption | constructor]).
    rewrite ackedBytes_cons in Hroom |- *. rewrite Z.add_assoc.
    apply (IH _ st1 st' Hfit Hacks); [lia | lia | | exact Hrun].
    apply (counted_step acked st e st1); try assumption. lia.
Qed.

(** C2, as the code has it.  Along every run of the sender for a request
    [{FirstSeq, LastSeq}], with acks of non-negative sizes: what has been
    sent is, in ascending order, the frames of the sequences from
    [FirstSeq] up to the sender's position, one per sequence, a prefix of
    the half-open interval; each frame is the STREAM_MSG encoding of the
    stored message with [lseq = s - 1] (as a [uint64]); when the run has
    returned through the [seq >= last] test, that is the whole interval;
    the loop sends only while [out <= maxOut]; and, as long as the acks
    took no more than [2 ^ 63] bytes off the [int64] counter and every
    frame is shorter than [2 ^ 63 - maxOut] bytes, [out] is never above
    [maxOut] by more than the size of the frame sent last. *)
Theorem runCatchup_sends_in_order qch sreq evs st :
  0 <= rq_FirstSeq sreq -> rq_LastSeq sreq < 2 ^ 64 ->
  Forall nonnegAck evs ->
  run store (start qch sreq) evs = Some st ->
  let first := rq_FirstSeq sreq in
  let lst := rq_LastSeq sreq in
  first <= seq st <= Z.max first lst
  /\ sent st = map (frameFor store) (interval first (seq st))
  /\ StronglySorted Z.lt (interval first (seq st))
  /\ (forall s, In s (interval first lst) <-> first <= s < lst)
  /\ (forall s,
        let m := fst (LoadMsg store s) in
        payload (frameFor store s)
        = Wire.encodeStreamMsg (sm_subj m) [] (sm_hdr m) (sm_msg m)
            (uint64 (s - 1)) (sm_ts m)
        /\ replySize (frameFor store s) = len (payload (frameFor store s)))
  /\ (at_ st = Returned Done ->
      sent st = map (frameFor store) (interval first lst))
  /\ (forall st', step store st Iterate = Some st' ->
        sent st' = sent st
        \/ (out st <= maxOut /\ sent st' = sent st ++ [frameFor store (seq st)]))
  /\ (ackedBytes evs <= 2 ^ 63 -> framesFit store ->
      out st <= maxOut + lastSize (sent st)).
Proof.
  intros Hfirst Hlst Hacks Hrun first lst.
  destruct (inv_run _ _ _ _ _ Hfirst Hlst (inv_start qch sreq) Hrun)
    as [Hl Hs Hsent Hdone].
  fold first lst in Hl, Hs, Hsent, Hdone.
  split; [exact Hs|]. split; [exact Hsent|].
  split; [apply seqFrom_ascending|]. split; [intros s; apply In_interval|].
  split; [intros s; split; reflexivity|].
  split; [|split].
  - intros Hat. specialize (Hdone Hat). rewrite Hsent.
    destruct (Z.le_gt_cases first lst).
    + now replace (seq st) with lst by lia.
    + replace (seq st) with first by lia. unfold interval.
      now replace (Z.to_nat (lst - first)) with (Z.to_nat (first - first)) by lia.
  - intros st' Hstep. unfold step in Hstep.
    destruct (at_ st); try discriminate.
    destruct (Z.ltb_spec (seq st) (last st)); simpl in Hstep;
      [|injection Hstep as <-; now left].
    destruct (Z.leb_spec (out st) maxOut); simpl in Hstep;
      injection Hstep as <-; [right | now left].
    split; [assumption | reflexivity].
  - intros Hroom Hfit.
    apply (out_upper (0 + ackedBytes evs) st).
    apply (counted_run evs 0 (start qch sreq) st Hfit Hacks);
      [lia | lia | apply counted_start | exact Hrun].
Qed.

(** The scheduler and the follower can always let the sender finish: after
    enough acks the run returns through the [seq >= last] test. *)
Lemma batch_can_complete n : forall st,
  at_ st = InBatch -> Z.to_nat (last st - seq st) = n ->
  0 <= seq st -> last st < 2 ^ 64 ->
  - 2 ^ 63 <= out st < 2 ^ 63 ->
  exists evs st',
    Forall nonnegAck evs /\ run store st evs = Some st'
    /\ at_ st' = Returned Done.
Proof.
  induction n as [|n IH]; intros st Hat Hn Hseq Hlast Hout.
  - exists [Iterate; Ack 0; NextBatch]. eexists. split; [|split].
    + repeat constructor. simpl. lia.
    + simpl. unfold step. rewrite Hat.
      replace (seq st <? last st) with false by (symmetry; apply Z.ltb_ge; lia).
      simpl. replace (last st <=? seq st) with true
        by (symmetry; apply Z.leb_le; lia).
      reflexivity.
    + reflexivity.
  - set (st1 := mkSender (seq st) (last st) (int64 (out st - Z.max 0 (out st)))
                         (Datatypes.S (nextBatchC st)) (sent st) InBatch).
    destruct (IH (sendOne store st1)) as (evs & st' & Hacks & Hrun & Hdone).
    + reflexivity.
    + simpl. unfold uint64. rewrite Z.mod_small by lia. lia.
    + simpl. unfold uint64. rewrite Z.mod_small by lia. lia.
    + assumption.
    + apply int64_in_range.
    + exists (Ack (Z.max 0 (out st)) :: Iterate :: evs), st'.
      split; [|split; [|assumption]].
      * constructor; [simpl; lia|]. constructor; [exact I | assumption].
      * change (run store st (Ack (Z.max 0 (out st)) :: Iterate :: evs))
          with (match step store st (Ack (Z.max 0 (out st))) with
                | Some st2 =>
                    match step store st2 Iterate with
                    | Some st3 => run store st3 evs
                    | None => None
                    end
                | None => None
                end).
        assert (step store st (Ack (Z.max 0 (out st))) = Some st1) as ->
          by (unfold step; now rewrite Hat).
        assert (step store st1 Iterate = Some (sendOne store st1)) as ->.
        { unfold step. simpl.
          replace (seq st <? last st) with true by (symmetry; apply Z.ltb_lt; lia).
          rewrite int64_small by lia.
          now replace (out st - Z.max 0 (out st) <=? maxOut) with true
            by (symmetry; apply Z.leb_le; unfold maxOut; lia). }
        exact Hrun.
Qed.

Lemma runCatchup_can_complete sreq :
  0 <= rq_FirstSeq sreq -> rq_LastSeq sreq < 2 ^ 64 ->
  exists evs st,
    Forall nonnegAck evs /\ run store (start true sreq) evs = Some st
    /\ at_ st = Returned Done.
Proof.
  intros Hfirst Hlast.
  destruct (Z.leb_spec (rq_LastSeq sreq) (rq_FirstSeq sreq)) as [Hle|Hgt].
  - exists [NextBatch]. eexists. split; [repeat constructor|]. split.
    + simpl. unfold step. simpl.
      now replace (rq_LastSeq sreq <=? rq_FirstSeq sreq) with true
        by (symmetry; apply Z.leb_le; lia).
    + reflexivity.
  - destruct (batch_can_complete _
                (mkSender (rq_FirstSeq sreq) (rq_LastSeq sreq) 0 0 [] InBatch)
                eq_refl eq_refl Hfirst Hlast ltac:(simpl; lia))
      as (evs & st & Hacks & Hrun & Hdone).
    exists (NextBatch :: evs), st. split; [|split; [|assumption]].
    + constructor; [exact I | assumption].
    + change (run store (start true sreq) (NextBatch :: evs))
        with (match step store (start true sreq) NextBatch with
              | Some st1 => run store st1 evs
              | None => None
              end).
      assert (step store (start true sreq) NextBatch
              = Some (mkSender (rq_FirstSeq sreq) (rq_LastSeq sreq) 0 0 [] InBatch))
        as ->; [|exact Hrun].
      unfold step. simpl.
      now replace (rq_LastSeq sreq <=? rq_FirstSeq sreq) with false
        by (symmetry; apply Z.leb_gt; lia).
Qed.

End SenderFacts.

Lemma list_find_filter_None {A} (P Q : A -> Prop)
    `{forall x, Decision (P x)} `{forall x, Decision (Q x)} (l : list A) :
  list_find P l = None -> list_find P (filter Q l) = None.
Proof.
  rewrite !list_find_None, !Forall_forall. intros Hl x Hx.
  apply list_elem_of_filter in Hx. apply Hl. tauto.
Qed.

#[export] Instance listStore_laws : StreamStoreLaws listStore.
Proof.
  split; simpl.
  - intros s seq Hseq _. unfold uint64. apply Z.mod_small. lia.
  - intros s seq.
    destruct (list_find _ (filter _ (ls_msgs s))) as [[i [q m]]|] eqn:Hf;
      [|reflexivity].
    apply list_find_Some in Hf as (Hi & Hq & _). simpl in Hq.
    apply list_elem_of_lookup_2, list_elem_of_filter in Hi as [Hne _].
    simpl in Hne. contradiction.
  - intros s seq q.
    destruct (list_find _ (ls_msgs s)) as [[i [q' m]]|] eqn:Hf; [discriminate|].
    intros _. now rewrite (list_find_filter_None _ _ _ Hf).
  - intros s seq. lia.
  - intros s. unfold uint64.
    pose proof (Z.mod_pos_bound (ls_first s) (2 ^ 64)).
    pose proof (Z.mod_pos_bound (ls_last s) (2 ^ 64)). lia.
Qed.

Lemma processSnapshot_spec_witness :
  let snap := mkState 2 6 [3] in
  let store' := fst (processSnapshot store4 snap) in
  let sreq := snd (processSnapshot store4 snap) in
  FirstSeq (State store') = 2
  /\ snd (LoadMsg store' 3) = false
  /\ (is_Some sreq <-> LastSeq (State store') < 6)
  /\ sreq = Some (mkSyncRequest 5 6).
Proof.
  intros snap store' sreq.
  assert (in_range snap) as Hsnap by (unfold in_range; simpl; lia).
  destruct (processSnapshot_spec store4 snap Hsnap)
    as (_ & _ & Hdel & Hiff & _).
  split; [reflexivity|]. split; [|split; [exact Hiff | reflexivity]].
  apply Hdel; [simpl; tauto | vm_compute; discriminate].
Defined.

Lemma framesFit_store4 : framesFit store4.
Proof.
  intros sq. unfold encodeAt. rewrite Wire.encodeStreamMsg_frame.
  assert (exists b, fst (LoadMsg store4 sq) = textMsg b
                    \/ fst (LoadMsg store4 sq) = noMsg) as (b & [-> | ->]).
  { exists (match sq with 1 => Byte.x31 | 2 => Byte.x32 | 3 => Byte.x33
                     | _ => Byte.x34 end).
    unfold LoadMsg, listStore_store, store4. cbn [ls_msgs].
    destruct (decide (sq = 1)) as [->|]; [now left|].
    destruct (decide (sq = 2)) as [->|]; [now left|].
    destruct (decide (sq = 3)) as [->|]; [now left|].
    destruct (decide (sq = 4)) as [->|]; [now left|].
    right. cbn. repeat (case_decide; [simpl in *; congruence|]). reflexivity. }
  - unfold Wire.frame, maxOut, len. cbn [sm_subj sm_hdr sm_msg sm_ts textMsg].
    rewrite length_cons, !length_app, !Wire.length_le_put. simpl. lia.
  - unfold Wire.frame, maxOut, len. cbn [sm_subj sm_hdr sm_msg sm_ts noMsg].
    rewrite length_cons, !length_app, !Wire.length_le_put. simpl. lia.
Qed.

Lemma runCatchup_sends_in_order_witness :
  let evs := [NextBatch; Iterate; Iterate; Iterate; Ack 29; NextBatch] in
  let st := mkSender 4 4 (29 + 29 - 29) 0
              [frameFor store4 2; frameFor store4 3] (Returned Done) in
  run store4 (start true (mkSyncRequest 2 4)) evs = Some st
  /\ sent st = map (frameFor store4) (interval 2 4)
  /\ ackedBytes evs = 29
  /\ out st <= maxOut + lastSize (sent st).
Proof.
  intros evs st.
  assert (Forall nonnegAck evs) as Hacks by (repeat constructor; simpl; lia).
  destruct (runCatchup_sends_in_order store4 true (mkSyncRequest 2 4) evs st
              ltac:(simpl; lia) ltac:(simpl; lia) Hacks catchup_two_messages)
    as (_ & _ & _ & _ & _ & Hdone & _ & Hout).
  split; [exact catchup_two_messages|].
  split; [apply Hdone; reflexivity|]. split; [reflexivity|].
  apply Hout; [simpl; lia | exact framesFit_store4].
Defined.

(** C2 as stated fails when the run is cut short: the server quits before
    the first batch, and nothing of the interval [[2, 4)] has been sent.
    The same holds when the stream has no quit channel.  And its bound on
    [out] fails when acks for more bytes than an [int64] holds below zero
    wrap the counter: nothing has been sent and [out] is at the last
    [int64]. *)
Lemma runCatchup_cut_short :
  interval 2 4 = [2; 3]
  /\ run store4 (start true (mkSyncRequest 2 4)) [QuitSignal]
     = Some (mkSender 2 4 0 1 [] (Returned Quit))
  /\ start false (mkSyncRequest 2 4) = mkSender 2 4 0 1 [] (Returned Quit)
  /\ run store4 (start true (mkSyncRequest 2 4)) [Ack (2 ^ 63 - 1); Ack 2]
     = Some (mkSender 2 4 (2 ^ 63 - 1) 3 [] AtSelect).
Proof. repeat split. Qed.

End Catchup.

(** * More on the STREAM_MSG framing *)

Module WireFacts.
Import Wire.

(** ** Reading back what was written *)

Lemma le_get_take n b : le_get n b = le_combine (take n b).
Proof.
  revert b. induction n as [|n IH]; intros [|x b]; simpl; try reflexivity.
  now rewrite IH.
Qed.

Lemma le_put_get n b : (n <= length b)%nat -> le_put n (le_get n b) = take n b.
Proof.
  intros Hn. rewrite le_put_split, le_get_take.
  rewrite <- (split_le_combine (take n b)) at 2.
  now rewrite length_take_le by lia.
Qed.

Lemma le_get_bound n b : 0 <= le_get n b < 2 ^ (8 * Z.of_nat n).
Proof.
  rewrite le_get_take. pose proof (le_combine_bound (take n b)) as Hb.
  assert (length (take n b) <= n)%nat by (rewrite length_take; lia).
  assert (2 ^ (8 * Z.of_nat (length (take n b))) <= 2 ^ (8 * Z.of_nat n))
    by (apply Z.pow_le_mono_r; lia).
  lia.
Qed.

Lemma uint64_int64 u : 0 <= u < 2 ^ 64 -> uint64 (int64 u) = u.
Proof.
  intros Hu. unfold uint64, int64. rewrite (Z.mod_small u) by lia.
  destruct (Z.ltb_spec u (2 ^ 63)).
  - apply Z.mod_small. lia.
  - rewrite <- (Z.mod_add (u - 2 ^ 64) 1) by lia.
    replace (u - 2 ^ 64 + 1 * 2 ^ 64) with u by lia. apply Z.mod_small. lia.
Qed.

Lemma int64_range u : - 2 ^ 63 <= int64 u < 2 ^ 63.
Proof.
  unfold int64. pose proof (Z.mod_pos_bound u (2 ^ 64)).
  destruct (Z.ltb_spec (u mod 2 ^ 64) (2 ^ 63)); lia.
Qed.

Lemma slice_split {A} (b : list A) n : slice_to n b ++ slice_from n b = b.
Proof. apply take_drop. Qed.

Lemma len_slice_to {A} (b : list A) n : 0 <= n <= len b -> len (slice_to n b) = n.
Proof. unfold len, slice_to. intros Hn. rewrite length_take. lia. Qed.

(** The decoder read backwards: an accepted buffer splits into the frame
    of the returned entry and the bytes after it. *)
Lemma decodeStreamMsg_inv buf m :
  decodeStreamMsg buf = Ok m ->
  exists rest,
    buf = frame (subject m) (reply m) (hdr m) (msg m) (lseq m) (ts m) ++ rest
    /\ len (subject m) <= 65535 /\ len (reply m) <= 65535
    /\ len (hdr m) <= 65535 /\ len (msg m) < 2 ^ 32
    /\ 0 <= lseq m < 2 ^ 64 /\ - 2 ^ 63 <= ts m < 2 ^ 63.
Proof.
  unfold decodeStreamMsg.
  destruct (Z.ltb_spec (len buf) 26) as [|H26]; [discriminate|]. cbv zeta.
  set (b1 := slice_from 8 buf). set (b2 := slice_from 8 b1).
  set (sl := Uint16 b2). set (b3 := slice_from 2 b2).
  destruct (Z.ltb_spec (len b3) sl) as [|Hsl]; [discriminate|].
  set (b4 := slice_from sl b3).
  destruct (Z.ltb_spec (len b4) 2) as [|H4]; [discriminate|].
  set (rl := Uint16 b4). set (b5 := slice_from 2 b4).
  destruct (Z.ltb_spec (len b5) rl) as [|Hrl]; [discriminate|].
  set (b6 := slice_from rl b5).
  destruct (Z.ltb_spec (len b6) 2) as [|H6]; [discriminate|].
  set (hl := Uint16 b6). set (b7 := slice_from 2 b6).
  destruct (Z.ltb_spec (len b7) hl) as [|Hhl]; [discriminate|].
  set (b8 := slice_from hl b7).
  destruct (Z.ltb_spec (len b8) 4) as [|H8]; [discriminate|].
  set (ml := Uint32 b8). set (b9 := slice_from 4 b8).
  destruct (Z.ltb_spec (len b9) ml) as [|Hml]; [discriminate|].
  intros [= <-]. cbn [subject reply hdr msg lseq ts].
  assert (0 <= sl < 65536) as Bsl by apply (le_get_bound 2 b2).
  assert (0 <= rl < 65536) as Brl by apply (le_get_bound 2 b4).
  assert (0 <= hl < 65536) as Bhl by apply (le_get_bound 2 b6).
  assert (0 <= ml < 2 ^ 32) as Bml by apply (le_get_bound 4 b8).
  assert (0 <= Uint64 buf < 2 ^ 64) as Blseq by apply (le_get_bound 8 buf).
  assert (0 <= Uint64 b1 < 2 ^ 64) as Bts by apply (le_get_bound 8 b1).
  assert (len b1 = len buf - 8) as L1 by (apply len_slice_from; lia).
  assert (len b2 = len b1 - 8) as L2 by (apply len_slice_from; lia).
  exists (slice_from ml b9).
  unfold frame.
  rewrite !len_slice_to by lia.
  split; [|pose proof (int64_range (Uint64 b1)); lia].
  rewrite uint64_int64 by exact Bts.
  rewrite !uint16_small, uint32_small by lia.
  replace (le_put 8 (Uint64 buf)) with (slice_to 8 buf)
    by (symmetry; apply le_put_get; unfold len in *; lia).
  replace (le_put 8 (Uint64 b1)) with (slice_to 8 b1)
    by (symmetry; apply le_put_get; unfold len in *; lia).
  replace (le_put 2 sl) with (slice_to 2 b2)
    by (symmetry; apply le_put_get; unfold len in *; lia).
  replace (le_put 2 rl) with (slice_to 2 b4)
    by (symmetry; apply le_put_get; unfold len in *; lia).
  replace (le_put 2 hl) with (slice_to 2 b6)
    by (symmetry; apply le_put_get; unfold len in *; lia).
  replace (le_put 4 ml) with (slice_to 4 b8)
    by (symmetry; apply le_put_get; unfold len in *; lia).
  rewrite <- !app_assoc.
  rewrite (slice_split b9). unfold b9. rewrite (slice_split b8).
  unfold b8. rewrite (slice_split b7). unfold b7. rewrite (slice_split b6).
  unfold b6. rewrite (slice_split b5). unfold b5. rewrite (slice_split b4).
  unfold b4. rewrite (slice_split b3). unfold b3. rewrite (slice_split b2).
  unfold b2. rewrite (slice_split b1). unfold b1. now rewrite (slice_split buf).
Qed.

(** X1.  Whatever [decodeStreamMsg] accepts is the canonical frame of what
    it returns, followed by bytes it did not read; and what it returns
    always fits the frame's length fields. *)
Theorem decodeStreamMsg_canonical buf m :
  decodeStreamMsg buf = Ok m ->
  exists rest,
    buf = frame (subject m) (reply m) (hdr m) (msg m) (lseq m) (ts m) ++ rest
    /\ len (subject m) <= 65535 /\ len (reply m) <= 65535
    /\ len (hdr m) <= 65535 /\ len (msg m) < 2 ^ 32
    /\ 0 <= lseq m < 2 ^ 64 /\ - 2 ^ 63 <= ts m < 2 ^ 63.
Proof.
  intros Hdec. destruct (decodeStreamMsg_inv buf m Hdec) as (rest & Hsplit).
  exists rest. exact Hsplit.
Qed.

Lemma decodeStreamMsg_canonical_witness :
  exists rest,
    [Byte.x07; Byte.x00; Byte.x00; Byte.x00; Byte.x00; Byte.x00; Byte.x00; Byte.x00;
     Byte.xff; Byte.xff; Byte.xff; Byte.xff; Byte.xff; Byte.xff; Byte.xff; Byte.xff;
     Byte.x01; Byte.x00; Byte.x66; Byte.x00; Byte.x00; Byte.x00; Byte.x00;
     Byte.x01; Byte.x00; Byte.x00; Byte.x00; Byte.x68; Byte.x21; Byte.x21]
    = frame [Byte.x66] [] [] [Byte.x68] 7 (-1) ++ rest
    /\ len [Byte.x66] <= 65535 /\ len (@nil byte) <= 65535
    /\ len (@nil byte) <= 65535 /\ len [Byte.x68] < 2 ^ 32
    /\ 0 <= 7 < 2 ^ 64 /\ - 2 ^ 63 <= -1 < 2 ^ 63.
Proof.
  apply (decodeStreamMsg_canonical _ (mkStreamMsg [Byte.x66] [] [] [Byte.x68] 7 (-1))).
  vm_compute. reflexivity.
Defined.

(** X2.  Bytes appended to an accepted buffer change nothing: the decoder
    reads the frame and stops. *)
Theorem decodeStreamMsg_append buf rest m :
  decodeStreamMsg buf = Ok m -> decodeStreamMsg (buf ++ rest) = Ok m.
Proof.
  intros Hdec.
  destruct (decodeStreamMsg_inv buf m Hdec)
    as (rest0 & -> & Hs & Hr & Hh & Hm & Hl & Ht).
  rewrite <- app_assoc. destruct m as [s r h b l t]. simpl in *.
  now apply decodeStreamMsg_frame.
Qed.

Lemma decodeStreamMsg_append_witness :
  decodeStreamMsg (frame [Byte.x66] [] [] [Byte.x68] 7 (-1) ++ [Byte.x21; Byte.x21])
  = Ok (mkStreamMsg [Byte.x66] [] [] [Byte.x68] 7 (-1)).
Proof.
  apply decodeStreamMsg_append. vm_compute. reflexivity.
Defined.

(** X3.  The encoded entry is 27 bytes longer than its four sections
    together: the opcode, two 8-byte numbers and the four length fields. *)
Theorem encodeStreamMsg_len subject reply hdr msg lseq ts :
  len (encodeStreamMsg subject reply hdr msg lseq ts)
  = 27 + len subject + len reply + len hdr + len msg.
Proof.
  rewrite encodeStreamMsg_frame. unfold frame.
  change (len (?x :: ?l)) with (Z.of_nat (Datatypes.S (length l))).
  rewrite Nat2Z.inj_succ. fold (len (le_put 8 lseq ++ le_put 8 (uint64 ts)
    ++ le_put 2 (uint16 (len subject)) ++ subject
    ++ le_put 2 (uint16 (len reply)) ++ reply
    ++ le_put 2 (uint16 (len hdr)) ++ hdr
    ++ le_put 4 (uint32 (len msg)) ++ msg)).
  rewrite !len_app, !len_le_put. lia.
Qed.

(** X4.  The subject that comes back from an encoded entry is the first
    [len(subject) mod 65536] bytes of the one that went in: a subject of
    more than 65535 bytes never survives the trip, whatever the other
    sections are. *)
Theorem encodeStreamMsg_subject_truncated subject reply hdr msg lseq ts m :
  decodeStreamMsg (slice_from 1 (encodeStreamMsg subject reply hdr msg lseq ts))
  = Ok m ->
  Wire.subject m = slice_to (len subject mod 65536) subject.
Proof.
  rewrite encodeStreamMsg_frame. change (slice_from 1 (?x :: ?f)) with f.
  unfold decodeStreamMsg, frame.
  destruct (len _ <? 26); [discriminate|]. cbv zeta.
  repeat (rewrite (slice_from_app (le_put _ _))
            by (rewrite len_le_put; reflexivity)).
  assert (forall rest,
            Uint16 (le_put 2 (uint16 (len subject)) ++ rest) = len subject mod 65536)
    as Hread.
  { intros rest. unfold Uint16. rewrite le_get_put. unfold uint16.
    change (2 ^ (Z.of_nat 2 * 8)) with 65536. change (2 ^ 16) with 65536.
    apply Z.mod_mod. lia. }
  rewrite !Hread.
  set (sl := len subject mod 65536).
  assert (0 <= sl <= len subject) as Hsl.
  { subst sl. pose proof (len_nonneg subject).
    pose proof (Z.mod_pos_bound (len subject) 65536).
    pose proof (Z.mod_le (len subject) 65536). lia. }
  assert (forall rest, slice_to sl (subject ++ rest) = slice_to sl subject) as Htake.
  { intros rest. unfold slice_to. apply take_app_le. unfold len in Hsl. lia. }
  rewrite !Htake.
  repeat match goal with
  | |- context [if ?c then _ else _] => destruct c; [discriminate|]
  end.
  now intros [= <-].
Qed.

Definition longSubject : list byte := repeat Byte.x00 (Z.to_nat 65536).

Lemma encodeStreamMsg_subject_truncated_witness :
  decodeStreamMsg (slice_from 1 (encodeStreamMsg longSubject [] [] [] 0 0))
  = Ok (mkStreamMsg [] [] [] [] 0 0)
  /\ slice_to (len longSubject mod 65536) longSubject = [].
Proof.
  assert (decodeStreamMsg (slice_from 1 (encodeStreamMsg longSubject [] [] [] 0 0))
          = Ok (mkStreamMsg [] [] [] [] 0 0))
    as Hdec by (vm_compute; reflexivity).
  split; [exact Hdec|].
  rewrite <- (encodeStreamMsg_subject_truncated _ _ _ _ _ _ _ Hdec). reflexivity.
Defined.

End WireFacts.

(** * More on the assignment map *)

Module MetaFacts.
Import Meta.

Local Open Scope string_scope.
Local Open Scope list_scope.

(** [isStreamAssigned] on a clustered server: the stream is assigned and
    this server is a peer of its group. *)
Definition isStreamAssigned (js : jetStream) (account stream : string) : bool :=
  match lookupSA js account stream with
  | None => false
  | Some sa => isMember (sa_Group sa) (ourID js)
  end.

(** [isConsumerAssigned] on a clustered server. *)
Definition isConsumerAssigned (js : jetStream) (account stream consumer : string)
    : bool :=
  match lookupSA js account stream with
  | None => false
  | Some sa =>
      match consumers sa !! consumer with
      | None => false
      | Some ca => isMember (ca_Group ca) (ourID js)
      end
  end.

(** ** Removing a stream *)

Lemma lookupSA_streams js js' :
  streams js = streams js' ->
  forall a s, lookupSA js a s = lookupSA js' a s.
Proof. intros Heq a s. unfold lookupSA. now rewrite Heq. Qed.

Lemma isMember_leads rg id : leads rg id = true -> isMember rg id = true.
Proof.
  unfold leads, isMember. rewrite !existsb_exists.
  intros (peer & Hin & Hb). exists peer. split; [assumption|].
  apply andb_true_iff in Hb as [He _]. apply String.eqb_eq in He. subst.
  apply String.eqb_refl.
Qed.

(** What [processStreamRemoval] leaves where its leadership check
    returns. *)
Lemma processStreamRemoval_returns js sa :
  let account := Account (sa_Client sa) in
  let stream := Name (sa_Config sa) in
  let js' := processStreamRemoval js sa in
  lookupSA js' account stream = None
  /\ (forall a s, (a, s) <> (account, stream) -> lookupSA js' a s = lookupSA js a s)
  /\ (lookupSA js account stream = None -> js' = js)
  /\ (is_Some (lookupSA js account stream) ->
      effects js' = effects js
                    ++ [ClusterDeleteStream sa (isStreamLeader js account stream)])
  /\ isStreamLeader js' account stream = false
  /\ isStreamAssigned js' account stream = false.
Proof.
  cbv zeta. set (a := Account (sa_Client sa)). set (s := Name (sa_Config sa)).
  assert (lookupSA (processStreamRemoval js sa) a s = None
          /\ (forall a' s', (a', s') <> (a, s) ->
                lookupSA (processStreamRemoval js sa) a' s' = lookupSA js a' s')
          /\ (lookupSA js a s = None -> processStreamRemoval js sa = js)
          /\ (is_Some (lookupSA js a s) ->
              effects (processStreamRemoval js sa)
              = effects js ++ [ClusterDeleteStream sa (isStreamLeader js a s)]))
    as (Hgone & Hother & Hnone & Heff).
  { unfold processStreamRemoval. fold a s. unfold lookupSA at 1 3 4 5.
    destruct (streams js !! a) as [asa|] eqn:Ha.
    - destruct (asa !! s) as [osa|] eqn:Hs.
      + repeat split.
        * unfold lookupSA. simpl. case_decide.
          -- now rewrite lookup_delete_eq.
          -- rewrite lookup_insert_eq. apply lookup_delete_eq.
        * intros a' s' Hne. unfold lookupSA. simpl.
          destruct (decide (a' = a)) as [->|Hna].
          -- rewrite Ha. assert (s' <> s) by congruence.
             case_decide as Hsz.
             ++ rewrite lookup_delete_eq. apply map_size_empty_inv in Hsz.
                rewrite <- (lookup_delete_ne asa s s') by congruence.
                rewrite Hsz. now rewrite lookup_empty.
             ++ rewrite lookup_insert_eq. now rewrite lookup_delete_ne by congruence.
          -- case_decide.
             ++ now rewrite lookup_delete_ne by congruence.
             ++ now rewrite lookup_insert_ne by congruence.
        * discriminate.
      + repeat split; try (unfold lookupSA; now rewrite Ha, ?Hs).
        intros [x Hx]. discriminate.
    - repeat split; try (unfold lookupSA; now rewrite Ha).
      intros [x Hx]. discriminate. }
  repeat split; try assumption.
  - unfold isStreamLeader. now rewrite Hgone.
  - unfold isStreamAssigned. now rewrite Hgone.
Qed.

(** No account is kept with an empty stream map. *)
Definition no_empty (m : gmap string (gmap string streamAssignment)) : Prop :=
  forall a asa, m !! a = Some asa -> asa <> ∅.

(** X6.  Assigning a stream the map does not hold and then removing it
    gives back the map, account entry included: the account's stream map is
    pruned when the stream was its only one. *)
Theorem assign_then_remove LookupAccount js sa :
  (forall n acc, LookupAccount n = Some acc -> acc_Name acc = n) ->
  no_empty (streams js) ->
  is_Some (LookupAccount (Account (sa_Client sa))) ->
  lookupSA js (Account (sa_Client sa)) (Name (sa_Config sa)) = None ->
  streams (processStreamRemoval (processStreamAssignment LookupAccount js sa) sa)
  = streams js.
Proof.
  intros HName Hne [acc Hacc] Hnone.
  set (a := Account (sa_Client sa)) in *. set (s := Name (sa_Config sa)) in *.
  pose proof (HName _ _ Hacc) as Hn.
  unfold processStreamAssignment. fold a s. rewrite Hacc, Hn.
  rewrite <- lookupSA_bind, Hnone. cbv zeta.
  set (js1 := with_streams js _).
  assert (streams (if isMember (sa_Group sa) (ourID js1)
                   then emit js1 (ClusterCreateStream sa) else js1) = streams js1)
    as Hst by (destruct (isMember _ _); reflexivity).
  unfold processStreamRemoval. fold a s. rewrite Hst.
  subst js1. simpl. rewrite lookup_insert_eq, lookup_insert_eq.
  simpl.
  assert (default ∅ (streams js !! a) !! s = None) as Hs.
  { unfold lookupSA in Hnone. destruct (streams js !! a); [exact Hnone|].
    apply lookup_empty. }
  rewrite delete_insert_id by exact Hs.
  case_decide as Hsz.
  - apply map_size_empty_inv in Hsz.
    destruct (streams js !! a) as [asa|] eqn:Ha.
    + simpl in Hsz. exfalso. now apply (Hne a asa).
    + rewrite delete_insert_id by exact Ha. reflexivity.
  - destruct (streams js !! a) as [asa|] eqn:Ha.
    + simpl. rewrite insert_insert_eq. now apply insert_id.
    + simpl in Hsz. now rewrite map_size_empty in Hsz.
Qed.

(** ** Consumers *)

Lemma consumerOf_lookupSA m a s c :
  consumerOf m a s c
  = match m !! a ≫= (fun as_ => as_ !! s) with
    | Some sa => consumers sa !! c
    | None => None
    end.
Proof.
  unfold consumerOf. destruct (m !! a) as [asa|]; [|reflexivity]. simpl.
  destruct (asa !! s); reflexivity.
Qed.

Definition withConsumer (sa : streamAssignment) (ca : consumerAssignment)
    : streamAssignment :=
  mkSA (sa_Client sa) (sa_Config sa) (sa_Group sa) (sa_Sync sa) (sa_Reply sa)
       (<[ca_Name ca := ca]> (consumers sa)).

Lemma processConsumerAssignment_streams js ca :
  streams (processConsumerAssignment js ca)
  = match streams js !! Account (ca_Client ca) with
    | Some asa =>
        match asa !! ca_Stream ca with
        | Some sa =>
            <[Account (ca_Client ca) := <[ca_Stream ca := withConsumer sa ca]> asa]>
              (streams js)
        | None => streams js
        end
    | None => streams js
    end.
Proof.
  unfold processConsumerAssignment.
  destruct (streams js !! Account (ca_Client ca)) as [asa|]; [|reflexivity].
  destruct (asa !! ca_Stream ca) as [sa|]; [|reflexivity].
  cbv zeta. destruct (isMember _ _); reflexivity.
Qed.

(** X7.  [processConsumerAssignment] drops an assignment whose parent
    stream the map does not hold.  Otherwise it puts the consumer under its
    name, replacing one already there, and touches neither the stream's
    own fields nor any other stream. *)
Theorem processConsumerAssignment_spec js ca :
  let account := Account (ca_Client ca) in
  let js' := processConsumerAssignment js ca in
  (lookupSA js account (ca_Stream ca) = None -> js' = js)
  /\ (forall sa, lookupSA js account (ca_Stream ca) = Some sa ->
        lookupSA js' account (ca_Stream ca) = Some (withConsumer sa ca))
  /\ (forall a s, (a, s) <> (account, ca_Stream ca) ->
        lookupSA js' a s = lookupSA js a s).
Proof.
  cbv zeta. set (a := Account (ca_Client ca)). set (s := ca_Stream ca).
  split; [|split].
  - unfold lookupSA, processConsumerAssignment. fold a s.
    destruct (streams js !! a) as [asa|]; [|reflexivity].
    now intros ->.
  - intros sa Hsa. rewrite lookupSA_bind, processConsumerAssignment_streams.
    fold a s. unfold lookupSA in Hsa.
    destruct (streams js !! a) as [asa|] eqn:Ha; [|discriminate].
    rewrite Hsa, lookup_insert_eq. simpl. apply lookup_insert_eq.
  - intros a' s' Hne.
    rewrite !lookupSA_bind, processConsumerAssignment_streams. fold a s.
    destruct (streams js !! a) as [asa|] eqn:Ha; [|reflexivity].
    destruct (asa !! s) as [sa|] eqn:Hs; [|reflexivity].
    destruct (decide (a' = a)) as [->|Hna];
      [|now rewrite lookup_insert_ne by congruence].
    rewrite lookup_insert_eq, Ha. simpl. apply lookup_insert_ne. congruence.
Qed.

(** What [processConsumerRemoval] leaves where its leadership check
    returns. *)
Lemma processConsumerRemoval_returns js ca :
  let account := Account (ca_Client ca) in
  let js' := processConsumerRemoval js ca in
  consumerOf (streams js') account (ca_Stream ca) (ca_Name ca) = None
  /\ (forall a s c, (a, s, c) <> (account, ca_Stream ca, ca_Name ca) ->
        consumerOf (streams js') a s c = consumerOf (streams js) a s c)
  /\ (forall a s, is_Some (lookupSA js' a s) <-> is_Some (lookupSA js a s))
  /\ effects js'
     = effects js
       ++ [ClusterDeleteConsumer ca
             (isConsumerLeader js account (ca_Stream ca) (ca_Name ca))].
Proof.
  cbv zeta. set (a := Account (ca_Client ca)). set (s := ca_Stream ca).
  unfold processConsumerRemoval. fold a s. simpl.
  split; [|split; [|split; [|reflexivity]]].
  - unfold consumerOf.
    destruct (streams js !! a) as [asa|] eqn:Ha; [|now rewrite Ha].
    destruct (asa !! s) as [sa|] eqn:Hs; [|now rewrite Ha, Hs].
    rewrite lookup_insert_eq, lookup_insert_eq. simpl. apply lookup_delete_eq.
  - intros a' s' c' Hne. unfold consumerOf.
    destruct (streams js !! a) as [asa|] eqn:Ha; [|reflexivity].
    destruct (asa !! s) as [sa|] eqn:Hs; [|reflexivity].
    destruct (decide (a' = a)) as [->|Hna];
      [|now rewrite lookup_insert_ne by congruence].
    rewrite lookup_insert_eq, Ha.
    destruct (decide (s' = s)) as [->|Hns];
      [|now rewrite lookup_insert_ne by congruence].
    rewrite lookup_insert_eq, Hs. simpl. apply lookup_delete_ne. congruence.
  - intros a' s'. unfold lookupSA. simpl.
    destruct (streams js !! a) as [asa|] eqn:Ha; [|reflexivity].
    destruct (asa !! s) as [sa|] eqn:Hs; [|reflexivity].
    destruct (decide (a' = a)) as [->|Hna];
      [|now rewrite lookup_insert_ne by congruence].
    rewrite lookup_insert_eq, Ha.
    destruct (decide (s' = s)) as [->|Hns];
      [|now rewrite lookup_insert_ne by congruence].
    rewrite lookup_insert_eq, Hs. split; eauto.
Qed.

(** ** What the map keeps *)

(** A stream's consumers are filed under their own names. *)
Definition keyed_consumers (sa : streamAssignment) : Prop :=
  forall c ca, consumers sa !! c = Some ca -> ca_Name ca = c.

(** Every assignment is filed under its own account and stream name, its
    consumers under their names, and no account is kept without a
    stream. *)
Definition well_keyed (m : gmap string (gmap string streamAssignment)) : Prop :=
  no_empty m
  /\ forall a s sa, m !! a ≫= (fun as_ => as_ !! s) = Some sa ->
       Account (sa_Client sa) = a /\ Name (sa_Config sa) = s /\ keyed_consumers sa.

Definition withoutConsumer (sa : streamAssignment) (c : string) : streamAssignment :=
  mkSA (sa_Client sa) (sa_Config sa) (sa_Group sa) (sa_Sync sa) (sa_Reply sa)
       (delete c (consumers sa)).

Lemma processStreamAssignment_streams LookupAccount js sa :
  (forall n acc, LookupAccount n = Some acc -> acc_Name acc = n) ->
  streams (processStreamAssignment LookupAccount js sa) = streams js
  \/ (lookupSA js (Account (sa_Client sa)) (Name (sa_Config sa)) = None
      /\ streams (processStreamAssignment LookupAccount js sa)
         = <[Account (sa_Client sa) :=
               <[Name (sa_Config sa) := sa]>
                 (default ∅ (streams js !! Account (sa_Client sa)))]> (streams js)).
Proof.
  intros HName. unfold processStreamAssignment.
  destruct (LookupAccount _) as [acc|] eqn:Hacc; [|now left].
  rewrite (HName _ _ Hacc). rewrite <- lookupSA_bind.
  destruct (lookupSA js _ _) eqn:Hl; [now left|].
  right. split; [reflexivity|]. cbv zeta. destruct (isMember _ _); reflexivity.
Qed.

Lemma processStreamRemoval_streams js sa :
  streams (processStreamRemoval js sa)
  = match streams js !! Account (sa_Client sa) with
    | Some asa =>
        match asa !! Name (sa_Config sa) with
        | Some _ =>
            if decide (size (delete (Name (sa_Config sa)) asa) = 0%nat)
            then delete (Account (sa_Client sa)) (streams js)
            else <[Account (sa_Client sa) := delete (Name (sa_Config sa)) asa]>
                   (streams js)
        | None => streams js
        end
    | None => streams js
    end.
Proof.
  unfold processStreamRemoval.
  destruct (streams js !! _) as [asa|]; [|reflexivity].
  destruct (asa !! _); reflexivity.
Qed.

Lemma processConsumerRemoval_streams js ca :
  streams (processConsumerRemoval js ca)
  = match streams js !! Account (ca_Client ca) with
    | Some asa =>
        match asa !! ca_Stream ca with
        | Some sa =>
            <[Account (ca_Client ca) :=
                <[ca_Stream ca := withoutConsumer sa (ca_Name ca)]> asa]> (streams js)
        | None => streams js
        end
    | None => streams js
    end.
Proof. reflexivity. Qed.

(** Replacing one assignment by another with the same identity. *)
Lemma well_keyed_update m a asa s sa sa' :
  well_keyed m -> m !! a = Some asa -> asa !! s = Some sa ->
  sa_Client sa' = sa_Client sa -> sa_Config sa' = sa_Config sa ->
  keyed_consumers sa' ->
  well_keyed (<[a := <[s := sa']> asa]> m).
Proof.
  intros [Hne Hk] Ha Hs Hc Hcfg Hkc. split.
  - intros a' asa' Hl. destruct (decide (a' = a)) as [->|Hna].
    + rewrite lookup_insert_eq in Hl. injection Hl as <-.
      apply insert_non_empty.
    + rewrite lookup_insert_ne in Hl by congruence. eauto.
  - intros a' s' x Hl. destruct (decide (a' = a)) as [->|Hna].
    + rewrite lookup_insert_eq in Hl. simpl in Hl.
      destruct (decide (s' = s)) as [->|Hns].
      * rewrite lookup_insert_eq in Hl. injection Hl as <-.
        destruct (Hk a s sa) as (H1 & H2 & _); [now rewrite Ha|].
        rewrite Hc, Hcfg. auto.
      * rewrite lookup_insert_ne in Hl by congruence. apply Hk. now rewrite Ha.
    + rewrite lookup_insert_ne in Hl by congruence. now apply Hk.
Qed.

Lemma well_keyed_processStreamAssignment LookupAccount js sa :
  (forall n acc, LookupAccount n = Some acc -> acc_Name acc = n) ->
  keyed_consumers sa ->
  well_keyed (streams js) ->
  well_keyed (streams (processStreamAssignment LookupAccount js sa)).
Proof.
  intros HName Hkc [Hne Hk].
  destruct (processStreamAssignment_streams LookupAccount js sa HName)
    as [->|[Hnone ->]]; [now split|].
  set (a := Account (sa_Client sa)) in *. set (s := Name (sa_Config sa)) in *.
  split.
  - intros a' asa' Hl. destruct (decide (a' = a)) as [->|Hna].
    + rewrite lookup_insert_eq in Hl. injection Hl as <-. apply insert_non_empty.
    + rewrite lookup_insert_ne in Hl by congruence. eauto.
  - intros a' s' x Hl. destruct (decide (a' = a)) as [->|Hna].
    + rewrite lookup_insert_eq in Hl. simpl in Hl.
      destruct (decide (s' = s)) as [->|Hns].
      * rewrite lookup_insert_eq in Hl. injection Hl as <-. auto.
      * rewrite lookup_insert_ne in Hl by congruence. apply Hk.
        destruct (streams js !! a); [exact Hl|].
        simpl in Hl. now rewrite lookup_empty in Hl.
    + rewrite lookup_insert_ne in Hl by congruence. now apply Hk.
Qed.

Lemma well_keyed_processStreamRemoval js sa :
  well_keyed (streams js) -> well_keyed (streams (processStreamRemoval js sa)).
Proof.
  intros [Hne Hk]. rewrite processStreamRemoval_streams.
  set (a := Account (sa_Client sa)). set (s := Name (sa_Config sa)).
  destruct (streams js !! a) as [asa|] eqn:Ha; [|now split].
  destruct (asa !! s) as [osa|] eqn:Hs; [|now split].
  case_decide as Hsz; split.
  - intros a' asa' Hl. apply lookup_delete_Some in Hl as [_ Hl]. eauto.
  - intros a' s' x Hl. apply Hk.
    destruct (decide (a' = a)) as [->|Hna].
    + now rewrite lookup_delete_eq in Hl.
    + now rewrite lookup_delete_ne in Hl by congruence.
  - intros a' asa' Hl. destruct (decide (a' = a)) as [->|Hna].
    + rewrite lookup_insert_eq in Hl. injection Hl as <-.
      intros Hemp. apply Hsz. rewrite Hemp. apply map_size_empty.
    + rewrite lookup_insert_ne in Hl by congruence. eauto.
  - intros a' s' x Hl. apply Hk.
    destruct (decide (a' = a)) as [->|Hna].
    + rewrite lookup_insert_eq in Hl. simpl in Hl.
      apply lookup_delete_Some in Hl as [_ Hl]. now rewrite Ha.
    + now rewrite lookup_insert_ne in Hl by congruence.
Qed.

Lemma well_keyed_processConsumerAssignment js ca :
  well_keyed (streams js) -> well_keyed (streams (processConsumerAssignment js ca)).
Proof.
  intros Hwk. rewrite processConsumerAssignment_streams.
  destruct (streams js !! Account (ca_Client ca)) as [asa|] eqn:Ha; [|assumption].
  destruct (asa !! ca_Stream ca) as [sa|] eqn:Hs; [|assumption].
  apply (well_keyed_update _ _ _ _ sa); try assumption; try reflexivity.
  intros c x Hl. simpl in Hl.
  destruct (decide (c = ca_Name ca)) as [->|Hnc].
  - rewrite lookup_insert_eq in Hl. now injection Hl as <-.
  - rewrite lookup_insert_ne in Hl by congruence.
    destruct Hwk as [_ Hk]. destruct (Hk (Account (ca_Client ca)) (ca_Stream ca) sa)
      as (_ & _ & Hkc); [now rewrite Ha|]. now apply Hkc.
Qed.

Lemma well_keyed_processConsumerRemoval js ca :
  well_keyed (streams js) -> well_keyed (streams (processConsumerRemoval js ca)).
Proof.
  intros Hwk. rewrite processConsumerRemoval_streams.
  destruct (streams js !! Account (ca_Client ca)) as [asa|] eqn:Ha; [|assumption].
  destruct (asa !! ca_Stream ca) as [sa|] eqn:Hs; [|assumption].
  apply (well_keyed_update _ _ _ _ sa); try assumption; try reflexivity.
  intros c x Hl. simpl in Hl. apply lookup_delete_Some in Hl as [_ Hl].
  destruct Hwk as [_ Hk]. destruct (Hk (Account (ca_Client ca)) (ca_Stream ca) sa)
    as (_ & _ & Hkc); [now rewrite Ha|]. now apply Hkc.
Qed.


Lemma foldl_preserves {A B} (P : A -> Prop) (Q : B -> Prop) (f : A -> B -> A)
    (l : list B) (init : A) :
  P init -> Forall Q l -> (forall a b, P a -> Q b -> P (f a b)) ->
  P (foldl f init l).
Proof.
  intros Hinit Hl Hstep. revert init Hinit.
  induction Hl as [|b l Hb Hl IH]; intros init Hinit; simpl; [assumption|].
  apply IH. now apply Hstep.
Qed.

Lemma Forall_map_to_list {V} (m : gmap string V) :
  Forall (fun kv => m !! fst kv = Some (snd kv)) (map_to_list m).
Proof.
  apply List.Forall_forall. intros [k v] Hin.
  now apply list_elem_of_In, elem_of_map_to_list in Hin.
Qed.

Lemma keyed_snapshotAssignment wsa : keyed_consumers (snapshotAssignment wsa).
Proof.
  unfold keyed_consumers, snapshotAssignment. simpl.
  apply (foldl_preserves
           (fun m : gmap string consumerAssignment =>
              forall c ca, m !! c = Some ca -> ca_Name ca = c)
           (fun _ => True)).
  - intros c ca Hl. now rewrite lookup_empty in Hl.
  - apply List.Forall_forall. auto.
  - intros m x Hm _ c ca Hl. destruct (decide (c = ca_Name x)) as [->|Hne].
    + rewrite lookup_insert_eq in Hl. now injection Hl as <-.
    + rewrite lookup_insert_ne in Hl by congruence. now apply Hm.
Qed.

Lemma well_keyed_empty : well_keyed ∅.
Proof.
  split.
  - intros a asa Hl. now rewrite lookup_empty in Hl.
  - intros a s sa Hl. now rewrite lookup_empty in Hl.
Qed.

Lemma well_keyed_snapshotStreams wsas : well_keyed (snapshotStreams wsas).
Proof.
  unfold snapshotStreams.
  apply (foldl_preserves well_keyed (fun _ => True));
    [apply well_keyed_empty | apply List.Forall_forall; auto |].
  intros m wsa [Hne Hk] _. cbv zeta.
  set (a := Account (w_Client wsa)). set (s := Name (w_Config wsa)). split.
  - intros a' asa' Hl. destruct (decide (a' = a)) as [->|Hna].
    + rewrite lookup_insert_eq in Hl. injection Hl as <-. apply insert_non_empty.
    + rewrite lookup_insert_ne in Hl by congruence. eauto.
  - intros a' s' x Hl. destruct (decide (a' = a)) as [->|Hna].
    + rewrite lookup_insert_eq in Hl. simpl in Hl.
      destruct (decide (s' = s)) as [->|Hns].
      * rewrite lookup_insert_eq in Hl. injection Hl as <-.
        split; [reflexivity|]. split; [reflexivity|].
        apply keyed_snapshotAssignment.
      * rewrite lookup_insert_ne in Hl by congruence. apply Hk.
        destruct (m !! a); [exact Hl|]. simpl in Hl.
        now rewrite lookup_empty in Hl.
    + rewrite lookup_insert_ne in Hl by congruence. now apply Hk.
Qed.

(** The streams to add are streams of the new map. *)
Lemma walkNew_from_new old new :
  Forall (fun sa => exists a s, new !! a ≫= (fun as_ => as_ !! s) = Some sa)
         (walkNew old new).
Proof.
  unfold walkNew.
  set (R := fun sa => exists a s, new !! a ≫= (fun as_ => as_ !! s) = Some sa).
  apply (foldl_preserves (Forall R) (fun kv => new !! fst kv = Some (snd kv)));
    [constructor | apply Forall_map_to_list |].
  intros saAdd [account nasa] HsaAdd Hnew. simpl in Hnew.
  apply (foldl_preserves (Forall R) (fun kv => nasa !! fst kv = Some (snd kv)));
    [assumption | apply Forall_map_to_list |].
  intros acc [sn sa] Hacc Hsn. simpl in Hsn.
  destruct (default ∅ (old !! account) !! sn); [assumption|].
  apply Forall_app. split; [assumption|]. constructor; [|constructor].
  exists account, sn. now rewrite Hnew.
Qed.

Section Invariant.

Context (LookupAccount : string -> option AccountT).
Context (decodeStreamAssignment : list byte -> option streamAssignment).
Context (decodeConsumerAssignment : list byte -> option consumerAssignment).
Context (decodeMetaSnapshot : list byte -> option (list writeableStreamAssignment)).

Hypothesis LookupAccount_Name :
  forall n acc, LookupAccount n = Some acc -> acc_Name acc = n.

(** [consumers] is not an exported field: a decoded assignment comes with
    its consumers filed by name, if it comes with any. *)
Hypothesis decoded_keyed :
  forall payload sa, decodeStreamAssignment payload = Some sa -> keyed_consumers sa.

Lemma well_keyed_applyMetaSnapshot js blob :
  well_keyed (streams js) ->
  well_keyed (streams (fst (applyMetaSnapshot LookupAccount decodeMetaSnapshot js blob))).
Proof.
  intros Hwk. unfold applyMetaSnapshot.
  destruct (decodeMetaSnapshot blob) as [wsas|]; [|assumption].
  destruct (walkOld _ _) as [saDel saChk]. destruct (walkChk _ _) as [caAdd caDel].
  simpl.
  apply (foldl_preserves (fun js => well_keyed (streams js)) (fun _ => True));
    [| apply List.Forall_forall; auto
     | intros; now apply well_keyed_processConsumerAssignment].
  apply (foldl_preserves (fun js => well_keyed (streams js)) (fun _ => True));
    [| apply List.Forall_forall; auto
     | intros; now apply well_keyed_processConsumerRemoval].
  apply (foldl_preserves (fun js => well_keyed (streams js)) keyed_consumers).
  - apply (foldl_preserves (fun js => well_keyed (streams js)) (fun _ => True));
      [assumption | apply List.Forall_forall; auto
       | intros; now apply well_keyed_processStreamRemoval].
  - eapply List.Forall_impl; [|apply walkNew_from_new].
    intros sa (a & s & Hsa).
    now apply (proj2 (well_keyed_snapshotStreams wsas) a s sa).
  - intros js1 sa Hjs1 Hsa.
    apply (foldl_preserves (fun js => well_keyed (streams js)) (fun _ => True));
      [| apply List.Forall_forall; auto
       | intros; now apply well_keyed_processConsumerAssignment].
    now apply well_keyed_processStreamAssignment.
Qed.

(** X9.  Applying committed meta entries keeps the map well keyed: every
    assignment sits under its own account and stream name, every consumer
    under its own name, and no account is left with an empty stream map.
    This holds for every batch, also one that stops at a [return] or a
    panic. *)
Theorem applyMetaEntries_well_keyed js entries :
  well_keyed (streams js) ->
  well_keyed (streams (fst (applyMetaEntries LookupAccount decodeStreamAssignment
                              decodeConsumerAssignment decodeMetaSnapshot
                              js entries))).
Proof.
  revert js. induction entries as [|e entries IH]; intros js Hwk; simpl;
    [assumption|].
  destruct (Type_ e).
  - destruct (Data e) as [|op payload]; [assumption|].
    destruct (entryOp_of_tag (byte.unsigned op)) as [[]|]; try assumption.
    + destruct (decodeStreamAssignment payload) as [sa|] eqn:Hd; [|assumption].
      apply IH. apply well_keyed_processStreamAssignment; eauto.
    + destruct (decodeConsumerAssignment payload) as [ca|]; [|assumption].
      apply IH. now apply well_keyed_processConsumerAssignment.
    + destruct (decodeStreamAssignment payload) as [sa|]; [|assumption].
      apply IH. now apply well_keyed_processStreamRemoval.
    + destruct (decodeConsumerAssignment payload) as [ca|]; [|assumption].
      apply IH. now apply well_keyed_processConsumerRemoval.
  - apply IH. now apply well_keyed_applyMetaSnapshot.
Qed.

End Invariant.


(** ** The meta snapshot *)

(** The writable form of an assignment: its consumers as a list. *)
Definition writeable (sa : streamAssignment) : writeableStreamAssignment :=
  mkWSA (sa_Client sa) (sa_Config sa) (sa_Group sa) (sa_Sync sa)
        (map snd (map_to_list (consumers sa))).

(** The list [metaSnapshot] marshals: one entry per assignment, account by
    account. *)
Definition metaSnapshotStreams (js : jetStream) : list writeableStreamAssignment :=
  foldl (fun streams '(_, asa) =>
           foldl (fun streams '(_, sa) => streams ++ [writeable sa])
                 streams (map_to_list asa))
        [] (map_to_list (streams js)).

(** [metaSnapshot]: nothing for an empty list, else the list marshalled and
    compressed ([json.Marshal], then [s2.EncodeBetter]). *)
Definition metaSnapshot (encode : list writeableStreamAssignment -> list byte)
    (js : jetStream) : list byte :=
  let wsas := metaSnapshotStreams js in
  if (len wsas =? 0)%Z then [] else encode wsas.

(** What a snapshot does not carry of an assignment: its reply subject. *)
Definition withoutReply (sa : streamAssignment) : streamAssignment :=
  mkSA (sa_Client sa) (sa_Config sa) (sa_Group sa) (sa_Sync sa) "" (consumers sa).

Definition withoutReplies (m : gmap string (gmap string streamAssignment))
    : gmap string (gmap string streamAssignment) :=
  fmap (M := gmap string) (fmap (M := gmap string) withoutReply) m.

Definition lookup2 (m : gmap string (gmap string streamAssignment))
    (a s : string) : option streamAssignment :=
  m !! a ≫= (fun as_ => as_ !! s).

Lemma nested_map_eq (m1 m2 : gmap string (gmap string streamAssignment)) :
  no_empty m1 -> no_empty m2 ->
  (forall a s, lookup2 m1 a s = lookup2 m2 a s) -> m1 = m2.
Proof.
  intros H1 H2 Heq. apply map_eq. intros a.
  destruct (m1 !! a) as [x|] eqn:Hx, (m2 !! a) as [y|] eqn:Hy.
  - f_equal. apply map_eq. intros s. specialize (Heq a s).
    unfold lookup2 in Heq. now rewrite Hx, Hy in Heq.
  - destruct (map_choose x (H1 a x Hx)) as (s & v & Hs).
    specialize (Heq a s). unfold lookup2 in Heq. rewrite Hx, Hy in Heq.
    simpl in Heq. congruence.
  - destruct (map_choose y (H2 a y Hy)) as (s & v & Hs).
    specialize (Heq a s). unfold lookup2 in Heq. rewrite Hx, Hy in Heq.
    simpl in Heq. congruence.
  - reflexivity.
Qed.

(** Membership in a list extended by one element. *)
Ltac snoc_mem :=
  repeat split; try reflexivity;
  first [ apply elem_of_app; left; solve [eauto]
        | apply elem_of_app; right; apply list_elem_of_singleton; reflexivity ].

Lemma foldl_snoc {A B} (f : A -> B -> A) init l x :
  foldl f init (l ++ [x]) = f (foldl f init l) x.
Proof. now rewrite foldl_app. Qed.

(** Rebuilding a consumer map from its values. *)
Lemma consumers_rebuilt (cm : gmap string consumerAssignment) :
  (forall c ca, cm !! c = Some ca -> ca_Name ca = c) ->
  foldl (fun m ca => <[ca_Name ca := ca]> m) ∅ (map snd (map_to_list cm)) = cm.
Proof.
  intros Hkeyed. apply map_eq. intros c.
  assert (forall l : list consumerAssignment,
            (forall ca, ca ∈ l -> ca_Name ca = c -> cm !! c = Some ca) ->
            foldl (fun m ca => <[ca_Name ca := ca]> m)
                  (∅ : gmap string consumerAssignment) l !! c
            = match cm !! c with
              | Some ca => if decide (Exists (fun x => ca_Name x = c) l)
                           then Some ca else None
              | None => None
              end) as Hgen.
  { induction l as [|x l IH] using rev_ind; intros Hl.
    - cbn [foldl]. rewrite lookup_empty. destruct (cm !! c); [|reflexivity].
      case_decide as Hex; [inversion Hex | reflexivity].
    - rewrite foldl_snoc. destruct (decide (ca_Name x = c)) as [Hx|Hx].
      + rewrite <- Hx at 1. rewrite lookup_insert_eq.
        rewrite (Hl x); [| snoc_mem | exact Hx].
        rewrite decide_True; [reflexivity|].
        apply Exists_app. right. now constructor.
      + rewrite lookup_insert_ne by exact Hx.
        rewrite IH by (intros ca Hin; apply Hl; snoc_mem).
        destruct (cm !! c); [|reflexivity].
        destruct (decide (Exists _ l)) as [He|He].
        * rewrite decide_True; [reflexivity|]. apply Exists_app. now left.
        * rewrite decide_False; [reflexivity|]. intros He'.
          apply Exists_app in He' as [He'|He']; [contradiction|].
          inversion He' as [? ? Hn|? ? Hn]; [contradiction | inversion Hn]. }
  rewrite Hgen.
  - destruct (cm !! c) as [ca|] eqn:Hc; [|reflexivity].
    rewrite decide_True; [reflexivity|].
    apply Exists_exists. exists ca. split; [|now apply Hkeyed].
    apply list_elem_of_fmap. exists (c, ca). split; [reflexivity|].
    now apply elem_of_map_to_list.
  - intros ca Hin Hname.
    apply list_elem_of_fmap in Hin as ([c' ca'] & -> & Hin).
    apply elem_of_map_to_list in Hin. simpl in *.
    now rewrite <- Hname, (Hkeyed _ _ Hin).
Qed.

Lemma snapshotAssignment_writeable sa :
  keyed_consumers sa -> snapshotAssignment (writeable sa) = withoutReply sa.
Proof.
  intros Hk. unfold snapshotAssignment, writeable, withoutReply. simpl.
  now rewrite consumers_rebuilt.
Qed.

Lemma metaSnapshotStreams_concat js :
  metaSnapshotStreams js
  = concat (map (fun kv => map (fun kv' => writeable (snd kv')) (map_to_list (snd kv)))
                (map_to_list (streams js))).
Proof.
  unfold metaSnapshotStreams.
  assert (forall (l : list (string * streamAssignment)) acc,
            foldl (fun streams '(_, sa) => streams ++ [writeable sa]) acc l
            = acc ++ map (fun kv' => writeable (snd kv')) l) as Hinner.
  { induction l as [|[k sa] l IH]; intros acc; simpl.
    - now rewrite app_nil_r.
    - rewrite IH. now rewrite <- app_assoc. }
  assert (forall (l : list (string * gmap string streamAssignment)) acc,
            foldl (fun streams '(_, asa) =>
                     foldl (fun streams '(_, sa) => streams ++ [writeable sa])
                           streams (map_to_list asa)) acc l
            = acc ++ concat (map (fun kv => map (fun kv' => writeable (snd kv'))
                                              (map_to_list (snd kv))) l)) as Houter.
  { induction l as [|[k asa] l IH]; intros acc; simpl.
    - now rewrite app_nil_r.
    - rewrite IH, Hinner. now rewrite <- app_assoc. }
  apply Houter.
Qed.

Lemma elem_of_metaSnapshotStreams js w :
  w ∈ metaSnapshotStreams js <->
  exists a s sa, lookupSA js a s = Some sa /\ w = writeable sa.
Proof.
  rewrite metaSnapshotStreams_concat, list_elem_of_In, in_concat. split.
  - intros (l & Hl & Hw). apply in_map_iff in Hl as ([a asa] & <- & Ha).
    apply in_map_iff in Hw as ([s sa] & <- & Hs).
    apply list_elem_of_In, elem_of_map_to_list in Ha, Hs. simpl in *.
    exists a, s, sa. split; [|reflexivity]. unfold lookupSA. now rewrite Ha.
  - intros (a & s & sa & Hsa & ->). unfold lookupSA in Hsa.
    destruct (streams js !! a) as [asa|] eqn:Ha; [|discriminate].
    exists (map (fun kv' => writeable (snd kv')) (map_to_list asa)). split.
    + apply in_map_iff. exists (a, asa). split; [reflexivity|].
      now apply list_elem_of_In, elem_of_map_to_list.
    + apply in_map_iff. exists (s, sa). split; [reflexivity|].
      now apply list_elem_of_In, elem_of_map_to_list.
Qed.

Lemma lookup2_snapshotStreams wsas a s :
  forall v,
  (forall w, w ∈ wsas -> Account (w_Client w) = a -> Name (w_Config w) = s ->
             snapshotAssignment w = v) ->
  lookup2 (snapshotStreams wsas) a s
  = if decide (Exists (fun w => Account (w_Client w) = a /\ Name (w_Config w) = s) wsas)
    then Some v else None.
Proof.
  unfold snapshotStreams. intros v.
  induction wsas as [|x l IH] using rev_ind; intros Hl.
  - cbn [foldl]. unfold lookup2. rewrite lookup_empty. cbn [mbind option_bind].
    case_decide as Hex; [inversion Hex | reflexivity].
  - rewrite foldl_snoc. cbv zeta.
    set (m := foldl _ ∅ l) in *.
    assert (lookup2 m a s
            = if decide (Exists (fun w => Account (w_Client w) = a
                                          /\ Name (w_Config w) = s) l)
              then Some v else None) as IH'
      by (apply IH; intros w Hin; apply Hl; snoc_mem).
    destruct (decide (Account (w_Client x) = a /\ Name (w_Config x) = s))
      as [[Hxa Hxs]|Hx].
    + unfold lookup2. rewrite Hxa, lookup_insert_eq. simpl.
      rewrite Hxs, lookup_insert_eq.
      rewrite (Hl x); [| snoc_mem | assumption | assumption].
      rewrite decide_True; [reflexivity|].
      apply Exists_app. right. constructor. now split.
    + assert (lookup2 (<[Account (w_Client x) :=
                           <[Name (w_Config x) := snapshotAssignment x]>
                             (default ∅ (m !! Account (w_Client x)))]> m) a s
              = lookup2 m a s) as ->.
      { unfold lookup2.
        destruct (decide (Account (w_Client x) = a)) as [Hxa|Hxa].
        - rewrite Hxa, lookup_insert_eq. simpl.
          rewrite lookup_insert_ne by (intros Hxs; apply Hx; now split).
          destruct (m !! a); [reflexivity|]. simpl. apply lookup_empty.
        - now rewrite lookup_insert_ne by exact Hxa. }
      rewrite IH'.
      destruct (decide (Exists _ l)) as [He|He].
      * rewrite decide_True; [reflexivity|]. apply Exists_app. now left.
      * rewrite decide_False; [reflexivity|]. intros He'.
        apply Exists_app in He' as [He'|He']; [contradiction|].
        inversion He' as [? ? Hn|? ? Hn]; [contradiction | inversion Hn].
Qed.

(** X10.  The snapshot carries the whole map: rebuilding the assignment map
    from the list [metaSnapshot] marshals gives the map back, every
    assignment with its consumers, and only the reply subjects, which the
    writable form has no field for, are blank. *)
Theorem snapshot_rebuilds_map js :
  well_keyed (streams js) ->
  snapshotStreams (metaSnapshotStreams js) = withoutReplies (streams js).
Proof.
  intros [Hne Hk]. unfold withoutReplies. apply nested_map_eq.
  - apply well_keyed_snapshotStreams.
  - intros a asa Hl. rewrite lookup_fmap in Hl.
    destruct (streams js !! a) as [x|] eqn:Hx; [|discriminate].
    simpl in Hl. injection Hl as <-. intros Hemp.
    apply fmap_empty_inv in Hemp. now apply (Hne a x).
  - intros a s.
    assert (lookup2 (fmap (M := gmap string) (fmap (M := gmap string) withoutReply)
                       (streams js)) a s
            = withoutReply <$> lookupSA js a s) as ->.
    { unfold lookup2, lookupSA. rewrite lookup_fmap.
      destruct (streams js !! a); [|reflexivity]. simpl. apply lookup_fmap. }
    destruct (lookupSA js a s) as [sa|] eqn:Hsa.
    + rewrite (lookup2_snapshotStreams _ a s (withoutReply sa)).
      * rewrite decide_True; [reflexivity|].
        apply Exists_exists. exists (writeable sa). split.
        -- apply elem_of_metaSnapshotStreams. eauto.
        -- rewrite lookupSA_bind in Hsa. destruct (Hk a s sa Hsa) as (? & ? & _).
           now split.
      * intros w Hw Hwa Hws.
        apply elem_of_metaSnapshotStreams in Hw as (a' & s' & sa' & Hsa' & ->).
        rewrite lookupSA_bind in Hsa'.
        destruct (Hk a' s' sa' Hsa') as (Ha' & Hs' & Hkc). simpl in Hwa, Hws.
        rewrite Ha' in Hwa. rewrite Hs' in Hws. subst a' s'.
        assert (sa' = sa) as ->.
        { rewrite lookupSA_bind in Hsa. congruence. }
        now apply snapshotAssignment_writeable.
    + rewrite (lookup2_snapshotStreams _ a s (withoutReply (mkSA (mkClientInfo "")
                 (mkStreamConfig "" 0) (mkRaftGroup "" [] None) "" "" ∅))).
      * rewrite decide_False; [reflexivity|]. intros Hex.
        apply Exists_exists in Hex as (w & Hw & Hwa & Hws).
        apply elem_of_metaSnapshotStreams in Hw as (a' & s' & sa' & Hsa' & ->).
        pose proof Hsa' as Hsa''. rewrite lookupSA_bind in Hsa''.
        destruct (Hk a' s' sa' Hsa'') as (Ha' & Hs' & _). simpl in Hwa, Hws.
        rewrite Ha' in Hwa. rewrite Hs' in Hws. subst a' s'. congruence.
      * intros w Hw Hwa Hws. exfalso.
        apply elem_of_metaSnapshotStreams in Hw as (a' & s' & sa' & Hsa' & ->).
        pose proof Hsa' as Hsa''. rewrite lookupSA_bind in Hsa''.
        destruct (Hk a' s' sa' Hsa'') as (Ha' & Hs' & _). simpl in Hwa, Hws.
        rewrite Ha' in Hwa. rewrite Hs' in Hws. subst a' s'. congruence.
Qed.

(** X11.  With an encoder that gives bytes for every list that is not
    empty, as marshalling and compressing do, [metaSnapshot] returns no
    bytes exactly when no stream is assigned: the list it marshals is empty
    only then, and otherwise it returns the encoding of that list. *)
Theorem metaSnapshot_empty encode js :
  no_empty (streams js) ->
  (forall wsas, wsas <> [] -> encode wsas <> []) ->
  (metaSnapshot encode js = [] <-> streams js = ∅)
  /\ (metaSnapshotStreams js = [] <-> streams js = ∅)
  /\ (metaSnapshotStreams js <> [] ->
      metaSnapshot encode js = encode (metaSnapshotStreams js)).
Proof.
  intros Hne Hencode.
  assert (streams js = ∅ -> metaSnapshotStreams js = []) as Hempty
    by (intros Hemp; now rewrite metaSnapshotStreams_concat, Hemp, map_to_list_empty).
  assert (metaSnapshotStreams js = [] -> streams js = ∅) as Hlist.
  { intros Hnil. apply map_empty. intros a.
    destruct (streams js !! a) as [asa|] eqn:Ha; [|reflexivity]. exfalso.
    destruct (map_choose asa (Hne a asa Ha)) as (s & sa & Hs).
    assert (writeable sa ∈ metaSnapshotStreams js) as Hin.
    { apply elem_of_metaSnapshotStreams. exists a, s, sa. split; [|reflexivity].
      unfold lookupSA. now rewrite Ha. }
    rewrite Hnil in Hin. inversion Hin. }
  assert (metaSnapshotStreams js <> [] ->
          metaSnapshot encode js = encode (metaSnapshotStreams js)) as Hbytes.
  { intros Hnn. unfold metaSnapshot. cbv zeta.
    destruct (Z.eqb_spec (len (metaSnapshotStreams js)) 0) as [Hz|Hnz];
      [|reflexivity].
    exfalso. apply Hnn. unfold len in Hz. apply length_zero_iff_nil. lia. }
  split; [|split; [split; assumption | exact Hbytes]].
  split.
  - intros Hnone. apply Hlist.
    destruct (metaSnapshotStreams js) as [|wsa wsas] eqn:Hl; [reflexivity|].
    exfalso. apply (Hencode (wsa :: wsas)); [discriminate|].
    rewrite <- Hnone. symmetry. apply Hbytes. discriminate.
  - intros Hemp. unfold metaSnapshot. now rewrite (Hempty Hemp).
Qed.

(** ** Restoring a snapshot on a peer that holds nothing *)

(** The consumers of every stream of the snapshot name that stream as
    their parent. *)
Definition placed (wsas : list writeableStreamAssignment) : Prop :=
  forall wsa ca, wsa ∈ wsas -> ca ∈ w_Consumers wsa ->
    Account (ca_Client ca) = Account (w_Client wsa)
    /\ ca_Stream ca = Name (w_Config wsa).

Lemma processConsumerAssignment_present js ca sa :
  lookupSA js (Account (ca_Client ca)) (ca_Stream ca) = Some sa ->
  consumers sa !! ca_Name ca = Some ca ->
  streams (processConsumerAssignment js ca) = streams js.
Proof.
  intros Hsa Hca. rewrite processConsumerAssignment_streams.
  unfold lookupSA in Hsa.
  destruct (streams js !! Account (ca_Client ca)) as [asa|] eqn:Ha; [|reflexivity].
  rewrite Hsa.
  assert (withConsumer sa ca = sa) as ->.
  { unfold withConsumer. rewrite insert_id by exact Hca. now destruct sa. }
  rewrite (insert_id asa) by exact Hsa. now apply insert_id.
Qed.

Lemma walkNew_empty new :
  walkNew ∅ new
  = concat (map (fun kv => map snd (map_to_list (snd kv))) (map_to_list new)).
Proof.
  unfold walkNew.
  assert (forall (l : list (string * streamAssignment)) acc,
            foldl (fun saAdd '(sn, sa) =>
                     match (∅ : gmap string streamAssignment) !! sn with
                     | None => saAdd ++ [sa]
                     | Some _ => saAdd
                     end) acc l
            = acc ++ map snd l) as Hinner.
  { induction l as [|[k sa] l IH]; intros acc; simpl.
    - now rewrite app_nil_r.
    - rewrite lookup_empty, IH. now rewrite <- app_assoc. }
  assert (forall (l : list (string * gmap string streamAssignment)) acc,
            foldl (fun saAdd '(account, nasa) =>
                     let asa := default ∅ ((∅ : gmap string (gmap string streamAssignment))
                                             !! account) in
                     foldl (fun saAdd '(sn, sa) =>
                              match asa !! sn with
                              | None => saAdd ++ [sa]
                              | Some _ => saAdd
                              end) saAdd (map_to_list nasa)) acc l
            = acc ++ concat (map (fun kv => map snd (map_to_list (snd kv))) l))
    as Houter.
  { induction l as [|[k asa] l IH]; intros acc; simpl.
    - now rewrite app_nil_r.
    - rewrite IH, lookup_empty. simpl. rewrite Hinner. now rewrite <- app_assoc. }
  apply Houter.
Qed.

Lemma elem_of_walkNew_empty new sa :
  sa ∈ walkNew ∅ new <-> exists a s, lookup2 new a s = Some sa.
Proof.
  rewrite walkNew_empty, list_elem_of_In, in_concat. split.
  - intros (l & Hl & Hw). apply in_map_iff in Hl as ([a asa] & <- & Ha).
    apply in_map_iff in Hw as ([s x] & <- & Hs).
    apply list_elem_of_In, elem_of_map_to_list in Ha, Hs. simpl in *.
    exists a, s. unfold lookup2. now rewrite Ha.
  - intros (a & s & Hsa). unfold lookup2 in Hsa.
    destruct (new !! a) as [asa|] eqn:Ha; [|discriminate].
    exists (map snd (map_to_list asa)). split.
    + apply in_map_iff. exists (a, asa). split; [reflexivity|].
      now apply list_elem_of_In, elem_of_map_to_list.
    + apply in_map_iff. exists (s, sa). split; [reflexivity|].
      now apply list_elem_of_In, elem_of_map_to_list.
Qed.

(** The consumers of a rebuilt assignment are consumers of the snapshot
    entry it was rebuilt from. *)
Lemma consumers_snapshotAssignment wsa c ca :
  consumers (snapshotAssignment wsa) !! c = Some ca -> ca ∈ w_Consumers wsa.
Proof.
  unfold snapshotAssignment. simpl.
  induction (w_Consumers wsa) as [|x l IH] using rev_ind.
  - simpl. now rewrite lookup_empty.
  - rewrite foldl_snoc. destruct (decide (c = ca_Name x)) as [->|Hne].
    + rewrite lookup_insert_eq. intros [= <-]. snoc_mem.
    + rewrite lookup_insert_ne by congruence. intros Hl. snoc_mem.
Qed.

Lemma snapshotStreams_from wsas a s sa :
  lookup2 (snapshotStreams wsas) a s = Some sa ->
  exists wsa, wsa ∈ wsas /\ sa = snapshotAssignment wsa.
Proof.
  unfold snapshotStreams.
  induction wsas as [|x l IH] using rev_ind.
  - simpl. unfold lookup2. now rewrite lookup_empty.
  - rewrite foldl_snoc. cbv zeta. set (m := foldl _ ∅ l) in *.
    unfold lookup2. destruct (decide (Account (w_Client x) = a)) as [Hxa|Hxa].
    + rewrite Hxa, lookup_insert_eq. simpl.
      destruct (decide (Name (w_Config x) = s)) as [Hxs|Hxs].
      * rewrite Hxs, lookup_insert_eq. intros [= <-]. exists x. snoc_mem.
      * rewrite lookup_insert_ne by exact Hxs. intros Hl.
        destruct IH as (w & Hw & ->).
        { unfold lookup2. destruct (m !! a); [exact Hl|].
          simpl in Hl. now rewrite lookup_empty in Hl. }
        exists w. snoc_mem.
    + rewrite lookup_insert_ne by exact Hxa. intros Hl.
      destruct (IH Hl) as (w & Hw & ->). exists w. snoc_mem.
Qed.

Section Restore.

Context (LookupAccount : string -> option AccountT).
Context (decodeMetaSnapshot : list byte -> option (list writeableStreamAssignment)).

Hypothesis LookupAccount_Name :
  forall n acc, LookupAccount n = Some acc -> acc_Name acc = n.

(** One round of the add loop: the stream, then its consumers. *)
Definition addStream (js : jetStream) (sa : streamAssignment) : jetStream :=
  foldl processConsumerAssignment (processStreamAssignment LookupAccount js sa)
        (map snd (map_to_list (consumers sa))).

(** The map holds nothing that the new map does not hold in the same
    place. *)
Definition within (new : gmap string (gmap string streamAssignment))
    (js : jetStream) : Prop :=
  forall a s x, lookupSA js a s = Some x -> lookup2 new a s = Some x.

Lemma addStream_step new js sa :
  well_keyed new ->
  (forall c ca, consumers sa !! c = Some ca ->
     Account (ca_Client ca) = Account (sa_Client sa)
     /\ ca_Stream ca = Name (sa_Config sa)) ->
  lookup2 new (Account (sa_Client sa)) (Name (sa_Config sa)) = Some sa ->
  is_Some (LookupAccount (Account (sa_Client sa))) ->
  no_empty (streams js) -> within new js ->
  no_empty (streams (addStream js sa))
  /\ within new (addStream js sa)
  /\ lookupSA (addStream js sa) (Account (sa_Client sa)) (Name (sa_Config sa))
     = Some sa
  /\ (forall a s x, lookupSA js a s = Some x ->
        lookupSA (addStream js sa) a s = Some x).
Proof.
  intros Hnew Hplaced Hsa [acc Hacc] Hne Hin.
  set (a := Account (sa_Client sa)) in *. set (s := Name (sa_Config sa)) in *.
  set (js1 := processStreamAssignment LookupAccount js sa).
  assert (keyed_consumers sa) as Hkc by (apply (proj2 Hnew a s sa Hsa)).
  assert (lookupSA js1 a s = Some sa
          /\ (forall a' s', (a', s') <> (a, s) ->
                lookupSA js1 a' s' = lookupSA js a' s')) as [Hat Hother].
  { subst js1. split.
    - rewrite processStreamAssignment_lookup by exact LookupAccount_Name.
      fold a s. rewrite Hacc.
      destruct (lookupSA js a s) as [x|] eqn:Hx.
      + f_equal. apply Hin in Hx. congruence.
      + rewrite decide_True by (split; reflexivity). reflexivity.
    - intros a' s' Hne'.
      rewrite processStreamAssignment_lookup by exact LookupAccount_Name.
      fold a s. rewrite Hacc.
      destruct (lookupSA js a s); [reflexivity|].
      rewrite decide_False; [reflexivity|]. intros [-> ->]. now apply Hne'. }
  assert (no_empty (streams js1)) as Hne1.
  { subst js1.
    destruct (processStreamAssignment_streams LookupAccount js sa LookupAccount_Name)
      as [->|[_ ->]]; [assumption|].
    intros a' asa' Hl. destruct (decide (a' = Account (sa_Client sa))) as [->|Hna].
    - rewrite lookup_insert_eq in Hl. injection Hl as <-. apply insert_non_empty.
    - rewrite lookup_insert_ne in Hl by congruence. eauto. }
  assert (streams (addStream js sa) = streams js1) as Hstreams.
  { unfold addStream. fold js1.
    apply (foldl_preserves (fun js' => streams js' = streams js1)
                           (fun ca => consumers sa !! ca_Name ca = Some ca
                                      /\ Account (ca_Client ca) = a
                                      /\ ca_Stream ca = s)).
    - reflexivity.
    - apply List.Forall_forall. intros ca Hca.
      apply list_elem_of_In, list_elem_of_fmap in Hca as ([c ca'] & -> & Hca).
      apply elem_of_map_to_list in Hca. simpl.
      rewrite (Hkc _ _ Hca). split; [exact Hca|]. now apply (Hplaced c).
    - intros js' ca Hjs' (Hca & Hcaa & Hcas).
      rewrite <- Hjs'. apply (processConsumerAssignment_present _ _ sa); [|exact Hca].
      rewrite Hcaa, Hcas.
      now rewrite (lookupSA_streams js' js1 Hjs'). }
  pose proof (lookupSA_streams _ _ Hstreams) as Hlk.
  split; [now rewrite Hstreams|]. split; [|split].
  - intros a' s' x. rewrite Hlk.
    destruct (decide ((a', s') = (a, s))) as [[= -> ->]|Hne'].
    + rewrite Hat. intros [= <-]. exact Hsa.
    + rewrite Hother by exact Hne'. apply Hin.
  - now rewrite Hlk.
  - intros a' s' x Hx. rewrite Hlk.
    destruct (decide ((a', s') = (a, s))) as [[= -> ->]|Hne'].
    + rewrite Hat. f_equal. apply Hin in Hx. congruence.
    + now rewrite Hother by exact Hne'.
Qed.

(** X12.  A peer whose map is empty ends, after [applyMetaSnapshot], with
    exactly the map decoded from the snapshot, provided it resolves the
    accounts of the snapshot and the snapshot's consumers name the stream
    they are listed under. *)
Theorem applyMetaSnapshot_restores js blob wsas :
  streams js = ∅ ->
  decodeMetaSnapshot blob = Some wsas ->
  placed wsas ->
  (forall wsa, wsa ∈ wsas -> is_Some (LookupAccount (Account (w_Client wsa)))) ->
  streams (fst (applyMetaSnapshot LookupAccount decodeMetaSnapshot js blob))
  = snapshotStreams wsas.
Proof.
  intros Hempty Hdec Hplaced Haccs. unfold applyMetaSnapshot.
  rewrite Hdec, Hempty. unfold walkOld at 1. rewrite map_to_list_empty.
  cbn [foldl walkChk]. cbn [fst].
  set (new := snapshotStreams wsas).
  pose proof (well_keyed_snapshotStreams wsas) as Hnew. fold new in Hnew.
  change (streams (foldl addStream js (walkNew ∅ new)) = new).
  assert (forall l js0,
            (forall sa, sa ∈ l -> exists a s, lookup2 new a s = Some sa) ->
            no_empty (streams js0) -> within new js0 ->
            let js' := foldl addStream js0 l in
            no_empty (streams js') /\ within new js'
            /\ (forall sa, sa ∈ l ->
                  lookupSA js' (Account (sa_Client sa)) (Name (sa_Config sa))
                  = Some sa)) as Hfold.
  { induction l as [|sa l IH] using rev_ind; intros js0 Hl Hne0 Hin0; cbv zeta.
    - split; [assumption|]. split; [assumption|]. intros sa Hsa. inversion Hsa.
    - rewrite foldl_snoc.
      destruct (IH js0) as (Hne1 & Hin1 & Hall1);
        [intros x Hx; apply Hl; snoc_mem | assumption | assumption |].
      destruct (Hl sa) as (a & s & Hsa); [snoc_mem|].
      destruct (proj2 Hnew a s sa Hsa) as (Ha & Hs & Hkc). subst a s.
      destruct (snapshotStreams_from wsas _ _ sa Hsa) as (wsa & Hwsa & Heq).
      destruct (addStream_step new (foldl addStream js0 l) sa Hnew)
        as (Hne2 & Hin2 & Hat2 & Hkeep2); try assumption.
      + intros c ca Hca. subst sa.
        apply consumers_snapshotAssignment in Hca.
        destruct (Hplaced wsa ca Hwsa Hca). now simpl.
      + subst sa. simpl. now apply Haccs.
      + split; [assumption|]. split; [assumption|].
        intros x Hx. apply elem_of_app in Hx as [Hx|Hx].
        * apply Hkeep2. now apply Hall1.
        * apply list_elem_of_singleton in Hx. now subst x. }
  destruct (Hfold (walkNew ∅ new) js) as (Hne & Hin & Hall).
  - intros sa Hsa. now apply elem_of_walkNew_empty.
  - rewrite Hempty. intros a asa Hl. now rewrite lookup_empty in Hl.
  - intros a s x Hl. unfold lookupSA in Hl. rewrite Hempty in Hl.
    now rewrite lookup_empty in Hl.
  - apply nested_map_eq; [assumption | apply Hnew |].
    intros a s. fold (lookupSA (foldl addStream js (walkNew ∅ new)) a s).
    change (lookup2 (streams ?j) a s) with (streams j !! a ≫= (fun as_ => as_ !! s)).
    rewrite <- lookupSA_bind.
    destruct (lookup2 new a s) as [sa|] eqn:Hsa.
    + destruct (proj2 Hnew a s sa Hsa) as (Ha & Hs & _).
      rewrite <- Ha, <- Hs. apply Hall. apply elem_of_walkNew_empty.
      now exists a, s.
    + destruct (lookupSA _ a s) as [x|] eqn:Hx; [|reflexivity].
      apply Hin in Hx. congruence.
Qed.

End Restore.

(** ** Leading and being assigned *)

Lemma leads_single rg id :
  len (Peers rg) = 1%Z -> leads rg id = isMember rg id.
Proof.
  intros Hone. unfold leads, isMember. rewrite Hone. simpl. clear Hone.
  induction (Peers rg) as [|p l IH]; [reflexivity|]. simpl.
  rewrite IH, andb_true_r. now rewrite String.eqb_sym.
Qed.

(** X13.  A server that leads a stream is one of the stream's peers; for a
    group of a single peer, leading and being assigned are the same thing;
    and where [isConsumerLeader] answers [true], some consumer of the
    stream is assigned to this server. *)
Theorem leader_is_assigned js account stream :
  (isStreamLeader js account stream = true ->
   isStreamAssigned js account stream = true)
  /\ (forall sa, lookupSA js account stream = Some sa ->
        len (Peers (sa_Group sa)) = 1%Z ->
        isStreamLeader js account stream = isStreamAssigned js account stream)
  /\ (forall c, isConsumerLeader js account stream c = true ->
        exists c', isConsumerAssigned js account stream c' = true).
Proof.
  unfold isStreamLeader, isStreamAssigned, isConsumerLeader, isConsumerAssigned.
  destruct (lookupSA js account stream) as [sa|]; split; try discriminate.
  - apply isMember_leads.
  - split.
    + intros sa' [= <-]. apply leads_single.
    + intros _ Hex. apply existsb_exists in Hex as ([c' ca] & Hin & Hl).
      apply list_elem_of_In, elem_of_map_to_list in Hin. simpl in *.
      exists c'. rewrite Hin. now apply isMember_leads.
  - split; [discriminate|]. discriminate.
Qed.

(** ** Removals, where the leadership check returns *)

(** X5.  Where the stream's group has its node handle if this server is
    one of several peers of it, the leadership check with which
    [processStreamRemoval] starts returns, and the function takes the
    assignment out of the map and leaves every other one as it was; for an
    assignment the map does not hold it does nothing at all.  When it
    removes, it hands the delete to the stream replicator once, with
    whether this server led the stream before the removal; afterwards the
    server no longer leads it. *)
Theorem processStreamRemoval_spec js sa :
  streamNodeReady js (Account (sa_Client sa)) (Name (sa_Config sa)) = true ->
  let account := Account (sa_Client sa) in
  let stream := Name (sa_Config sa) in
  let js' := processStreamRemoval js sa in
  isStreamLeader_call js account stream = Some (isStreamLeader js account stream)
  /\ lookupSA js' account stream = None
  /\ (forall a s, (a, s) <> (account, stream) -> lookupSA js' a s = lookupSA js a s)
  /\ (lookupSA js account stream = None -> js' = js)
  /\ (is_Some (lookupSA js account stream) ->
      effects js' = effects js
                    ++ [ClusterDeleteStream sa (isStreamLeader js account stream)])
  /\ isStreamLeader_call js' account stream = Some false
  /\ isStreamAssigned js' account stream = false.
Proof.
  intros Hready account stream js'.
  destruct (processStreamRemoval_returns js sa)
    as (Hgone & Hothers & Habsent & Heffect & _ & Hassigned).
  split; [now apply isStreamLeader_call_spec|].
  split; [exact Hgone|]. split; [exact Hothers|]. split; [exact Habsent|].
  split; [exact Heffect|]. split; [|exact Hassigned].
  unfold isStreamLeader_call. cbv zeta in Hgone. subst account stream js'.
  now rewrite Hgone.
Qed.

(** X8.  Where every consumer group of the stream has its node handle if
    this server is one of several peers of it, the leadership check with
    which [processConsumerRemoval] starts returns, whatever the order in
    which it ranges over the consumers, and the function takes the
    consumer out of its stream, keeps the stream and its other consumers,
    and hands the delete to the consumer replicator in every case, also
    when the map held no such consumer or no such stream. *)
Theorem processConsumerRemoval_spec js ca :
  consumerNodesReady js (Account (ca_Client ca)) (ca_Stream ca) = true ->
  let account := Account (ca_Client ca) in
  let js' := processConsumerRemoval js ca in
  isConsumerLeader_call js account (ca_Stream ca) (ca_Name ca)
  = Some (isConsumerLeader js account (ca_Stream ca) (ca_Name ca))
  /\ consumerOf (streams js') account (ca_Stream ca) (ca_Name ca) = None
  /\ (forall a s c, (a, s, c) <> (account, ca_Stream ca, ca_Name ca) ->
        consumerOf (streams js') a s c = consumerOf (streams js) a s c)
  /\ (forall a s, is_Some (lookupSA js' a s) <-> is_Some (lookupSA js a s))
  /\ effects js'
     = effects js
       ++ [ClusterDeleteConsumer ca
             (isConsumerLeader js account (ca_Stream ca) (ca_Name ca))].
Proof.
  intros Hready account js'.
  destruct (processConsumerRemoval_returns js ca)
    as (Hgone & Hothers & Hstreams & Heffect).
  split; [now apply isConsumerLeader_call_ready|].
  split; [exact Hgone|]. split; [exact Hothers|]. split; [exact Hstreams|].
  exact Heffect.
Qed.

(** ** Instances *)

(** The removal of stream S1 as the decoder gives it, and what is left of
    [durableServer], which leads S1, after it. *)
Definition removeS1 : streamAssignment :=
  mkSA (mkClientInfo "$G") (mkStreamConfig "S1" 3) (trio "S-R3F-s" None) ""
       "_INBOX.3" ∅.

Lemma processStreamRemoval_spec_witness :
  let js' := processStreamRemoval durableServer removeS1 in
  isStreamLeader_call durableServer "$G" "S1" = Some true
  /\ lookupSA js' "$G" "S1" = None
  /\ effects js' = [ClusterDeleteStream removeS1 true]
  /\ isStreamLeader_call js' "$G" "S1" = Some false.
Proof.
  intros js'.
  destruct (processStreamRemoval_spec durableServer removeS1)
    as (Hcall & Hgone & _ & _ & Heffect & Hafter & _).
  - vm_compute. reflexivity.
  - split; [exact Hcall|]. split; [exact Hgone|]. split; [|exact Hafter].
    apply Heffect. eexists. vm_compute. reflexivity.
Defined.

Lemma processConsumerRemoval_spec_witness :
  let js' := processConsumerRemoval durableServer (durable None) in
  isConsumerLeader_call durableServer "$G" "S1" "D" = Some false
  /\ consumerOf (streams js') "$G" "S1" "D" = None
  /\ is_Some (lookupSA js' "$G" "S1")
  /\ effects js' = [ClusterDeleteConsumer (durable None) false].
Proof.
  intros js'.
  destruct (processConsumerRemoval_spec durableServer (durable None))
    as (Hcall & Hgone & _ & Hstreams & Heffect).
  - vm_compute. reflexivity.
  - split; [exact Hcall|]. split; [exact Hgone|]. split; [|exact Heffect].
    apply Hstreams. eexists. vm_compute. reflexivity.
Defined.

Definition restored5 : jetStream := mkJS (snapshotStreams snap5) "n1" [].

Lemma no_empty_serverWith_S1 : no_empty (streams (serverWith [mkStream "S1" []])).
Proof.
  intros a asa Hl. unfold serverWith in Hl. cbn [streams] in Hl.
  apply lookup_singleton_Some in Hl as [<- <-].
  intros Hemp. apply (f_equal (fun m => m !! "S1")) in Hemp.
  vm_compute in Hemp. discriminate.
Qed.

Lemma assign_then_remove_witness :
  streams (processStreamRemoval
             (processStreamAssignment allAccounts (serverWith [mkStream "S1" []])
                (mkStream "S2" []))
             (mkStream "S2" []))
  = streams (serverWith [mkStream "S1" []]).
Proof.
  apply assign_then_remove.
  - exact allAccounts_Name.
  - exact no_empty_serverWith_S1.
  - eexists. reflexivity.
  - vm_compute. reflexivity.
Defined.

Lemma stubDecodeSA_keyed payload sa :
  stubDecodeSA payload = Some sa -> keyed_consumers sa.
Proof.
  destruct payload; [discriminate|]. intros [= <-] c ca Hl.
  simpl in Hl. now rewrite lookup_empty in Hl.
Qed.

Lemma applyMetaEntries_well_keyed_witness :
  well_keyed
    (streams (fst (applyMetaEntries allAccounts stubDecodeSA stubDecodeCA
                     (stubDecodeSnapshot snap5) freshServer
                     [entry_S1; mkEntry EntrySnapshot [Byte.x01]; entry_bad;
                      entry_S2]))).
Proof.
  apply applyMetaEntries_well_keyed.
  - exact allAccounts_Name.
  - exact stubDecodeSA_keyed.
  - exact well_keyed_empty.
Defined.

Lemma snapshot_rebuilds_map_witness :
  snapshotStreams (metaSnapshotStreams restored5) = withoutReplies (streams restored5).
Proof.
  apply snapshot_rebuilds_map. apply (well_keyed_snapshotStreams snap5).
Defined.

Lemma metaSnapshot_empty_witness :
  (metaSnapshot (fun _ => [Byte.x01]) restored5 = [] <-> streams restored5 = ∅)
  /\ (metaSnapshotStreams restored5 = [] <-> streams restored5 = ∅)
  /\ (metaSnapshotStreams restored5 <> [] ->
      metaSnapshot (fun _ => [Byte.x01]) restored5
      = (fun _ => [Byte.x01]) (metaSnapshotStreams restored5)).
Proof.
  apply metaSnapshot_empty.
  - apply (well_keyed_snapshotStreams snap5).
  - intros wsas _. discriminate.
Defined.

Lemma placed_snap5 : placed snap5.
Proof.
  intros wsa ca Hw Hc. unfold snap5 in Hw.
  repeat (apply elem_of_cons in Hw as [->|Hw]); simpl in Hc;
    repeat (apply elem_of_cons in Hc as [->|Hc]);
    try (split; reflexivity); try (inversion Hc); inversion Hw.
Qed.

Lemma applyMetaSnapshot_restores_witness :
  streams (fst (applyMetaSnapshot allAccounts (stubDecodeSnapshot snap5)
                  freshServer [Byte.x01]))
  = snapshotStreams snap5.
Proof.
  apply applyMetaSnapshot_restores.
  - exact allAccounts_Name.
  - reflexivity.
  - reflexivity.
  - exact placed_snap5.
  - intros wsa _. eexists. reflexivity.
Defined.

End MetaFacts.

(** * Requests: what the meta leader does with an API request *)

Module Requests.

Import Meta.
Local Open Scope string_scope.
Local Open Scope Z_scope.
Local Open Scope list_scope.

Inductive apiError := jsInsufficientErr | ErrJetStreamStreamNotFound.

(** [s.sendAPIResponse(ci, acc, subject, reply, request, response)], with
    the error the response carries. *)
Record apiResponse := mkResponse {
  rs_Client : ClientInfo;
  rs_Account : option AccountT;
  rs_subject : string;
  rs_reply : string;
  rs_request : list byte;
  rs_Error : apiError
}.

(** What a handler does besides returning: it proposes an entry to the meta
    group, the opcode byte followed by the JSON of the assignment, or it
    answers the request. *)
Inductive action :=
| ProposeStream (op : entryOp) (sa : streamAssignment)
| ProposeConsumer (op : entryOp) (ca : consumerAssignment)
| Respond (r : apiResponse).

(** [ConsumerConfig], as far as the request handler reads it. *)
Record ConsumerConfig := mkConsumerConfig { Durable : string }.

Section Handlers.

(** The account registry; the meta group's peers, the transport's routes
    and the shuffle's draws, as [selectPeerGroup] takes them; the group
    name, made of the prefix, the peers and the storage type, and for
    several peers drawn from [nuid.Next()]; the sync
    subject, drawn from [rand.Int63()]; the names that successive calls of
    [createConsumerName] return; and [isDurableConsumer]. *)
Context (LookupAccount : string -> option AccountT).
Context (peers : list Placement.Peer) (hasRoute : string -> bool) (pick : nat -> nat).
Context (groupName : string -> list string -> string).
Context (syncSubjForStream : string).
Context (createConsumerName : nat -> string).
Context (isDurableConsumer : ConsumerConfig -> bool).

(** [createGroupForStream].  A negative replica count would panic in
    [nodes[:r]]; the count is taken to be non-negative. *)
Definition createGroupForStream (ourID : string) (cfg : StreamConfig)
    : option raftGroup :=
  let replicas := if (Replicas cfg =? 0)%Z then 1%Z else Replicas cfg in
  let group := Placement.selectPeerGroup hasRoute pick peers ourID replicas in
  if (len group =? 0)%Z then None
  else Some (mkRaftGroup (groupName "S" group) group None).

(** [createGroupForConsumer]: a new group with the same peer set as the
    stream. *)
Definition createGroupForConsumer (sa : streamAssignment) : option raftGroup :=
  let group := Peers (sa_Group sa) in
  if (len group =? 0)%Z then None
  else Some (mkRaftGroup (groupName "C" group) group None).

(** [s.getJetStreamCluster()] answers [nil] on a server that is not
    clustered: [cluster] is [None] there. *)
Definition jsClusteredStreamRequest (cluster : option jetStream)
    (ci : ClientInfo) (subject reply : string) (rmsg : list byte)
    (cfg : StreamConfig) : list action :=
  match cluster with
  | None => []
  | Some js =>
      (* Raft group selection and placement. *)
      match createGroupForStream (ourID js) cfg with
      | None =>
          [Respond (mkResponse ci (LookupAccount (Account ci)) subject reply rmsg
                      jsInsufficientErr)]
      | Some rg =>
          [ProposeStream assignStreamOp (mkSA ci cfg rg syncSubjForStream reply ∅)]
      end
  end.

Definition jsClusteredStreamDeleteRequest (cluster : option jetStream)
    (ci : ClientInfo) (stream subject reply : string) (rmsg : list byte)
    : list action :=
  match cluster with
  | None => []
  | Some js =>
      match lookupSA js (Account ci) stream with
      | None => []
      | Some osa =>
          [ProposeStream removeStreamOp
             (mkSA ci (sa_Config osa) (sa_Group osa) "" reply ∅)]
      end
  end.

(** The loop that draws an ephemeral name until one is free.  [i] is the
    number of draws made so far; the loop has no bound in the code, the
    model stops after [fuel] draws. *)
Fixpoint ephemeralName (taken : gmap string consumerAssignment)
    (fuel i : nat) : option string :=
  match fuel with
  | O => None
  | S fuel =>
      let oname := createConsumerName i in
      match taken !! oname with
      | Some _ => ephemeralName taken fuel (S i)
      | None => Some oname
      end
  end.

(** [None]: the name loop did not end within [fuel] draws. *)
Definition jsClusteredConsumerRequest (fuel : nat) (cluster : option jetStream)
    (ci : ClientInfo) (subject reply : string) (rmsg : list byte)
    (stream : string) (cfg : ConsumerConfig) : option (list action) :=
  match cluster with
  | None => Some []
  | Some js =>
      (* Lookup the stream assignment. *)
      match lookupSA js (Account ci) stream with
      | None =>
          Some [Respond (mkResponse ci (LookupAccount (Account ci)) subject reply
                           rmsg ErrJetStreamStreamNotFound)]
      | Some sa =>
          match createGroupForConsumer sa with
          | None =>
              Some [Respond (mkResponse ci (LookupAccount (Account ci)) subject
                               reply rmsg jsInsufficientErr)]
          | Some rg =>
              (* We need to set the ephemeral here before replicating. *)
              let oname :=
                if isDurableConsumer cfg then Some (Durable cfg)
                else ephemeralName (consumers sa) fuel 0 in
              match oname with
              | Some oname =>
                  Some [ProposeConsumer assignConsumerOp
                          (mkCA ci oname stream rg reply)]
              | None => None
              end
          end
      end
  end.

End Handlers.

(** ** Placement of a new stream *)

Lemma active_NoDup hasRoute ourID (peers : list Placement.Peer) :
  NoDup (map Placement.ID peers) ->
  NoDup (map Placement.ID
           (filter (fun p => Placement.active hasRoute ourID p = true) peers)).
Proof.
  intros Hnd. induction peers as [|p peers IH]; simpl.
  - constructor.
  - apply NoDup_cons in Hnd as [Hp Hnd].
    rewrite filter_cons. destruct (decide _); [|now apply IH].
    simpl. apply NoDup_cons. split; [|now apply IH].
    intros Hin. apply Hp.
    apply list_elem_of_fmap in Hin as (q & Hq & Hin).
    apply list_elem_of_fmap. exists q. split; [assumption|].
    apply list_elem_of_filter in Hin. tauto.
Qed.

(** The group [selectPeerGroup] answers with when enough peers are
    reachable, and its answer when too few are. *)
Lemma selectPeerGroup_group hasRoute pick peers ourID r :
  0 <= r -> NoDup (map Placement.ID peers) ->
  let reachable :=
    filter (fun p => Placement.active hasRoute ourID p = true) peers in
  let group := Placement.selectPeerGroup hasRoute pick peers ourID r in
  (r <= len reachable ->
     len group = r /\ NoDup group
     /\ forall id, id ∈ group ->
          id ∈ map Placement.ID peers /\ (id = ourID \/ hasRoute id = true))
  /\ (len reachable < r -> group = []).
Proof.
  intros Hr Hnd reachable group. subst group. unfold Placement.selectPeerGroup.
  fold reachable.
  assert (len (map Placement.ID reachable) = len reachable) as Hlen
    by (unfold len; now rewrite length_map).
  rewrite Hlen.
  pose proof (active_NoDup hasRoute ourID peers Hnd) as Hnd'. fold reachable in Hnd'.
  pose proof (Placement.Shuffle_Permutation pick
                (length (map Placement.ID reachable)) (map Placement.ID reachable))
    as Hperm.
  split.
  - intros Hge. replace (len reachable <? r) with false
      by (symmetry; apply Z.ltb_ge; lia).
    unfold slice_to. split; [|split].
    + unfold len in *. rewrite length_take, Hperm. lia.
    + eapply sublist_NoDup; [|apply sublist_take]. now rewrite Hperm.
    + intros id Hin.
      apply list_elem_of_lookup in Hin as (i & Hin).
      apply lookup_take_Some in Hin as [Hin _].
      apply list_elem_of_lookup_2 in Hin. rewrite Hperm in Hin.
      apply list_elem_of_fmap in Hin as (p & -> & Hp).
      apply list_elem_of_filter in Hp as [Hact Hp]. split.
      * apply list_elem_of_fmap. now exists p.
      * unfold Placement.active in Hact.
        apply orb_true_iff in Hact as [He|Hroute].
        -- left. now apply String.eqb_eq.
        -- now right.
  - intros Hlt. replace (len reachable <? r) with true
      by (symmetry; apply Z.ltb_lt; lia).
    reflexivity.
Qed.

(** X14.  A stream create request is answered with the insufficient
    resources error, and nothing is proposed, when fewer peers are
    reachable than the stream has replicas (one, for a count of zero).
    Otherwise one assignment is proposed and no answer is sent: it carries
    the request's client, config and reply subject, and a group of exactly
    that many distinct peers, each a meta peer that is this server or has a
    route. *)
Theorem jsClusteredStreamRequest_spec LookupAccount peers hasRoute pick groupName
    sync js ci subject reply rmsg cfg :
  0 <= Replicas cfg ->
  NoDup (map Placement.ID peers) ->
  let replicas := Z.max 1 (Replicas cfg) in
  let reachable :=
    filter (fun p => Placement.active hasRoute (ourID js) p = true) peers in
  let did := jsClusteredStreamRequest LookupAccount peers hasRoute pick groupName
               sync (Some js) ci subject reply rmsg cfg in
  (len reachable < replicas ->
     did = [Respond (mkResponse ci (LookupAccount (Account ci)) subject reply rmsg
                       jsInsufficientErr)])
  /\ (replicas <= len reachable ->
      exists rg,
        did = [ProposeStream assignStreamOp (mkSA ci cfg rg sync reply ∅)]
        /\ len (Peers rg) = replicas
        /\ NoDup (Peers rg)
        /\ node rg = None
        /\ forall id, id ∈ Peers rg ->
             id ∈ map Placement.ID peers /\ (id = ourID js \/ hasRoute id = true)).
Proof.
  intros Hrep Hnd replicas reachable did. subst did.
  unfold jsClusteredStreamRequest, createGroupForStream.
  assert ((if (Replicas cfg =? 0)%Z then 1 else Replicas cfg) = replicas) as ->
    by (subst replicas; destruct (Z.eqb_spec (Replicas cfg) 0); lia).
  destruct (selectPeerGroup_group hasRoute pick peers (ourID js) replicas
              ltac:(lia) Hnd) as [Henough Hfew].
  fold reachable in Henough, Hfew.
  set (group := Placement.selectPeerGroup hasRoute pick peers (ourID js) replicas) in *.
  split.
  - intros Hlt. now rewrite (Hfew Hlt).
  - intros Hge. destruct (Henough Hge) as (Hlen & Hdistinct & Hin).
    replace (len group =? 0)%Z with false by (symmetry; apply Z.eqb_neq; lia).
    eexists. split; [reflexivity|]. simpl. auto.
Qed.

Lemma jsClusteredStreamRequest_spec_witness :
  let peers := [Placement.mkPeer "n1"; Placement.mkPeer "n2"; Placement.mkPeer "n3"] in
  let hasRoute := fun id => String.eqb id "n3" in
  let ci := mkClientInfo "$G" in
  let cfg := mkStreamConfig "S1" 0 in
  let did := jsClusteredStreamRequest allAccounts peers hasRoute (fun _ => 0%nat)
               (fun _ _ => "S-R1F-x") "$SYS.JSC.SYNC.1" (Some freshServer) ci
               "$JS.API.STREAM.CREATE.S1" "_INBOX.1" [] cfg in
  exists rg,
    did = [ProposeStream assignStreamOp
             (mkSA ci cfg rg "$SYS.JSC.SYNC.1" "_INBOX.1" ∅)]
    /\ len (Peers rg) = 1
    /\ NoDup (Peers rg)
    /\ node rg = None
    /\ forall id, id ∈ Peers rg ->
         id ∈ map Placement.ID peers /\ (id = "n1" \/ hasRoute id = true).
Proof.
  intros peers hasRoute ci cfg did.
  assert (NoDup (map Placement.ID peers)) as Hnd by compute_done.
  apply (proj2 (jsClusteredStreamRequest_spec allAccounts peers hasRoute
                  (fun _ => 0%nat) (fun _ _ => "S-R1F-x") "$SYS.JSC.SYNC.1"
                  freshServer ci "$JS.API.STREAM.CREATE.S1" "_INBOX.1" []
                  cfg ltac:(simpl; lia) Hnd)).
  vm_compute. discriminate.
Defined.

(** ** Requests against the assignment map *)

Import MetaFacts.

(** X15.  A stream delete request for a stream the map does not hold does
    nothing: no entry is proposed and the requester gets no answer.  For a
    stream the map holds, the proposed removal carries the stored group and
    config with the requester's client and reply subject.  Where the
    stored group has its node handle if this server is one of several peers
    of it, the removal's leadership check returns, and applied to a
    well-keyed map the removal takes out exactly the requested stream and
    tells the stream replicator whether this server led it. *)
Theorem jsClusteredStreamDeleteRequest_spec js ci stream subject reply rmsg :
  well_keyed (streams js) ->
  let did := jsClusteredStreamDeleteRequest (Some js) ci stream subject reply rmsg in
  (lookupSA js (Account ci) stream = None -> did = [])
  /\ (forall osa, lookupSA js (Account ci) stream = Some osa ->
        let sa := mkSA ci (sa_Config osa) (sa_Group osa) "" reply ∅ in
        let js' := processStreamRemoval js sa in
        did = [ProposeStream removeStreamOp sa]
        /\ (nilNode (sa_Group osa) (ourID js) = false ->
            isStreamLeader_call js (Account ci) stream
            = Some (isStreamLeader js (Account ci) stream)
            /\ lookupSA js' (Account ci) stream = None
            /\ (forall a s, (a, s) <> (Account ci, stream) ->
                  lookupSA js' a s = lookupSA js a s)
            /\ effects js'
               = effects js
                 ++ [ClusterDeleteStream sa
                       (isStreamLeader js (Account ci) stream)])).
Proof.
  intros [_ Hkeyed] did. subst did. unfold jsClusteredStreamDeleteRequest.
  split; [intros ->; reflexivity|].
  intros osa Hosa. cbv zeta. rewrite Hosa. split; [reflexivity|].
  intros Hnil. split.
  { apply isStreamLeader_call_spec. unfold streamNodeReady.
    now rewrite Hosa, Hnil. }
  set (sa := mkSA ci (sa_Config osa) (sa_Group osa) "" reply ∅).
  assert (Name (sa_Config osa) = stream) as Hname.
  { unfold lookupSA in Hosa. destruct (streams js !! Account ci) as [asa|] eqn:Ha;
      [|discriminate].
    apply (Hkeyed (Account ci) stream osa). now rewrite Ha. }
  unfold processStreamRemoval. cbn [sa_Client sa_Config sa]. rewrite Hname.
  unfold lookupSA in Hosa.
  destruct (streams js !! Account ci) as [asa|] eqn:Ha; [|discriminate].
  rewrite Hosa. split; [|split].
  - unfold lookupSA, emit, with_streams. cbn [streams].
    case_decide.
    + now rewrite lookup_delete_eq.
    + rewrite lookup_insert_eq. apply lookup_delete_eq.
  - intros a s Hne. unfold lookupSA, emit, with_streams. cbn [streams].
    destruct (decide (a = Account ci)) as [->|Hna].
    + assert (s <> stream) as Hs by congruence.
      rewrite Ha. case_decide as Hsz.
      * rewrite lookup_delete_eq. apply map_size_empty_iff in Hsz.
        apply (f_equal (fun m => m !! s)) in Hsz.
        rewrite lookup_delete_ne, lookup_empty in Hsz by congruence. now rewrite Hsz.
      * rewrite lookup_insert_eq. now rewrite lookup_delete_ne by congruence.
    + case_decide.
      * now rewrite lookup_delete_ne by congruence.
      * now rewrite lookup_insert_ne by congruence.
  - reflexivity.
Qed.

Lemma jsClusteredStreamDeleteRequest_spec_witness :
  let js := restored5 in
  let ci := mkClientInfo "$G" in
  let did := jsClusteredStreamDeleteRequest (Some js) ci "S3" "$JS.API.STREAM.DELETE.S3"
               "_INBOX.2" [] in
  (lookupSA js (Account ci) "S3" = None -> did = [])
  /\ (forall osa, lookupSA js (Account ci) "S3" = Some osa ->
        let sa := mkSA ci (sa_Config osa) (sa_Group osa) "" "_INBOX.2" ∅ in
        let js' := processStreamRemoval js sa in
        did = [ProposeStream removeStreamOp sa]
        /\ (nilNode (sa_Group osa) (ourID js) = false ->
            isStreamLeader_call js (Account ci) "S3"
            = Some (isStreamLeader js (Account ci) "S3")
            /\ lookupSA js' (Account ci) "S3" = None
            /\ (forall a s, (a, s) <> (Account ci, "S3") ->
                  lookupSA js' a s = lookupSA js a s)
            /\ effects js'
               = effects js
                 ++ [ClusterDeleteStream sa
                       (isStreamLeader js (Account ci) "S3")])).
Proof.
  apply jsClusteredStreamDeleteRequest_spec.
  apply (well_keyed_snapshotStreams snap5).
Defined.

(** ** Naming a new consumer *)

Lemma ephemeralName_first names taken fuel : forall i k,
  (i <= k < i + fuel)%nat ->
  taken !! names k = None ->
  (forall j, (i <= j < k)%nat -> is_Some (taken !! names j)) ->
  ephemeralName names taken fuel i = Some (names k).
Proof.
  induction fuel as [|fuel IH]; intros i k Hk Hfree Htaken; [lia|].
  simpl. destruct (decide (i = k)) as [->|Hne].
  - now rewrite Hfree.
  - destruct (Htaken i ltac:(lia)) as [ca ->].
    apply IH; [lia | assumption | intros j Hj; apply Htaken; lia].
Qed.

(** X16.  A consumer create request for an unknown stream is answered with
    stream not found, and one for a stream whose group has no peers with
    insufficient resources.  Otherwise one consumer assignment is proposed,
    in a new group with the peer set of the stream's group.  A durable
    consumer keeps its configured name, in use or not; an ephemeral one
    gets the first drawn name that no consumer of the stream has, whenever
    the draws reach such a name. *)
Theorem jsClusteredConsumerRequest_spec LookupAccount groupName names isDurable
    fuel js ci subject reply rmsg stream cfg :
  let request :=
    jsClusteredConsumerRequest LookupAccount groupName names isDurable fuel (Some js)
      ci subject reply rmsg stream cfg in
  let respond e :=
    Some [Respond (mkResponse ci (LookupAccount (Account ci)) subject reply rmsg e)] in
  (lookupSA js (Account ci) stream = None ->
     request = respond ErrJetStreamStreamNotFound)
  /\ (forall sa, lookupSA js (Account ci) stream = Some sa ->
        let rg := mkRaftGroup (groupName "C" (Peers (sa_Group sa)))
                              (Peers (sa_Group sa)) None in
        (Peers (sa_Group sa) = [] -> request = respond jsInsufficientErr)
        /\ (Peers (sa_Group sa) <> [] -> isDurable cfg = true ->
              request = Some [ProposeConsumer assignConsumerOp
                                (mkCA ci (Durable cfg) stream rg reply)])
        /\ (Peers (sa_Group sa) <> [] -> isDurable cfg = false ->
              forall k, (k < fuel)%nat ->
                consumers sa !! names k = None ->
                (forall j, (j < k)%nat -> is_Some (consumers sa !! names j)) ->
                request = Some [ProposeConsumer assignConsumerOp
                                  (mkCA ci (names k) stream rg reply)])).
Proof.
  intros request respond. subst request respond.
  unfold jsClusteredConsumerRequest.
  split; [intros ->; reflexivity|].
  intros sa ->. cbv zeta. unfold createGroupForConsumer.
  destruct (Peers (sa_Group sa)) as [|p ps] eqn:Hp.
  - split; [reflexivity|]. split; intros Hne; now destruct Hne.
  - replace (len (p :: ps) =? 0) with false
      by (symmetry; apply Z.eqb_neq; unfold len; simpl; lia).
    split; [discriminate|]. split.
    + intros _ ->. reflexivity.
    + intros _ -> k Hk Hfree Htaken.
      rewrite (ephemeralName_first names (consumers sa) fuel 0 k);
        [reflexivity | lia | assumption | intros j Hj; apply Htaken; lia].
Qed.

End Requests.

(** * More on the publish path *)

Module PublishFacts.

Import Publish.
Local Open Scope list_scope.

(** An inbound message, as the arguments of [processClusteredInboundMsg]. *)
Record inbound := mkInbound {
  in_subject : gostring;
  in_reply : gostring;
  in_hdr : list byte;
  in_msg : list byte
}.

(** The sections fit the length fields of the frame. *)
Definition fits (m : inbound) : Prop :=
  len (in_subject m) <= 65535 /\ len (in_reply m) <= 65535
  /\ len (in_hdr m) <= 65535 /\ len (in_msg m) < 2 ^ 32.

(** What a member of the group reads from a committed entry, as
    [applyStreamEntries] does: the opcode byte, then
    [decodeStreamMsg(buf[1:])].  [None] is an entry it panics on, or one
    of another opcode. *)
Definition entryMsg (buf : list byte) : option Wire.StreamMsg :=
  match buf with
  | [] => None
  | op :: _ =>
      match entryOp_of_tag (byte.unsigned op) with
      | Some streamMsgOp =>
          match Wire.decodeStreamMsg (slice_from 1 buf) with
          | Wire.Ok m => Some m
          | Wire.Err _ => None
          end
      | _ => None
      end
  end.

Definition entrySeq (r : outcome) : option Z :=
  Wire.lseq <$> entryMsg (proposed r).

Section Sequence.

(** The answer of [mset.node.Propose] and the reading of the clock at the
    [k]-th call. *)
Context (Propose : nat -> list byte -> option string) (now : nat -> Z).

(** The stream leader taking inbound messages one after the other, from
    the [k]-th call on. *)
Fixpoint publishAll (k : nat) (mset : Stream) (msgs : list inbound)
    : Stream * list outcome :=
  match msgs with
  | [] => (mset, [])
  | m :: msgs =>
      let r := processClusteredInboundMsg (Propose k) (now k) mset
                 (in_subject m) (in_reply m) (in_hdr m) (in_msg m) in
      let rest := publishAll (S k) (mset' r) msgs in
      (fst rest, r :: snd rest)
  end.

(** The calls whose proposal the group took. *)
Definition accepted (rs : list outcome) : list outcome :=
  filter (fun r => err r = None) rs.

Lemma entryMsg_encodeStreamMsg subject reply hdr msg lseq ts :
  len subject <= 65535 -> len reply <= 65535 -> len hdr <= 65535 ->
  len msg < 2 ^ 32 -> 0 <= lseq < 2 ^ 64 -> - 2 ^ 63 <= ts < 2 ^ 63 ->
  entryMsg (Wire.encodeStreamMsg subject reply hdr msg lseq ts)
  = Some (Wire.mkStreamMsg subject reply hdr msg lseq ts).
Proof.
  intros Hs Hr Hh Hm Hl Ht. rewrite Wire.encodeStreamMsg_frame.
  unfold entryMsg.
  change (entryOp_of_tag (byte.unsigned (byte.of_Z (entryOp_tag streamMsgOp))))
    with (Some streamMsgOp).
  change (slice_from 1 (?x :: ?f)) with f.
  rewrite <- (app_nil_r (Wire.frame _ _ _ _ _ _)).
  now rewrite Wire.decodeStreamMsg_frame.
Qed.

Lemma publishAll_accepted msgs : forall k mset,
  0 <= lseq mset <= nlseq mset ->
  nlseq mset + len msgs < 2 ^ 64 ->
  Forall fits msgs ->
  (forall i, - 2 ^ 63 <= now i < 2 ^ 63) ->
  let final := fst (publishAll k mset msgs) in
  let rs := snd (publishAll k mset msgs) in
  nlseq final = nlseq mset + len (accepted rs)
  /\ lseq final = lseq mset
  /\ map entrySeq (accepted rs) = map Some (seqZ (nlseq mset) (len (accepted rs)))
  /\ length rs = length msgs.
Proof.
  induction msgs as [|m msgs IH]; intros k mset Hseq Hmax Hfit Hnow; cbv zeta.
  - simpl. unfold len. simpl. repeat split; lia.
  - apply Forall_cons in Hfit as [(Hs & Hr & Hh & Hm) Hfit].
    simpl. set (r := processClusteredInboundMsg _ _ _ _ _ _ _).
    assert (len (m :: msgs) = 1 + len msgs) as Hlen
      by (unfold len; simpl length; lia).
    pose proof (Wire.len_nonneg msgs) as Hnn.
    assert ((if nlseq mset <? lseq mset then lseq mset else nlseq mset) = nlseq mset)
      as Hsnap by (destruct (Z.ltb_spec (nlseq mset) (lseq mset)); lia).
    assert (proposed r
            = Wire.encodeStreamMsg (in_subject m) (in_reply m) (in_hdr m) (in_msg m)
                (nlseq mset) (now k)) as Hprop.
    { subst r. unfold processClusteredInboundMsg. rewrite Hsnap.
      now destruct (Propose k _). }
    assert (lseq (mset' r) = lseq mset) as Hl.
    { subst r. unfold processClusteredInboundMsg. now destruct (Propose k _). }
    assert (nlseq (mset' r) = if decide (err r = None) then nlseq mset + 1
                              else nlseq mset) as Hn.
    { subst r. unfold processClusteredInboundMsg. rewrite Hsnap.
      destruct (Propose k _); simpl; [reflexivity|].
      unfold uint64. apply Z.mod_small. lia. }
    assert (entrySeq r = Some (nlseq mset)) as Hentry.
    { unfold entrySeq. rewrite Hprop, entryMsg_encodeStreamMsg; try assumption;
        [reflexivity | lia | apply Hnow]. }
    destruct (IH (S k) (mset' r)) as (IHn & IHl & IHs & IHlen);
      [rewrite Hl, Hn; case_decide; lia | rewrite Hn; case_decide; lia
       | assumption | assumption |].
    unfold accepted in *. rewrite filter_cons.
    rewrite Hn in IHn, IHs.
    destruct (decide (err r = None)) as [Hok|Hbad].
    + assert (len (r :: filter (fun r => err r = None)
                                (snd (publishAll (S k) (mset' r) msgs)))
              = 1 + len (filter (fun r => err r = None)
                                (snd (publishAll (S k) (mset' r) msgs)))) as ->
        by (unfold len; simpl length; lia).
      pose proof (Wire.len_nonneg (filter (fun r => err r = None)
                                (snd (publishAll (S k) (mset' r) msgs)))).
      split; [lia|]. split; [congruence|]. split; [|now rewrite IHlen].
      rewrite seqZ_cons by lia. simpl. rewrite Hentry, IHs.
      do 3 f_equal; lia.
    + split; [lia|]. split; [congruence|]. split; [exact IHs | now rewrite IHlen].
Qed.

End Sequence.

(** X17.  A stream leader that takes inbound messages one after the other
    hands out sequence numbers without gaps or repeats: the entries the
    group accepted decode, on every member, to the consecutive sequences
    from the larger of [lseq] and [nlseq] on, in the order of the calls; a
    refused proposal's sequence goes to the next message; and [nlseq] ends
    the number of accepted proposals higher. *)
Theorem publishAll_sequence Propose now k mset msgs :
  0 <= lseq mset -> 0 <= nlseq mset ->
  Z.max (lseq mset) (nlseq mset) + len msgs < 2 ^ 64 ->
  Forall fits msgs ->
  (forall i, - 2 ^ 63 <= now i < 2 ^ 63) ->
  let snapped := Z.max (lseq mset) (nlseq mset) in
  let final := fst (publishAll Propose now k mset msgs) in
  let rs := snd (publishAll Propose now k mset msgs) in
  (msgs <> [] -> nlseq final = snapped + len (accepted rs))
  /\ lseq final = lseq mset
  /\ map entrySeq (accepted rs) = map Some (seqZ snapped (len (accepted rs)))
  /\ length rs = length msgs.
Proof.
  intros Hl Hn Hmax Hfit Hnow snapped final rs. subst final rs.
  destruct msgs as [|m msgs].
  - simpl. unfold len. simpl. repeat split; congruence.
  - (* the first call raises [nlseq] to [lseq] where it is behind *)
    set (mset0 := mkStream (config_Name mset) (config_NoAck mset) (isLeader mset)
                           (lseq mset) snapped).
    assert (publishAll Propose now k mset (m :: msgs)
            = publishAll Propose now k mset0 (m :: msgs)) as ->.
    { simpl.
      assert (processClusteredInboundMsg (Propose k) (now k) mset
                (in_subject m) (in_reply m) (in_hdr m) (in_msg m)
              = processClusteredInboundMsg (Propose k) (now k) mset0
                  (in_subject m) (in_reply m) (in_hdr m) (in_msg m)) as ->;
        [|reflexivity].
      unfold processClusteredInboundMsg, mset0. cbn [config_Name config_NoAck
        isLeader lseq nlseq]. subst snapped.
      destruct (Z.ltb_spec (nlseq mset) (lseq mset));
        destruct (Z.ltb_spec (Z.max (lseq mset) (nlseq mset)) (lseq mset));
        try lia.
      - now replace (Z.max (lseq mset) (nlseq mset)) with (lseq mset) by lia.
      - now replace (Z.max (lseq mset) (nlseq mset)) with (nlseq mset) by lia. }
    destruct (publishAll_accepted Propose now (m :: msgs) k mset0)
      as (Hfinal & Hlast & Hseqs & Hcount); try assumption.
    + simpl. subst snapped. lia.
    + cbv zeta in *. cbn [nlseq lseq mset0] in *. split; [intros _; exact Hfinal|].
      split; [exact Hlast|]. split; [exact Hseqs | exact Hcount].
Qed.

Definition everyOther (k : nat) (_ : list byte) : option string :=
  if Nat.even k then None else Some "raft: proposal failed"%string.

Definition threeMsgs : list inbound :=
  [mkInbound [Byte.x66] [Byte.x72] [] [Byte.x31];
   mkInbound [Byte.x66] [] [] [Byte.x32];
   mkInbound [Byte.x66] [Byte.x72] [] [Byte.x33]].

Lemma publishAll_sequence_witness :
  let final := fst (publishAll everyOther (fun _ => 0) 0 stream7 threeMsgs) in
  let rs := snd (publishAll everyOther (fun _ => 0) 0 stream7 threeMsgs) in
  nlseq final = 7 + len (accepted rs)
  /\ lseq final = 7
  /\ map entrySeq (accepted rs) = map Some (seqZ 7 (len (accepted rs)))
  /\ length rs = 3%nat
  /\ len (accepted rs) = 2.
Proof.
  intros final rs.
  destruct (publishAll_sequence everyOther (fun _ => 0) 0%nat stream7 threeMsgs)
    as (Hfinal & Hlast & Hseqs & Hcount).
  - simpl. lia.
  - simpl. lia.
  - vm_compute. reflexivity.
  - repeat constructor; unfold len; simpl; lia.
  - intros i. lia.
  - split; [apply Hfinal; discriminate|]. split; [exact Hlast|].
    split; [exact Hseqs|]. split; [exact Hcount|]. vm_compute. reflexivity.
Defined.

End PublishFacts.

(** * More on the catch-up sender *)

Module CatchupFacts.

Import Catchup.
Local Open Scope list_scope.

(** The bytes the frames of a run put on the counter. *)
Definition sentBytes (msgs : list outMsg) : Z :=
  foldr (fun m acc => replySize m + acc) 0 msgs.

(** The acks and the [nextBatchC] receives of a run. *)
Definition acks (evs : list event) : nat :=
  foldr (fun e n => match e with Ack _ => Datatypes.S n | _ => n end) 0%nat evs.

Definition receives (evs : list event) : nat :=
  foldr (fun e n => match e with NextBatch => Datatypes.S n | _ => n end) 0%nat evs.

Section SenderMore.

Context {S : Type} `{StreamStore S} (store : S).

Lemma sentBytes_snoc msgs m : sentBytes (msgs ++ [m]) = sentBytes msgs + replySize m.
Proof.
  unfold sentBytes. induction msgs as [|x msgs IH]; simpl; [lia|].
  rewrite IH. lia.
Qed.

Lemma run_app evs1 : forall st evs2,
  run store st (evs1 ++ evs2)
  = match run store st evs1 with
    | Some st1 => run store st1 evs2
    | None => None
    end.
Proof.
  induction evs1 as [|e evs1 IH]; intros st evs2; simpl; [reflexivity|].
  destruct (step store st e); [apply IH | reflexivity].
Qed.

(** [int64] keeps the number modulo [2 ^ 64], and is the one number of
    its range that does. *)
Lemma int64_mod n : int64 n mod 2 ^ 64 = n mod 2 ^ 64.
Proof.
  unfold int64. cbv zeta.
  destruct (Z.ltb_spec (n mod 2 ^ 64) (2 ^ 63)).
  - apply Z.mod_mod. lia.
  - replace (n mod 2 ^ 64 - 2 ^ 64) with (n mod 2 ^ 64 + (-1) * 2 ^ 64) by lia.
    rewrite Z.mod_add by lia. apply Z.mod_mod. lia.
Qed.

Lemma int64_unique a b :
  - 2 ^ 63 <= a < 2 ^ 63 -> a mod 2 ^ 64 = b mod 2 ^ 64 -> a = int64 b.
Proof.
  intros Ha Hab. rewrite <- (int64_small a Ha). unfold int64. now rewrite Hab.
Qed.

Lemma sub_mod_l a b c :
  a mod 2 ^ 64 = b mod 2 ^ 64 -> (a - c) mod 2 ^ 64 = (b - c) mod 2 ^ 64.
Proof. intros Hab. rewrite (Zminus_mod a), (Zminus_mod b), Hab. reflexivity. Qed.

(** One step keeps the books: the counter moves, modulo [2 ^ 64], by what
    was sent less what was acknowledged, and a signal is added by an ack
    and taken by a receive. *)
Lemma step_accounts st e st' :
  step store st e = Some st' ->
  (out st' - sentBytes (sent st')) mod 2 ^ 64
  = (out st - sentBytes (sent st) - ackedBytes [e]) mod 2 ^ 64
  /\ (nextBatchC st' + receives [e] = nextBatchC st + acks [e])%nat.
Proof.
  unfold step.
  destruct e as [sz| | | |], (at_ st); try discriminate;
    try (intros [= <-]; simpl; split; [f_equal; lia | lia]).
  - intros [= <-]. simpl. split; [|lia].
    replace (out st - sentBytes (sent st) - (sz + 0))
      with (out st - sz - sentBytes (sent st)) by lia.
    apply sub_mod_l, int64_mod.
  - intros [= <-]. simpl. split; [|lia].
    replace (out st - sentBytes (sent st) - (sz + 0))
      with (out st - sz - sentBytes (sent st)) by lia.
    apply sub_mod_l, int64_mod.
  - destruct (nextBatchC st) as [|n] eqn:Hn; [discriminate|].
    intros [= <-]. simpl. split; [f_equal; lia | lia].
  - destruct ((seq st <? last st) && (out st <=? maxOut)); intros [= <-].
    + unfold sendOne. cbn [out sent nextBatchC]. rewrite sentBytes_snoc. simpl.
      split; [|lia].
      replace (out st - sentBytes (sent st) - 0)
        with (out st + len (encodeAt store (seq st))
              - (sentBytes (sent st) + len (encodeAt store (seq st)))) by lia.
      apply sub_mod_l, int64_mod.
    + simpl. split; [f_equal; lia | lia].
Qed.

Lemma step_out_in_range st e st' :
  - 2 ^ 63 <= out st < 2 ^ 63 -> step store st e = Some st' ->
  - 2 ^ 63 <= out st' < 2 ^ 63.
Proof.
  intros Hout. unfold step.
  destruct e as [sz| | | |], (at_ st); try discriminate;
    try (intros [= <-]; simpl; first [apply int64_in_range | exact Hout]).
  - destruct (nextBatchC st) as [|n]; [discriminate|].
    intros [= <-]. exact Hout.
  - destruct ((seq st <? last st) && (out st <=? maxOut)); intros [= <-].
    + apply int64_in_range.
    + exact Hout.
Qed.

Lemma run_out_in_range evs : forall st st',
  - 2 ^ 63 <= out st < 2 ^ 63 -> run store st evs = Some st' ->
  - 2 ^ 63 <= out st' < 2 ^ 63.
Proof.
  induction evs as [|e evs IH]; intros st st' Hout Hrun; simpl in Hrun.
  - now injection Hrun as <-.
  - destruct (step store st e) as [st1|] eqn:Hstep; [|discriminate].
    apply (IH st1 st'); [|exact Hrun]. exact (step_out_in_range _ _ _ Hout Hstep).
Qed.

Lemma acks_cons e evs : acks (e :: evs) = (acks [e] + acks evs)%nat.
Proof. destruct e; reflexivity. Qed.

Lemma receives_cons e evs : receives (e :: evs) = (receives [e] + receives evs)%nat.
Proof. destruct e; reflexivity. Qed.

Lemma run_accounts evs : forall st st',
  run store st evs = Some st' ->
  (out st' - sentBytes (sent st')) mod 2 ^ 64
  = (out st - sentBytes (sent st) - ackedBytes evs) mod 2 ^ 64
  /\ (nextBatchC st' + receives evs = nextBatchC st + acks evs)%nat.
Proof.
  induction evs as [|e evs IH]; intros st st' Hrun; simpl in Hrun.
  - injection Hrun as <-. simpl. split; [f_equal; lia | lia].
  - destruct (step store st e) as [st1|] eqn:Hstep; [|discriminate].
    destruct (step_accounts _ _ _ Hstep) as [Ho Hn].
    destruct (IH _ _ Hrun) as [Ho' Hn'].
    rewrite ackedBytes_cons, acks_cons, receives_cons. split; [|lia].
    rewrite Ho'.
    replace (out st - sentBytes (sent st) - (ackedBytes [e] + ackedBytes evs))
      with (out st - sentBytes (sent st) - ackedBytes [e] - ackedBytes evs) by lia.
    now apply sub_mod_l.
Qed.

(** X18.  The flow-control counter is exact up to the wrap-around of its
    type: after any run of the sender, [out] is the [int64] of the bytes of
    the frames sent less the bytes acknowledged, hence that difference
    itself whenever it fits an [int64]; and the signals waiting on
    [nextBatchC] are one more than the acks that arrived less the receives
    the sender made.  No signal is dropped and none is invented. *)
Theorem runCatchup_accounts qch sreq evs st :
  run store (start qch sreq) evs = Some st ->
  out st = int64 (sentBytes (sent st) - ackedBytes evs)
  /\ (- 2 ^ 63 <= sentBytes (sent st) - ackedBytes evs < 2 ^ 63 ->
      out st = sentBytes (sent st) - ackedBytes evs)
  /\ (nextBatchC st + receives evs = 1 + acks evs)%nat.
Proof.
  intros Hrun. destruct (run_accounts _ _ _ Hrun) as [Ho Hn].
  assert (- 2 ^ 63 <= out st < 2 ^ 63) as Hrange
    by (apply (run_out_in_range evs (start qch sreq) st); [simpl; lia | exact Hrun]).
  assert (out st = int64 (sentBytes (sent st) - ackedBytes evs)) as Hout.
  { apply int64_unique; [exact Hrange|].
    cbn [out sent start sentBytes foldr] in Ho.
    rewrite <- (Z.sub_0_r (out st)).
    replace (out st - 0) with (out st - sentBytes (sent st) + sentBytes (sent st))
      by lia.
    rewrite Z.add_mod, Ho, <- Z.add_mod by lia. f_equal. lia. }
  split; [exact Hout|]. split; [|simpl in Hn; lia].
  intros Hfits. rewrite Hout. now apply int64_small.
Qed.

Lemma length_seqFrom a n : length (seqFrom a n) = n.
Proof. revert a. induction n as [|n IH]; intros a; simpl; [|rewrite IH]; reflexivity. Qed.

Lemma len_interval a b : a <= b -> len (interval a b) = b - a.
Proof. intros Hab. unfold len, interval. rewrite length_seqFrom. lia. Qed.

(** X19.  A follower that asks for what a snapshot says it is missing is
    never sent all of it.  The request names the snapshot's last sequence
    as its end and the sender stops before that sequence: at any point of
    a run fewer frames have been sent than messages are missing, every
    frame sent is that of a sequence strictly between the follower's last
    and the snapshot's last, and a run that ends through the
    [seq >= last] test has sent exactly one frame fewer than are
    missing. *)
Theorem catchup_stops_one_short state snap sreq qch evs st :
  in_range state -> in_range snap ->
  calculateSyncRequest state snap = Some sreq ->
  Forall nonnegAck evs ->
  run store (start qch sreq) evs = Some st ->
  let missing := LastSeq snap - LastSeq state in
  len (sent st) < missing
  /\ (forall m, m ∈ sent st ->
        exists s, LastSeq state < s < LastSeq snap /\ m = frameFor store s)
  /\ (at_ st = Returned Done ->
      sent st = map (frameFor store) (interval (LastSeq state + 1) (LastSeq snap))
      /\ len (sent st) = missing - 1).
Proof.
  intros [_ Hstate] [_ Hsnap] Hreq Hacks Hrun missing. subst missing.
  unfold calculateSyncRequest in Hreq.
  destruct (Z.leb_spec (LastSeq snap) (LastSeq state)) as [|Hlt]; [discriminate|].
  injection Hreq as <-.
  assert (uint64 (LastSeq state + 1) = LastSeq state + 1) as Hfirst
    by (unfold uint64; apply Z.mod_small; lia).
  rewrite Hfirst in Hrun.
  destruct (inv_run store (LastSeq state + 1) (LastSeq snap) evs _ st
              ltac:(lia) ltac:(lia)
              (inv_start store qch (mkSyncRequest (LastSeq state + 1) (LastSeq snap)))
              Hrun)
    as [Hl Hs Hsent Hdone].
  assert (len (sent st) = seq st - (LastSeq state + 1)) as Hcount.
  { rewrite Hsent. unfold len. rewrite length_map.
    apply (len_interval (LastSeq state + 1) (seq st)). lia. }
  split; [lia|]. split.
  - intros m Hm. rewrite Hsent in Hm.
    apply list_elem_of_fmap in Hm as (s & -> & Hin).
    apply list_elem_of_In, In_interval in Hin. exists s. split; [lia | reflexivity].
  - intros Hat. specialize (Hdone Hat).
    assert (seq st = LastSeq snap) as Hend by lia.
    rewrite Hend in Hsent, Hcount. split; [exact Hsent | lia].
Qed.

(** X20.  The sender is never stuck: from wherever a run has brought it,
    short of having returned, the follower and the scheduler can let it
    finish, and it then has sent the frame of every sequence of the
    request's half-open interval. *)
Theorem runCatchup_never_stuck sreq evs st :
  0 <= rq_FirstSeq sreq -> rq_LastSeq sreq < 2 ^ 64 ->
  Forall nonnegAck evs ->
  run store (start true sreq) evs = Some st ->
  at_ st = AtSelect \/ at_ st = InBatch ->
  exists evs' st',
    Forall nonnegAck evs'
    /\ run store st evs' = Some st'
    /\ at_ st' = Returned Done
    /\ sent st' = map (frameFor store)
                      (interval (rq_FirstSeq sreq) (rq_LastSeq sreq)).
Proof.
  intros Hfirst Hlast Hacks Hrun Hat.
  pose proof (inv_run store _ _ evs _ st Hfirst Hlast
                (inv_start store true sreq) Hrun) as Hinv.
  assert (- 2 ^ 63 <= out st < 2 ^ 63) as Hrange
    by (apply (run_out_in_range evs (start true sreq) st); [simpl; lia | exact Hrun]).
  assert (exists evs' st',
            Forall nonnegAck evs' /\ run store st evs' = Some st'
            /\ at_ st' = Returned Done) as (evs' & st' & Hacks' & Hrun' & Hdone).
  { destruct Hinv as [Hl Hs _ _]. destruct Hat as [Hat|Hat].
    - destruct (Z.leb_spec (last st) (seq st)) as [Hle|Hgt].
      + exists [Ack 0; NextBatch]. eexists. split; [|split].
        * repeat constructor. simpl. lia.
        * simpl. unfold step. rewrite Hat. simpl.
          replace (last st <=? seq st) with true by (symmetry; apply Z.leb_le; lia).
          reflexivity.
        * reflexivity.
      + set (st1 := mkSender (seq st) (last st) (int64 (out st - 0)) (nextBatchC st)
                             (sent st) InBatch).
        destruct (batch_can_complete store _ st1 eq_refl eq_refl
                    ltac:(simpl; lia) ltac:(simpl; lia)
                    ltac:(apply int64_in_range))
          as (evs1 & st' & Hacks1 & Hrun1 & Hdone).
        exists (Ack 0 :: NextBatch :: evs1), st'. split; [|split; [|assumption]].
        * constructor; [simpl; lia|]. constructor; [exact I | assumption].
        * change (run store st (Ack 0 :: NextBatch :: evs1))
            with (match step store st (Ack 0) with
                  | Some st2 =>
                      match step store st2 NextBatch with
                      | Some st3 => run store st3 evs1
                      | None => None
                      end
                  | None => None
                  end).
          assert (step store st (Ack 0)
                  = Some (mkSender (seq st) (last st) (int64 (out st - 0))
                            (Datatypes.S (nextBatchC st)) (sent st) AtSelect)) as ->
            by (unfold step; now rewrite Hat).
          assert (step store
                    (mkSender (seq st) (last st) (int64 (out st - 0))
                       (Datatypes.S (nextBatchC st)) (sent st) AtSelect) NextBatch
                  = Some st1) as ->; [|exact Hrun1].
          unfold step. simpl.
          now replace (last st <=? seq st) with false
            by (symmetry; apply Z.leb_gt; lia).
    - apply (batch_can_complete store _ st Hat eq_refl); lia. }
  exists evs', st'. split; [assumption|]. split; [assumption|]. split; [assumption|].
  assert (run store (start true sreq) (evs ++ evs') = Some st') as Hall
    by (rewrite run_app, Hrun; exact Hrun').
  destruct (inv_run store _ _ (evs ++ evs') _ st' Hfirst Hlast
              (inv_start store true sreq) Hall) as [_ Hs Hsent Hd].
  specialize (Hd Hdone). rewrite Hsent.
  destruct (Z.le_gt_cases (rq_FirstSeq sreq) (rq_LastSeq sreq)).
  - now replace (seq st') with (rq_LastSeq sreq) by lia.
  - replace (seq st') with (rq_FirstSeq sreq) by lia. unfold interval.
    now replace (Z.to_nat (rq_LastSeq sreq - rq_FirstSeq sreq))
      with (Z.to_nat (rq_FirstSeq sreq - rq_FirstSeq sreq)) by lia.
Qed.

End SenderMore.

Lemma runCatchup_accounts_witness :
  let st := mkSender 4 4 (29 + 29 - 29) 0 [frameFor store4 2; frameFor store4 3]
                     (Returned Done) in
  out st = int64 (sentBytes (sent st) - 29)
  /\ (- 2 ^ 63 <= sentBytes (sent st) - 29 < 2 ^ 63 ->
      out st = sentBytes (sent st) - 29)
  /\ (nextBatchC st + 2 = 1 + 1)%nat.
Proof.
  apply (runCatchup_accounts store4 true (mkSyncRequest 2 4)
           [NextBatch; Iterate; Iterate; Iterate; Ack 29; NextBatch]).
  exact catchup_two_messages.
Defined.

Lemma catchup_stops_one_short_witness :
  let st := mkSender 4 4 (29 + 29 - 29) 0 [frameFor store4 2; frameFor store4 3]
                     (Returned Done) in
  len (sent st) < 4 - 1
  /\ (forall m, m ∈ sent st -> exists s, 1 < s < 4 /\ m = frameFor store4 s)
  /\ (at_ st = Returned Done ->
      sent st = map (frameFor store4) (interval (1 + 1) 4)
      /\ len (sent st) = 4 - 1 - 1).
Proof.
  apply (catchup_stops_one_short store4 (mkState 1 1 []) (mkState 1 4 [])
           (mkSyncRequest 2 4) true
           [NextBatch; Iterate; Iterate; Iterate; Ack 29; NextBatch]).
  - unfold in_range. simpl. lia.
  - unfold in_range. simpl. lia.
  - reflexivity.
  - repeat constructor. simpl. lia.
  - exact catchup_two_messages.
Defined.

Lemma runCatchup_never_stuck_witness :
  exists evs' st',
    Forall nonnegAck evs'
    /\ run store4 (mkSender 3 4 29 0 [frameFor store4 2] InBatch) evs' = Some st'
    /\ at_ st' = Returned Done
    /\ sent st' = map (frameFor store4) (interval 2 4).
Proof.
  apply (runCatchup_never_stuck store4 (mkSyncRequest 2 4) [NextBatch; Iterate]).
  - simpl. lia.
  - simpl. lia.
  - repeat constructor.
  - vm_compute. reflexivity.
  - right. reflexivity.
Defined.

End CatchupFacts.

(** * Updates: the replicated consumer updates *)

Module Updates.

Local Open Scope list_scope.

(** [binary.Uvarint] of the Go library ([encoding/binary], go 1.15 as the
    module file asks for): the value and the number of bytes read; [n = 0]
    says the buffer ended inside the number, [n < 0] that the number
    overflows 64 bits, with [-n] the bytes read.  [i] counts the bytes
    read so far, [x] is the value so far and [s] the next shift. *)
Fixpoint Uvarint_from (buf : list byte) (i x s : Z) : Z * Z :=
  match buf with
  | [] => (0, 0)
  | b :: buf =>
      let b := byte.unsigned b in
      if b <? 128 then
        if (9 <? i) || ((i =? 9) && (1 <? b)) then (0, - (i + 1)) (* overflow *)
        else (Z.lor x (uint64 (Z.shiftl b s)), i + 1)
      else Uvarint_from buf (i + 1) (Z.lor x (uint64 (Z.shiftl (Z.land b 127) s)))
                        (s + 7)
  end.

Definition Uvarint (buf : list byte) : Z * Z := Uvarint_from buf 0 0 0.

(** [binary.Varint]: the zig-zag reading of [Uvarint]; "ok to continue in
    presence of error". *)
Definition Varint (buf : list byte) : Z * Z :=
  let (ux, n) := Uvarint buf in
  let x := int64 (Z.shiftr ux 1) in
  (if Z.testbit ux 0 then int64 (Z.lnot x) else x, n).

Inductive error := errBadAckUpdate | errBadDeliveredUpdate.

Inductive result (A : Type) := Ok (a : A) | Err (e : error).
Arguments Ok {A} a.
Arguments Err {A} e.

Definition decodeAckUpdate (buf : list byte) : result (Z * Z) :=
  let bi := 0 in
  let (dseq, n) := Uvarint buf in
  if n <? 0 then Err errBadAckUpdate
  else
    let bi := bi + n in
    let (sseq, n) := Uvarint (slice_from bi buf) in
    if n <? 0 then Err errBadAckUpdate
    else Ok (dseq, sseq).

Definition decodeDeliveredUpdate (buf : list byte) : result (Z * Z * Z * Z) :=
  let bi := 0 in
  let (dseq, n) := Uvarint buf in
  if n <? 0 then Err errBadDeliveredUpdate
  else
    let bi := bi + n in
    let (sseq, n) := Uvarint (slice_from bi buf) in
    if n <? 0 then Err errBadDeliveredUpdate
    else
      let bi := bi + n in
      let (dc, n) := Uvarint (slice_from bi buf) in
      if n <? 0 then Err errBadDeliveredUpdate
      else
        let bi := bi + n in
        let (ts, n) := Varint (slice_from bi buf) in
        if n <? 0 then Err errBadDeliveredUpdate
        else Ok (dseq, sseq, dc, ts).

(** The byte says another one follows. *)
Definition continues (b : byte) : Prop := 128 <= byte.unsigned b.

Example ack_update_read :
  decodeAckUpdate [Byte.xac; Byte.x02; Byte.x07] = Ok (300, 7).
Proof. reflexivity. Qed.

Example ack_update_overflow :
  decodeAckUpdate (repeat Byte.xff 10 ++ [Byte.x01]) = Err errBadAckUpdate.
Proof. reflexivity. Qed.

(** ** Short buffers *)

Lemma Uvarint_from_short buf : forall i x s,
  0 <= i -> i + len buf <= 9 ->
  0 <= snd (Uvarint_from buf i x s) <= i + len buf.
Proof.
  induction buf as [|b buf IH]; intros i x s Hi Hlen; simpl.
  - unfold len in *. simpl in *. lia.
  - assert (len (b :: buf) = 1 + len buf) as Hcons
      by (unfold len; simpl length; lia).
    pose proof (Wire.len_nonneg buf).
    destruct (Z.ltb_spec (byte.unsigned b) 128).
    + replace (9 <? i) with false by (symmetry; apply Z.ltb_ge; lia).
      replace (i =? 9) with false by (symmetry; apply Z.eqb_neq; lia).
      simpl. lia.
    + specialize (IH (i + 1) (Z.lor x (uint64 (Z.shiftl (Z.land (byte.unsigned b) 127) s)))
                     (s + 7) ltac:(lia) ltac:(lia)).
      lia.
Qed.

Lemma Uvarint_short buf :
  len buf <= 9 -> 0 <= snd (Uvarint buf) <= len buf.
Proof. intros Hlen. apply (Uvarint_from_short buf 0 0 0); lia. Qed.

Lemma Uvarint_from_cut buf : forall i x s,
  Forall continues buf -> Uvarint_from buf i x s = (0, 0).
Proof.
  induction buf as [|b buf IH]; intros i x s Hall; simpl; [reflexivity|].
  apply Forall_cons in Hall as [Hb Hall]. unfold continues in Hb.
  replace (byte.unsigned b <? 128) with false by (symmetry; apply Z.ltb_ge; lia).
  now apply IH.
Qed.

Lemma len_slice_from_le {A} (b : list A) n : len (slice_from n b) <= len b.
Proof. unfold len, slice_from. rewrite length_drop. lia. Qed.

Lemma Varint_n buf : snd (Varint buf) = snd (Uvarint buf).
Proof. unfold Varint. now destruct (Uvarint buf). Qed.

(** X21.  The update decoders never refuse a short buffer: every buffer of
    at most nine bytes, the empty one included, is accepted by
    [decodeAckUpdate] and by [decodeDeliveredUpdate], because a number cut
    off by the end of the buffer reads as [0] with [n = 0] and only
    [n < 0] is checked.  A buffer that ends inside its first number
    decodes to an update of all zeros. *)
Theorem decode_updates_accept_short buf :
  len buf <= 9 ->
  (exists dseq sseq, decodeAckUpdate buf = Ok (dseq, sseq))
  /\ (exists dseq sseq dc ts, decodeDeliveredUpdate buf = Ok (dseq, sseq, dc, ts))
  /\ (Forall continues buf ->
      decodeAckUpdate buf = Ok (0, 0)
      /\ decodeDeliveredUpdate buf = Ok (0, 0, 0, 0)).
Proof.
  intros Hlen.
  assert (forall bi, 0 <= snd (Uvarint (slice_from bi buf))) as Hn.
  { intros bi. apply Uvarint_short.
    pose proof (len_slice_from_le buf bi). lia. }
  assert (forall bi, (snd (Uvarint (slice_from bi buf)) <? 0) = false) as Hok
    by (intros bi; apply Z.ltb_ge, Hn).
  assert ((snd (Uvarint buf) <? 0) = false) as Hok0 by apply (Hok 0).
  split; [|split].
  - unfold decodeAckUpdate.
    destruct (Uvarint buf) as [dseq n] eqn:H1. simpl in Hok0. rewrite Hok0.
    specialize (Hok (0 + n)).
    destruct (Uvarint (slice_from (0 + n) buf)) as [sseq n2]. simpl in Hok. rewrite Hok.
    eauto.
  - unfold decodeDeliveredUpdate.
    destruct (Uvarint buf) as [dseq n] eqn:H1. simpl in Hok0. rewrite Hok0.
    pose proof (Hok (0 + n)) as Hok1.
    destruct (Uvarint (slice_from (0 + n) buf)) as [sseq n2]. simpl in Hok1.
    rewrite Hok1.
    pose proof (Hok (0 + n + n2)) as Hok2.
    destruct (Uvarint (slice_from (0 + n + n2) buf)) as [dc n3]. simpl in Hok2.
    rewrite Hok2.
    pose proof (Hok (0 + n + n2 + n3)) as Hok3.
    rewrite <- Varint_n in Hok3.
    destruct (Varint (slice_from (0 + n + n2 + n3) buf)) as [ts n4]. simpl in Hok3.
    rewrite Hok3. eauto.
  - intros Hcut. unfold decodeAckUpdate, decodeDeliveredUpdate, Varint, Uvarint.
    do 3 (rewrite (Uvarint_from_cut buf 0 0 0 Hcut);
          change (0 <? 0) with false; cbv iota;
          change (slice_from (0 + 0) buf) with buf;
          change (slice_from (0 + 0 + 0) buf) with buf;
          change (slice_from (0 + 0 + 0 + 0) buf) with buf).
    rewrite (Uvarint_from_cut buf 0 0 0 Hcut).
    split; reflexivity.
Qed.

Lemma decode_updates_accept_short_witness :
  (exists dseq sseq, decodeAckUpdate [Byte.x05; Byte.x80] = Ok (dseq, sseq))
  /\ (exists dseq sseq dc ts,
        decodeDeliveredUpdate [Byte.x05; Byte.x80] = Ok (dseq, sseq, dc, ts))
  /\ decodeAckUpdate [Byte.x05; Byte.x80] = Ok (5, 0)
  /\ decodeDeliveredUpdate [Byte.x05; Byte.x80] = Ok (5, 0, 0, 0).
Proof.
  destruct (decode_updates_accept_short [Byte.x05; Byte.x80]) as (Hack & Hdel & _).
  - unfold len. simpl. lia.
  - split; [exact Hack|]. split; [exact Hdel|]. split; reflexivity.
Defined.

End Updates.

(** * Leadership: answering the create request *)

Module Leadership.

Local Open Scope list_scope.

(** The create response a new leader sends: [resp.Error = jsError(err)],
    or the info of what was created. *)
Inductive createResponse := CreateFailed (e : string) | Created.

(** What the leader-change handlers read and write: the leader flag of the
    stream or consumer ([setLeader]), the runtime fields [responded] and
    [err] of its assignment, and the responses sent to the assignment's
    reply subject. *)
Record replica := mkReplica {
  leader : bool;
  responded : bool;
  err : option string;
  responses : list createResponse
}.

Definition createResponseFor (err : option string) : createResponse :=
  match err with
  | Some e => CreateFailed e
  | None => Created
  end.

Definition processStreamLeaderChange (r : replica) (isLeader : bool) : replica :=
  let r := mkReplica isLeader (responded r) (err r) (responses r) in
  if negb isLeader then r
  else
    (* Check if we need to respond to the original request. *)
    let was := responded r in
    let r := mkReplica (leader r) true (err r) (responses r) in
    if negb was
    then mkReplica (leader r) (responded r) (err r)
                   (responses r ++ [createResponseFor (err r)])
    else r.

Definition processConsumerLeaderChange (r : replica) (isLeader : bool) : replica :=
  let r := mkReplica isLeader (responded r) (err r) (responses r) in
  if negb isLeader then r
  else
    let was := responded r in
    let r := mkReplica (leader r) true (err r) (responses r) in
    if isLeader && negb was
    then mkReplica (leader r) (responded r) (err r)
                   (responses r ++ [createResponseFor (err r)])
    else r.

(** The monitor routine handing the changes of [LeadChangeC] to the
    handler, one after the other. *)
Definition leaderChanges (handler : replica -> bool -> replica)
    (r : replica) (lch : list bool) : replica :=
  foldl handler r lch.

Definition everLeader (lch : list bool) : bool := existsb id lch.

Lemma last_cons_default {A} (l : list A) : forall b d,
  List.last (b :: l) d = List.last l b.
Proof.
  induction l as [|c l IH]; intros b d; [reflexivity|].
  change (List.last (b :: c :: l) d) with (List.last (c :: l) d).
  now rewrite (IH c d), (IH c b).
Qed.

Lemma leaderChanges_respond handler :
  (forall r b, handler r b = processStreamLeaderChange r b) ->
  forall lch r,
    let r' := leaderChanges handler r lch in
    responses r'
    = responses r
      ++ (if negb (responded r) && everLeader lch
          then [createResponseFor (err r)] else [])
    /\ responded r' = responded r || everLeader lch
    /\ err r' = err r
    /\ leader r' = List.last lch (leader r).
Proof.
  intros Hh. induction lch as [|b lch IH]; intros r; cbv zeta.
  - simpl. rewrite andb_false_r, orb_false_r, app_nil_r. auto.
  - unfold leaderChanges. cbn [foldl]. fold (leaderChanges handler (handler r b) lch).
    destruct (IH (handler r b)) as (Hresp & Hdone & Herr & Hlead).
    rewrite Hresp, Hdone, Herr, Hlead, Hh. unfold processStreamLeaderChange.
    rewrite last_cons_default.
    unfold everLeader. cbn [existsb id].
    destruct b, (responded r); cbn; rewrite ?app_nil_r, <- ?app_assoc;
      try rewrite andb_false_r; auto;
      destruct (existsb id lch); cbn; rewrite ?app_nil_r; auto.
Qed.

(** X22.  However often leadership of a stream or of a consumer comes and
    goes on a server, the server answers the create request at most once:
    at the first change to leader, when the assignment had not been
    answered before, and never again.  The leader flag follows the last
    change. *)
Theorem create_response_once lch r :
  let s := leaderChanges processStreamLeaderChange r lch in
  let c := leaderChanges processConsumerLeaderChange r lch in
  let answer := if negb (responded r) && everLeader lch
                then [createResponseFor (err r)] else [] in
  responses s = responses r ++ answer
  /\ responses c = responses r ++ answer
  /\ responded s = responded r || everLeader lch
  /\ responded c = responded r || everLeader lch
  /\ leader s = List.last lch (leader r)
  /\ leader c = List.last lch (leader r).
Proof.
  cbv zeta.
  destruct (leaderChanges_respond processStreamLeaderChange
              ltac:(reflexivity) lch r) as (Hs1 & Hs2 & _ & Hs3).
  destruct (leaderChanges_respond processConsumerLeaderChange
              ltac:(intros r0 [|]; reflexivity) lch r) as (Hc1 & Hc2 & _ & Hc3).
  auto 10.
Qed.

End Leadership.
